(** * The gravity model of skmob/models/gravity.py

    A shallow embedding of [src/skmob/models/gravity.py] and the properties
    of its probability-matrix construction, its calibration data builder and
    its handling of configuration and input errors.

    Conventions of the embedding.
    - A float is a value of [num]: a rational (exact arithmetic on finite
      values, kept in lowest terms) or one of the IEEE special values
      [PInf], [NInf], [NaN].  Rounding, overflow and the sign of zero are
      abstracted away; the special values follow NumPy.
    - A NumPy array of rank 2 is a list of rows; a rank-1 array is a list.
    - Python exceptions are the [Raise] results of an error-and-state monad
      over the model object, the console and the random source.
    - Collaborators that are not part of the module (the geodesic distance,
      the GLM solver, the multinomial sampler, the constructor of flow
      tables, the elementary functions on irrational results, the
      column-name constants) are the fields of the classes [Elementary]
      and [External]. *)

From Stdlib Require Import QArith Qreduction Qabs Qpower.
From stdpp Require Import gmap strings list fin_maps.

Set Default Proof Using "Type".
Local Open Scope Q_scope.

(** ** Floating-point values *)

Inductive num : Type :=
| Fin (q : Q)
| PInf
| NInf
| NaN.

(** The elementary functions whose finite results are not rational in
    general: [x ** y] for a positive base and a non-integer exponent,
    [exp x] for a finite [x], and [log x] for a positive finite [x]. *)
Class Elementary := {
  pow_irr : Q → Q → Q;
  exp_fin : Q → Q;
  log_pos : Q → Q
}.

Module Num.

Definition zero : num := Fin 0.
Definition one : num := Fin 1.

Definition isnan (x : num) : bool :=
  match x with NaN => true | _ => false end.

Definition isinf (x : num) : bool :=
  match x with PInf | NInf => true | _ => false end.

Definition isfinite (x : num) : bool :=
  match x with Fin _ => true | _ => false end.

(** Sign of a rational: [Lt], [Eq] or [Gt] with respect to 0. *)
Definition sgn (q : Q) : comparison := q ?= 0.

Definition neg (x : num) : num :=
  match x with
  | Fin q => Fin (Qred (- q))
  | PInf => NInf
  | NInf => PInf
  | NaN => NaN
  end.

Definition add (x y : num) : num :=
  match x, y with
  | NaN, _ | _, NaN => NaN
  | Fin a, Fin b => Fin (Qred (a + b))
  | PInf, NInf | NInf, PInf => NaN
  | PInf, _ | _, PInf => PInf
  | NInf, _ | _, NInf => NInf
  end.

(** An infinity of the sign of [c] times the sign carried by [pos];
    the product with zero is undefined. *)
Definition signed_inf (c : comparison) (pos : bool) : num :=
  match c with
  | Eq => NaN
  | Gt => if pos then PInf else NInf
  | Lt => if pos then NInf else PInf
  end.

Definition mul (x y : num) : num :=
  match x, y with
  | NaN, _ | _, NaN => NaN
  | Fin a, Fin b => Fin (Qred (a * b))
  | Fin a, PInf | PInf, Fin a => signed_inf (sgn a) true
  | Fin a, NInf | NInf, Fin a => signed_inf (sgn a) false
  | PInf, PInf | NInf, NInf => PInf
  | PInf, NInf | NInf, PInf => NInf
  end.

(** Division with NumPy's treatment of a zero divisor: [0/0] is [NaN],
    [a/0] is an infinity of the sign of [a]; no exception is raised. *)
Definition div (x y : num) : num :=
  match x, y with
  | NaN, _ | _, NaN => NaN
  | Fin a, Fin b =>
      match sgn b with
      | Eq => match sgn a with Eq => NaN | Gt => PInf | Lt => NInf end
      | _ => Fin (Qred (a / b))
      end
  | Fin _, (PInf | NInf) => zero
  | PInf, Fin b => match sgn b with Lt => NInf | _ => PInf end
  | NInf, Fin b => match sgn b with Lt => PInf | _ => NInf end
  | (PInf | NInf), (PInf | NInf) => NaN
  end.

(** Comparisons; every comparison with [NaN] is false. *)
Definition lt (x y : num) : bool :=
  match x, y with
  | NaN, _ | _, NaN => false
  | Fin a, Fin b => match a ?= b with Lt => true | _ => false end
  | NInf, (Fin _ | PInf) => true
  | Fin _, PInf => true
  | _, _ => false
  end.

Definition le (x y : num) : bool :=
  match x, y with
  | NaN, _ | _, NaN => false
  | Fin a, Fin b => match a ?= b with Gt => false | _ => true end
  | NInf, _ => true
  | _, PInf => true
  | _, _ => false
  end.

Definition gt (x y : num) : bool := lt y x.

(** Whether a rational is an integer, and that integer. *)
Definition is_int (q : Q) : bool := Pos.eqb (Qden (Qred q)) 1.
Definition to_int (q : Q) : Z := Qnum (Qred q).

Definition abs_cmp_one (q : Q) : comparison := Qabs q ?= 1.

Section WithElementary.
Context `{Elementary}.

(** [np.exp]. *)
Definition exp (x : num) : num :=
  match x with
  | Fin q => Fin (Qred (exp_fin q))
  | PInf => PInf
  | NInf => zero
  | NaN => NaN
  end.

(** [np.log]: minus infinity at zero, [NaN] on the negatives. *)
Definition log (x : num) : num :=
  match x with
  | Fin q =>
      match sgn q with
      | Gt => Fin (Qred (log_pos q))
      | Eq => NInf
      | Lt => NaN
      end
  | PInf => PInf
  | NInf => NaN
  | NaN => NaN
  end.

(** [np.power] on floats, with the special cases of C's [pow]. An
    integer exponent is computed exactly. *)
Definition pow (x y : num) : num :=
  match x, y with
  | _, Fin b =>
      if is_int b then
        let n := to_int b in
        match x with
        | Fin a =>
            match n, sgn a with
            | Z0, _ => one
            | Zneg _, Eq => PInf
            | _, _ => Fin (Qred (Qpower a n))
            end
        | PInf =>
            match n with Z0 => one | Zpos _ => PInf | Zneg _ => zero end
        | NInf =>
            match n with
            | Z0 => one
            | Zpos _ => if Z.odd n then NInf else PInf
            | Zneg _ => zero
            end
        | NaN => match n with Z0 => one | _ => NaN end
        end
      else
        match x with
        | Fin a =>
            match sgn a with
            | Gt => Fin (Qred (pow_irr a b))
            | Eq => match sgn b with Lt => PInf | _ => zero end
            | Lt => NaN
            end
        | PInf | NInf => match sgn b with Lt => zero | _ => PInf end
        | NaN => NaN
        end
  | Fin a, PInf =>
      match abs_cmp_one a with Lt => zero | Eq => one | Gt => PInf end
  | Fin a, NInf =>
      match abs_cmp_one a with Lt => PInf | Eq => one | Gt => zero end
  | (PInf | NInf), PInf => PInf
  | (PInf | NInf), NInf => zero
  | Fin a, NaN => if Qeq_bool a 1 then one else NaN
  | _, NaN => NaN
  | NaN, _ => NaN
  end.
End WithElementary.

(** [np.sum] of a rank-1 array. *)
Definition sum (l : list num) : num := foldl add zero l.

End Num.

(** ** Exceptions and results *)

Inductive exn : Type :=
| KeyError
| IndexError
| TypeError
| ValueError
| AttributeError
| ExternalError.

Inductive result (A : Type) : Type :=
| Ok (a : A)
| Raise (e : exn).
Arguments Ok {A} a.
Arguments Raise {A} e.

(** ** NumPy arrays of rank 1 and 2 *)

Module Np.

Abbreviation vector := (list num).
Abbreviation matrix := (list (list num)).

Definition nrows (M : matrix) : nat := length M.
Definition ncols (M : matrix) : nat := length (hd [] M).

(** [M[i, j]]; the default is only reached outside the shape. *)
Definition entry (M : matrix) (i j : nat) : num :=
  default Num.zero (M !! i ≫= (.!! j)).

Definition row (M : matrix) (i : nat) : vector := default [] (M !! i).

(** The [r] by [c] array whose entry [(i, j)] is [g i j]. *)
Definition tabulate (r c : nat) (g : nat → nat → num) : matrix :=
  (λ i, g i <$> seq 0 c) <$> seq 0 r.

(** [np.zeros((r, c))]. *)
Definition zeros (r c : nat) : matrix := replicate r (replicate c Num.zero).

(** [distance_matrix[i, j] = d]; an index outside the shape raises. *)
Definition setitem (M : matrix) (i j : nat) (d : num) : result matrix :=
  match M !! i with
  | Some r =>
      if decide (j < length r)%nat then Ok (<[i := <[j := d]> r]> M)
      else Raise IndexError
  | None => Raise IndexError
  end.

(** A rank-1 array seen as one row. *)
Definition as_row (v : vector) : matrix := [v].

(** NumPy's broadcasting rule for one axis: equal extents, or one of
    them is 1 and is stretched. *)
Definition bdim (a b : nat) : option nat :=
  if decide (a = b) then Some a
  else if decide (a = 1%nat) then Some b
  else if decide (b = 1%nat) then Some a
  else None.

Definition bidx (extent i : nat) : nat :=
  if decide (extent = 1%nat) then 0%nat else i.

(** An elementwise binary operation on two rank-2 arrays, with
    broadcasting; incompatible shapes raise [ValueError]. *)
Definition broadcast2 (f : num → num → num) (A B : matrix) : result matrix :=
  match bdim (nrows A) (nrows B), bdim (ncols A) (ncols B) with
  | Some r, Some c =>
      Ok (tabulate r c (λ i j,
            f (entry A (bidx (nrows A) i) (bidx (ncols A) j))
              (entry B (bidx (nrows B) i) (bidx (ncols B) j))))
  | _, _ => Raise ValueError
  end.

(** The same for an array and [np.expand_dims(v, axis=1)], the column
    of a rank-1 array: the column has one row per cell of [v], and its
    extent along axis 1 is 1 also when [v] is empty. *)
Definition broadcast2_column (f : num → num → num) (A : matrix) (v : vector)
  : result matrix :=
  match bdim (nrows A) (length v), bdim (ncols A) 1 with
  | Some r, Some c =>
      Ok (tabulate r c (λ i j,
            f (entry A (bidx (nrows A) i) (bidx (ncols A) j))
              (default Num.zero (v !! bidx (length v) i))))
  | _, _ => Raise ValueError
  end.

(** An elementwise operation with a scalar. *)
Definition map2 (f : num → num) (M : matrix) : matrix :=
  (λ r : vector, f <$> r) <$> M.

(** [np.putmask(M, mask(M), v)] for an elementwise mask. *)
Definition putmask (mask : num → bool) (v : num) (M : matrix) : matrix :=
  map2 (λ x, if mask x then v else x) M.

Definition transpose (M : matrix) : matrix :=
  tabulate (ncols M) (nrows M) (λ i j, entry M j i).

Definition column (M : matrix) (j : nat) : vector :=
  (λ i, entry M i j) <$> seq 0 (nrows M).

(** [np.sum(M, axis=0)]: the sum of each column. *)
Definition sum_axis0 (M : matrix) : vector :=
  (λ j, Num.sum (column M j)) <$> seq 0 (ncols M).

(** [M.flatten()] and [np.sum(M)]. *)
Definition flatten (M : matrix) : vector := concat M.
Definition sum_all (M : matrix) : num := Num.sum (flatten M).

Fixpoint chunks (r c : nat) (v : vector) : matrix :=
  match r with
  | O => []
  | S r' => take c v :: chunks r' c (drop c v)
  end.

(** [np.reshape(v, (r, c))]. *)
Definition reshape (v : vector) (r c : nat) : result matrix :=
  if decide (length v = r * c)%nat then Ok (chunks r c v)
  else Raise ValueError.

(** The shape of a well-formed rank-2 array. *)
Definition has_shape (M : matrix) (r c : nat) : Prop :=
  length M = r ∧ Forall (λ v, length v = c) M.

End Np.

(** ** Tessellations and flow tables *)

(** A centroid [(lat, lng)], as [utils.get_geom_centroid] returns it. *)
Definition coord : Type := num * num.

(** The part of a GeoDataFrame the module reads: the centroid of each
    row's geometry (the module reads the geometry through the attribute
    [.geometry]), and the columns, which it reads by name.  A column
    holds floats, with [NaN] for a missing value, or labels: strings, as
    the identifiers are, which stand for every kind of cell that is not
    a number. *)
Record GeoDataFrame : Type := {
  geometry : list coord;
  id_columns : gmap string (list string);
  num_columns : gmap string (list num)
}.

(** [len(df)]. *)
Definition len (df : GeoDataFrame) : nat := length (geometry df).

(** Every column of a data frame has one cell per row. *)
Definition frame_wf (df : GeoDataFrame) : Prop :=
  (∀ c v, id_columns df !! c = Some v → length v = len df) ∧
  (∀ c v, num_columns df !! c = Some v → length v = len df).

(** [Series.fillna(0)]. *)
Definition fillna0 (v : list num) : list num :=
  (λ x, if Num.isnan x then Num.zero else x) <$> v.

(** [df.columns]: the names of the columns. *)
Definition columns (df : GeoDataFrame) : gset string :=
  dom (num_columns df) ∪ dom (id_columns df).

(** A cell of a column, and the values of a column, as the module gets
    them: floats or labels. *)
Inductive cell : Type :=
| Number (x : num)
| Label (s : string).

Inductive column : Type :=
| Numbers (v : list num)
| Labels (v : list string).

(** [df[c].fillna(0).values]: the lookup raises [KeyError] only when the
    frame has no column of that name; a column of identifiers is read as
    it is (it has no missing value to fill). *)
Definition column_values (df : GeoDataFrame) (c : string) : result column :=
  match num_columns df !! c with
  | Some v => Ok (Numbers (fillna0 v))
  | None =>
      match id_columns df !! c with
      | Some v => Ok (Labels v)
      | None => Raise KeyError
      end
  end.

(** [values[i]]. *)
Definition column_getitem (v : column) (i : nat) : result cell :=
  match v with
  | Numbers l =>
      match l !! i with Some x => Ok (Number x) | None => Raise IndexError end
  | Labels l =>
      match l !! i with Some t => Ok (Label t) | None => Raise IndexError end
  end.

(** [np.sum(values)]: the sum of no cell is 0, and [+] concatenates
    labels. *)
Definition column_sum (v : column) : cell :=
  match v with
  | Numbers l => Number (Num.sum l)
  | Labels [] => Number Num.zero
  | Labels (t :: l) => Label (foldl String.append t l)
  end.

(** [x <= 0] for a cell: a label is not ordered with a number. *)
Definition cell_le_zero (x : cell) : result bool :=
  match x with
  | Number a => Ok (Num.le a Num.zero)
  | Label _ => Raise TypeError
  end.

(** [df[c].values] for an identifier column. *)
Definition id_values (df : GeoDataFrame) (c : string) : result (list string) :=
  match id_columns df !! c with
  | Some v => Ok v
  | None => Raise KeyError
  end.

(** One row of a flow table: [constants.ORIGIN], [constants.DESTINATION]
    and [constants.FLOW]. *)
Record FlowRecord : Type := {
  origin : string;
  destination : string;
  flow : num
}.

(** A flow table on a tessellation, as [fit] reads it: its records, the
    name of its identifier column and its tessellation. *)
Record FlowDataFrame : Type := {
  flows : list FlowRecord;
  tile_id : string;
  tessellation : GeoDataFrame
}.

(** ** Collaborators outside the module *)

Class External := {
  (** [gislib.getDistance] *)
  distfunc : coord → coord → num;
  (** the state of [np.random] and [np.random.multinomial(n, pvals)] *)
  rng : Type;
  multinomial : rng → cell → list num → result (list num) * rng;
  (** [FlowDataFrame(output_list, origin=0, destination=1, flow=2,
      tile_id=c, tessellation=t)] *)
  new_FlowDataFrame :
    list FlowRecord → string → GeoDataFrame → result FlowDataFrame;
  (** [GLM(y, X, family=Poisson(link=log)).fit().params] *)
  GLM_fit : list num → list (list num) → result (list num);
  (** [constants.TILE_ID] *)
  TILE_ID : string
}.

(** ** The model object *)

(** The two module-level deterrence functions, as function objects. *)
Inductive deterrence : Type :=
| F_powerlaw
| F_exponential.

(** The attributes of a [Gravity] instance. An attribute that has not
    been assigned, or has been deleted, is [None]. *)
Record Gravity : Type := {
  _name : string;
  _deterrence_func_type : string;
  _deterrence_func_args : list num;
  _origin_exp : num;
  _destination_exp : num;
  _gravity_type : string;
  _deterrence_func : deterrence;
  _tile_id_column : option string;
  lats_lngs : option (list coord);
  weights : option column;
  tileid2index : option (gmap string nat);
  X : option (list (list num));
  y : option (list num)
}.

(** Attribute assignment [self.attr = v]; [None] deletes the attribute. *)
Definition set_deterrence_func_args (v : list num) (g : Gravity) : Gravity :=
  {| _name := _name g; _deterrence_func_type := _deterrence_func_type g;
     _deterrence_func_args := v; _origin_exp := _origin_exp g;
     _destination_exp := _destination_exp g; _gravity_type := _gravity_type g;
     _deterrence_func := _deterrence_func g;
     _tile_id_column := _tile_id_column g; lats_lngs := lats_lngs g;
     weights := weights g; tileid2index := tileid2index g; X := X g;
     y := y g |}.

Definition set_origin_exp (v : num) (g : Gravity) : Gravity :=
  {| _name := _name g; _deterrence_func_type := _deterrence_func_type g;
     _deterrence_func_args := _deterrence_func_args g; _origin_exp := v;
     _destination_exp := _destination_exp g; _gravity_type := _gravity_type g;
     _deterrence_func := _deterrence_func g;
     _tile_id_column := _tile_id_column g; lats_lngs := lats_lngs g;
     weights := weights g; tileid2index := tileid2index g; X := X g;
     y := y g |}.

Definition set_destination_exp (v : num) (g : Gravity) : Gravity :=
  {| _name := _name g; _deterrence_func_type := _deterrence_func_type g;
     _deterrence_func_args := _deterrence_func_args g;
     _origin_exp := _origin_exp g; _destination_exp := v;
     _gravity_type := _gravity_type g; _deterrence_func := _deterrence_func g;
     _tile_id_column := _tile_id_column g; lats_lngs := lats_lngs g;
     weights := weights g; tileid2index := tileid2index g; X := X g;
     y := y g |}.

Definition set_tile_id_column (v : option string) (g : Gravity) : Gravity :=
  {| _name := _name g; _deterrence_func_type := _deterrence_func_type g;
     _deterrence_func_args := _deterrence_func_args g;
     _origin_exp := _origin_exp g; _destination_exp := _destination_exp g;
     _gravity_type := _gravity_type g; _deterrence_func := _deterrence_func g;
     _tile_id_column := v; lats_lngs := lats_lngs g; weights := weights g;
     tileid2index := tileid2index g; X := X g; y := y g |}.

Definition set_lats_lngs (v : option (list coord)) (g : Gravity) : Gravity :=
  {| _name := _name g; _deterrence_func_type := _deterrence_func_type g;
     _deterrence_func_args := _deterrence_func_args g;
     _origin_exp := _origin_exp g; _destination_exp := _destination_exp g;
     _gravity_type := _gravity_type g; _deterrence_func := _deterrence_func g;
     _tile_id_column := _tile_id_column g; lats_lngs := v;
     weights := weights g; tileid2index := tileid2index g; X := X g;
     y := y g |}.

Definition set_weights (v : option column) (g : Gravity) : Gravity :=
  {| _name := _name g; _deterrence_func_type := _deterrence_func_type g;
     _deterrence_func_args := _deterrence_func_args g;
     _origin_exp := _origin_exp g; _destination_exp := _destination_exp g;
     _gravity_type := _gravity_type g; _deterrence_func := _deterrence_func g;
     _tile_id_column := _tile_id_column g; lats_lngs := lats_lngs g;
     weights := v; tileid2index := tileid2index g; X := X g; y := y g |}.

Definition set_tileid2index (v : option (gmap string nat)) (g : Gravity) : Gravity :=
  {| _name := _name g; _deterrence_func_type := _deterrence_func_type g;
     _deterrence_func_args := _deterrence_func_args g;
     _origin_exp := _origin_exp g; _destination_exp := _destination_exp g;
     _gravity_type := _gravity_type g; _deterrence_func := _deterrence_func g;
     _tile_id_column := _tile_id_column g; lats_lngs := lats_lngs g;
     weights := weights g; tileid2index := v; X := X g; y := y g |}.

Definition set_X (v : option (list (list num))) (g : Gravity) : Gravity :=
  {| _name := _name g; _deterrence_func_type := _deterrence_func_type g;
     _deterrence_func_args := _deterrence_func_args g;
     _origin_exp := _origin_exp g; _destination_exp := _destination_exp g;
     _gravity_type := _gravity_type g; _deterrence_func := _deterrence_func g;
     _tile_id_column := _tile_id_column g; lats_lngs := lats_lngs g;
     weights := weights g; tileid2index := tileid2index g; X := v; y := y g |}.

Definition set_y (v : option (list num)) (g : Gravity) : Gravity :=
  {| _name := _name g; _deterrence_func_type := _deterrence_func_type g;
     _deterrence_func_args := _deterrence_func_args g;
     _origin_exp := _origin_exp g; _destination_exp := _destination_exp g;
     _gravity_type := _gravity_type g; _deterrence_func := _deterrence_func g;
     _tile_id_column := _tile_id_column g; lats_lngs := lats_lngs g;
     weights := weights g; tileid2index := tileid2index g; X := X g; y := v |}.

(** What a run leaves on the console, and the steps it enters. *)
Inductive step : Type :=
| DistanceMatrix
| GravityScore
| Sampling
| Regression.

Inductive event : Type :=
| Printed (msg : string)
| Entered (s : step).

Section Monad.
Context `{External}.

Record World : Type := {
  self : Gravity;
  trace : list event;
  random : rng
}.

(** Computations that read and update the world and may raise. An
    exception keeps the updates made before it. *)
Definition M (A : Type) : Type := World → result A * World.

Definition ret {A} (a : A) : M A := λ w, (Ok a, w).

Definition bind {A B} (m : M A) (f : A → M B) : M B :=
  λ w, match m w with
       | (Ok a, w') => f a w'
       | (Raise e, w') => (Raise e, w')
       end.

Definition raise {A} (e : exn) : M A := λ w, (Raise e, w).

Definition lift {A} (r : result A) : M A := λ w, (r, w).

Definition get_self : M Gravity := λ w, (Ok (self w), w).

Definition modify_self (f : Gravity → Gravity) : M unit :=
  λ w, (Ok tt, {| self := f (self w); trace := trace w; random := random w |}).

Definition emit (e : event) : M unit :=
  λ w, (Ok tt, {| self := self w; trace := trace w ++ [e]; random := random w |}).

(** [print(msg)]. *)
Definition print (msg : string) : M unit := emit (Printed msg).

(** Reading an attribute that may be missing. *)
Definition getattr {A} (proj : Gravity → option A) : M A :=
  λ w, match proj (self w) with
       | Some a => (Ok a, w)
       | None => (Raise AttributeError, w)
       end.

(** [np.random.multinomial(n, pvals)]. *)
Definition draw (n : cell) (pvals : list num) : M (list num) :=
  λ w, let '(r, g) := multinomial (random w) n pvals in
       (r, {| self := self w; trace := trace w ++ [Entered Sampling]; random := g |}).

(** [for x in xs: body x]. *)
Fixpoint for_each {A} (xs : list A) (body : A → M unit) : M unit :=
  match xs with
  | [] => ret tt
  | x :: xs' => bind (body x) (λ _, for_each xs' body)
  end.

(** [[body x for x in xs]]. *)
Fixpoint collect {A B} (xs : list A) (body : A → M B) : M (list B) :=
  match xs with
  | [] => ret []
  | x :: xs' => bind (body x) (λ b, bind (collect xs' body) (λ bs, ret (b :: bs)))
  end.
End Monad.

Notation "x <- m ;; k" := (bind m (λ x, k))
  (at level 100, m at next level, right associativity, only parsing).
Notation "m ;;; k" := (bind m (λ _, k))
  (at level 100, right associativity, only parsing).

(** Sequencing of pure computations that may raise. *)
Definition rbind {A B} (r : result A) (f : A → result B) : result B :=
  match r with
  | Ok a => f a
  | Raise e => Raise e
  end.

(** A [for] loop over [xs] that threads the value [s]. *)
Fixpoint rfold {A S} (f : S → A → result S) (s : S) (xs : list A) : result S :=
  match xs with
  | [] => Ok s
  | x :: xs' => rbind (f s x) (λ s', rfold f s' xs')
  end.

(** [range(a, b)]. *)
Definition range (a b : nat) : list nat := seq a (b - a).

(** ** Module-level functions *)

(** [ci(i, number_locs)]: a list of [number_locs] zeros with a one at
    index [i]; the assignment [c[i] = 1.] raises outside the list. *)
Definition ci (i number_locs : nat) : result (list num) :=
  let c := replicate number_locs Num.zero in
  if decide (i < number_locs)%nat then Ok (<[i := Num.one]> c)
  else Raise IndexError.

Section Deterrence.
Context `{Elementary}.

(** [np.exp(- x / R)], elementwise. *)
Definition exponential_deterrence_func (x : Np.matrix) (R : num) : Np.matrix :=
  Np.map2 (λ d, Num.exp (Num.div (Num.neg d) R)) x.

(** [np.power(x, exponent)], elementwise. *)
Definition powerlaw_deterrence_func (x : Np.matrix) (exponent : num) : Np.matrix :=
  Np.map2 (λ d, Num.pow d exponent) x.

(** The value of the deterrence function at one distance. *)
Definition deterrence_at (f : deterrence) (d a : num) : num :=
  match f with
  | F_powerlaw => Num.pow d a
  | F_exponential => Num.exp (Num.div (Num.neg d) a)
  end.

(** [f(x, *args)]: both functions take exactly one more argument. *)
Definition call_deterrence (f : deterrence) (x : Np.matrix) (args : list num)
  : result Np.matrix :=
  match args with
  | [a] =>
      Ok (match f with
          | F_powerlaw => powerlaw_deterrence_func x a
          | F_exponential => exponential_deterrence_func x a
          end)
  | _ => Raise TypeError
  end.
End Deterrence.

Section DistanceMatrix.
Context `{External}.

(** The array under construction and the cells assigned so far. *)
Definition dm_state : Type := Np.matrix * list (nat * nat).

(** The body of the inner loop: one distance, two assignments. *)
Definition dm_inner (coordinates : list coord) (id_i : nat) (c_i : coord)
    (st : dm_state) (id_j : nat) : result dm_state :=
  match coordinates !! id_j with
  | None => Raise IndexError
  | Some c_j =>
      let distance := distfunc c_i c_j in
      rbind (Np.setitem st.1 id_i id_j distance) (λ D1,
      rbind (Np.setitem D1 id_j id_i distance) (λ D2,
      Ok (D2, st.2 ++ [(id_i, id_j); (id_j, id_i)])))
  end.

(** The body of the outer loop. *)
Definition dm_outer (coordinates : list coord) (n : nat)
    (st : dm_state) (id_i : nat) : result dm_state :=
  match coordinates !! id_i with
  | None => Raise IndexError
  | Some c_i => rfold (dm_inner coordinates id_i c_i) st (range (id_i + 1) n)
  end.

Definition compute_distance_matrix_cells (spatial_tessellation : GeoDataFrame)
    (origins : list nat) : result dm_state :=
  let coordinates := geometry spatial_tessellation in
  let n := len spatial_tessellation in
  let distance_matrix := Np.zeros n n in
  rfold (dm_outer coordinates n) (distance_matrix, []) origins.

(** [compute_distance_matrix(spatial_tessellation, origins)]; the progress
    bar of [tqdm] is left out. *)
Definition compute_distance_matrix (spatial_tessellation : GeoDataFrame)
    (origins : list nat) : result Np.matrix :=
  rbind (compute_distance_matrix_cells spatial_tessellation origins)
        (λ st, Ok st.1).

(** The cells it assigns, in order. *)
Definition distance_matrix_writes (spatial_tessellation : GeoDataFrame)
    (origins : list nat) : list (nat * nat) :=
  match compute_distance_matrix_cells spatial_tessellation origins with
  | Ok st => st.2
  | Raise _ => []
  end.
End DistanceMatrix.

(** ** The class [Gravity] *)

(** The double quote and the line feed, for the printed messages. *)
Definition dquote : string := String (Ascii.ascii_of_nat 34) EmptyString.
Definition newline : string := String (Ascii.ascii_of_nat 10) EmptyString.

Definition deterrence_warning (kind : string) : string :=
  "Deterrence function type " +:+ dquote +:+ kind +:+ dquote +:+
  " not available. Power law will be used." +:+ newline +:+
  "Available deterrence functions are [power_law, exponential]".

Definition format_warning (out_format : string) : string :=
  "Output format " +:+ dquote +:+ out_format +:+ dquote +:+
  " not available. Flows will be used." +:+ newline +:+
  "Available output formats are [flows, probabilities]".

Definition missing_warning (tileid : string) : string :=
  "Missing information for location " +:+ dquote +:+ tileid +:+ dquote +:+
  " in spatial tessellation. Skipping ...".

(** [Gravity.__init__]: the new instance and what the constructor prints. *)
Definition __init__ (deterrence_func_type : string)
    (deterrence_func_args : list num) (origin_exp destination_exp : num)
    (gravity_type name : string) : Gravity * list event :=
  let attrs f :=
    {| _name := name;
       _deterrence_func_type := deterrence_func_type;
       _deterrence_func_args := deterrence_func_args;
       _origin_exp := origin_exp;
       _destination_exp := destination_exp;
       _gravity_type := gravity_type;
       _deterrence_func := f;
       _tile_id_column := None;
       lats_lngs := None; weights := None; tileid2index := None;
       X := None; y := None |} in
  if decide (deterrence_func_type = "power_law") then (attrs F_powerlaw, [])
  else if decide (deterrence_func_type = "exponential") then
    (attrs F_exponential, [])
  else
    (attrs F_powerlaw, [Printed (deterrence_warning deterrence_func_type)]).

(** The defaults of the constructor's keyword arguments. *)
Definition default_gravity : Gravity * list event :=
  __init__ "power_law" [Fin (-2)] Num.one Num.one "singly constrained"
           "Gravity model".

(** Whether [self._gravity_type == 'globally constrained']. *)
Definition globally (g : Gravity) : bool :=
  bool_decide (_gravity_type g = "globally constrained").

Section Score.
Context `{Elementary}.

(** [Gravity.compute_gravity_score]. *)
Definition compute_gravity_score (g : Gravity) (distance_matrix : Np.matrix)
    (relevances_orig relevances_dest : Np.vector) : result Np.matrix :=
  rbind (call_deterrence (_deterrence_func g) distance_matrix
                         (_deterrence_func_args g)) (λ trip_probs_matrix,
  rbind (Np.broadcast2 Num.mul trip_probs_matrix
           (Np.as_row ((λ r, Num.pow r (_destination_exp g)) <$> relevances_dest)))
        (λ t,
  rbind (Np.broadcast2_column Num.mul t
           ((λ r, Num.pow r (_origin_exp g)) <$> relevances_orig))
        (λ trip_probs_matrix,
  let trip_probs_matrix := Np.putmask Num.isnan Num.zero trip_probs_matrix in
  let trip_probs_matrix := Np.putmask Num.isinf Num.zero trip_probs_matrix in
  Ok trip_probs_matrix))).

(** [self.compute_gravity_score(distance_matrix, relevances, relevances)]
    on the values of a column, as [generate] calls it.  On labels the
    deterrence function is applied first and then the power
    [relevances_dest ** self.destination_exp] (for a column without
    cells, [np.isnan] on the array of objects) raises [TypeError]. *)
Definition compute_gravity_score_of (g : Gravity) (distance_matrix : Np.matrix)
    (relevances : column) : result Np.matrix :=
  match relevances with
  | Numbers r => compute_gravity_score g distance_matrix r r
  | Labels _ =>
      rbind (call_deterrence (_deterrence_func g) distance_matrix
                             (_deterrence_func_args g))
            (λ _, Raise TypeError)
  end.
End Score.

(** [list[i]] for a list or an array, raising outside of it. *)
Definition getitem {A} (l : list A) (i : nat) : result A :=
  match l !! i with
  | Some a => Ok a
  | None => Raise IndexError
  end.

(** [index2tileid[i]] for the dictionary built from [enumerate(ids)]. *)
Definition index2tileid (ids : list string) (i : nat) : result string :=
  match ids !! i with
  | Some t => Ok t
  | None => Raise KeyError
  end.

(** The records of one origin in [_from_matrix_to_flowdf]: the entries
    of its row that are [> 0.], in column order. *)
Definition flowdf_row (ids : list string) (flow_matrix : Np.matrix) (i : nat)
    : result (list FlowRecord) :=
  rbind (getitem flow_matrix i) (λ r,
  rfold (λ acc jf,
           if Num.gt jf.2 Num.zero then
             rbind (index2tileid ids i) (λ o,
             rbind (index2tileid ids jf.1) (λ d,
             Ok (acc ++ [{| origin := o; destination := d; flow := jf.2 |}])))
           else Ok acc)
        [] (imap pair r)).

Definition output_list (ids : list string) (flow_matrix : Np.matrix)
    (origins : list nat) : result (list FlowRecord) :=
  rfold (λ acc i, rbind (flowdf_row ids flow_matrix i) (λ rs, Ok (acc ++ rs)))
        [] origins.

(** [dict([(tileid, i) for i, tileid in enumerate(ids)])]: a later pair
    replaces an earlier one with the same key. *)
Definition tileid_index (ids : list string) : gmap string nat :=
  foldl (λ m it, <[it.2 := it.1]> m) ∅ (imap pair ids).

(** [params[-k]] for [k] = 1, 2. *)
Definition getitem_back {A} (l : list A) (k : nat) : result A :=
  if decide (k ≤ length l)%nat then getitem l (length l - k) else Raise IndexError.

Section Methods.
Context `{Elementary} `{External}.

(** [Gravity._from_matrix_to_flowdf]. *)
Definition _from_matrix_to_flowdf (flow_matrix : Np.matrix)
    (origins : list nat) (spatial_tessellation : GeoDataFrame)
  : M FlowDataFrame :=
  tile_id_column <- getattr _tile_id_column ;;
  ids <- lift (id_values spatial_tessellation tile_id_column) ;;
  records <- lift (output_list ids flow_matrix origins) ;;
  lift (new_FlowDataFrame records tile_id_column spatial_tessellation).

(** The normalisation of the singly constrained branch:
    [np.transpose(P / np.sum(P, axis=0))]. *)
Definition singly_normalize (trip_probs_matrix : Np.matrix) : result Np.matrix :=
  rbind (Np.broadcast2 Num.div trip_probs_matrix
           (Np.as_row (Np.sum_axis0 trip_probs_matrix)))
        (λ q, Ok (Np.transpose q)).

(** The normalisation of the globally constrained branch:
    [P /= np.sum(P)]. *)
Definition globally_normalize (trip_probs_matrix : Np.matrix) : Np.matrix :=
  let total := Np.sum_all trip_probs_matrix in
  Np.map2 (λ x, Num.div x total) trip_probs_matrix.

(** The output format after the check of its value. *)
Definition effective_format (out_format : string) : string :=
  if bool_decide (out_format ∈ ["flows"; "probabilities"]) then out_format
  else "flows".

(** [Gravity.generate]. *)
Definition generate (spatial_tessellation : GeoDataFrame)
    (tile_id_column tot_outflows_column relevance_column out_format : string)
  : M FlowDataFrame :=
  let n_locs := len spatial_tessellation in
  relevances <- lift (column_values spatial_tessellation relevance_column) ;;
  modify_self (set_tile_id_column (Some tile_id_column)) ;;;
  out_format <-
    (if bool_decide (out_format ∈ ["flows"; "probabilities"])
     then ret out_format
     else print (format_warning out_format) ;;; ret "flows") ;;
  tot_outflows <-
    (if bool_decide (out_format = "flows") then
       if bool_decide (tot_outflows_column ∉ columns spatial_tessellation)
       then raise KeyError
       else lift (column_values spatial_tessellation tot_outflows_column)
     else ret (Numbers [])) ;;
  let origins := seq 0 n_locs in
  emit (Entered DistanceMatrix) ;;;
  distance_matrix <- lift (compute_distance_matrix spatial_tessellation origins) ;;
  emit (Entered GravityScore) ;;;
  g <- get_self ;;
  trip_probs_matrix <-
    lift (compute_gravity_score_of g distance_matrix relevances) ;;
  if globally g then
    let trip_probs_matrix := globally_normalize trip_probs_matrix in
    if bool_decide (out_format = "flows") then
      sample <- draw (column_sum tot_outflows) (Np.flatten trip_probs_matrix) ;;
      od_matrix <- lift (Np.reshape sample n_locs n_locs) ;;
      _from_matrix_to_flowdf od_matrix origins spatial_tessellation
    else
      _from_matrix_to_flowdf trip_probs_matrix origins spatial_tessellation
  else
    trip_probs_matrix <- lift (singly_normalize trip_probs_matrix) ;;
    if bool_decide (out_format = "flows") then
      od_matrix <-
        collect origins (λ i,
          n_i <- lift (column_getitem tot_outflows i) ;;
          p_i <- lift (getitem trip_probs_matrix i) ;;
          draw n_i p_i) ;;
      _from_matrix_to_flowdf od_matrix origins spatial_tessellation
    else
      _from_matrix_to_flowdf trip_probs_matrix origins spatial_tessellation.

(** [np.log(x)] for a cell; it is not defined on a label. *)
Definition cell_log (x : cell) : result num :=
  match x with
  | Number a => Ok (Num.log a)
  | Label _ => Raise TypeError
  end.

(** The last two columns of a design-matrix row and the term in front
    of them; [np.log] and the unary minus are the scalar ones. *)
Definition deterrence_term (g : Gravity) (dist : num) : num :=
  if bool_decide (_deterrence_func_type g = "exponential") then Num.neg dist
  else Num.log dist.

(** [Gravity._update_training_set]. *)
Definition _update_training_set (flow_example : FlowRecord) : M unit :=
  let id_origin := origin flow_example in
  let id_destination := destination flow_example in
  let trips := flow flow_example in
  if bool_decide (id_origin = id_destination) then ret tt else
  lats_lngs_ <- getattr lats_lngs ;;
  index <- getattr tileid2index ;;
  match index !! id_origin with
  | None => print (missing_warning id_origin)
  | Some i_origin =>
    coords_origin <- lift (getitem lats_lngs_ i_origin) ;;
    weights_ <- getattr weights ;;
    weight_origin <- lift (column_getitem weights_ i_origin) ;;
    match index !! id_destination with
    | None => print (missing_warning id_destination)
    | Some i_destination =>
      coords_destination <- lift (getitem lats_lngs_ i_destination) ;;
      weight_destination <- lift (column_getitem weights_ i_destination) ;;
      nonpositive <- lift (cell_le_zero weight_destination) ;;
      if (nonpositive : bool) then ret tt else
      let dist := distfunc coords_origin coords_destination in
      g <- get_self ;;
      sc_vars <-
        (if globally g then
           log_origin <- lift (cell_log weight_origin) ;; ret [log_origin]
         else lift (ci i_origin (size index))) ;;
      X_ <- getattr X ;;
      log_destination <- lift (cell_log weight_destination) ;;
      modify_self (set_X (Some (X_ ++
        [[Num.one] ++ sc_vars ++
         [log_destination; deterrence_term g dist]]))) ;;;
      y_ <- getattr y ;;
      modify_self (set_y (Some (y_ ++ [trips])))
    end
  end.

(** [Gravity.fit]; [flow_df.apply(..., axis=1)] calls its function once
    for each row of the flow table, in the order of the table. *)
Definition fit (flow_df : FlowDataFrame) (relevance_column : string) : M unit :=
  modify_self (set_lats_lngs (Some (geometry (tessellation flow_df)))) ;;;
  w <- lift (column_values (tessellation flow_df) relevance_column) ;;
  modify_self (set_weights (Some w)) ;;;
  ids <- lift (id_values (tessellation flow_df) TILE_ID) ;;
  modify_self (set_tileid2index (Some (tileid_index ids))) ;;;
  modify_self (set_X (Some [])) ;;;
  modify_self (set_y (Some [])) ;;;
  for_each (flows flow_df) _update_training_set ;;;
  emit (Entered Regression) ;;;
  y_ <- getattr y ;;
  X_ <- getattr X ;;
  params <- lift (GLM_fit y_ X_) ;;
  g <- get_self ;;
  (if globally g then
     p1 <- lift (getitem params 1) ;;
     modify_self (set_origin_exp p1) ;;;
     p2 <- lift (getitem params 2) ;;
     modify_self (set_destination_exp p2) ;;;
     p3 <- lift (getitem params 3) ;;
     modify_self (set_deterrence_func_args [p3])
   else
     modify_self (set_origin_exp Num.one) ;;;
     p2 <- lift (getitem_back params 2) ;;
     modify_self (set_destination_exp p2) ;;;
     p1 <- lift (getitem_back params 1) ;;
     modify_self (set_deterrence_func_args [p1])) ;;;
  modify_self (set_X None) ;;;
  modify_self (set_y None).
End Methods.

(** ** Sample collaborators

    Instances on which the definitions can be evaluated.  The theorems
    below hold for every instance; these are used where a statement is
    evaluated on concrete data. *)

Module Sample.

(** Rational stand-ins for the irrational results: a truncated series
    for [exp], the first term of the series of [log] around 1, and the
    base itself for a non-integer power. *)
Definition elementary : Elementary :=
  {| pow_irr := λ a _, a;
     exp_fin := λ q, 1 + q + q * q / 2;
     log_pos := λ q, q - 1 |}.

(** The taxicab distance between two centroids with finite coordinates. *)
Definition taxicab (p q : coord) : num :=
  match p, q with
  | (Fin a, Fin b), (Fin c, Fin d) => Fin (Qred (Qabs (a - c) + Qabs (b - d)))
  | _, _ => NaN
  end.

(** A sampler that returns the expected counts [n * pvals] for a number
    [n] of trials, a solver that returns the coefficients 1, 2, 3, ...
    for a design matrix with at least one row, and a constructor of flow
    tables that reads the width of the first record, so that it raises
    on an empty list, and stores what it is given. *)
Definition external : External :=
  {| distfunc := taxicab;
     rng := nat;
     multinomial := λ g n pvals,
       match n with
       | Number x => (Ok (Num.mul x <$> pvals), S g)
       | Label _ => (Raise TypeError, g)
       end;
     new_FlowDataFrame := λ records c t,
       match records with
       | [] => Raise IndexError
       | _ => Ok {| flows := records; tile_id := c; tessellation := t |}
       end;
     GLM_fit := λ y_ X_,
       match X_ with
       | [] => Raise ValueError
       | r :: _ => Ok (imap (λ i _, Fin (inject_Z (Z.of_nat (S i)))) r)
       end;
     TILE_ID := "tile_ID" |}.

(** Three locations at taxicab distances 2, 4 and 3, with relevances
    10, 20 and 5. *)
Definition tess3 : GeoDataFrame :=
  {| geometry := [(Fin 0, Fin 0); (Fin 2, Fin 0); (Fin (3 # 2), Fin (5 # 2))];
     id_columns := {[ "tile_ID" := ["a"; "b"; "c"] ]};
     num_columns := {[ "relevance" := [Fin 10; Fin 20; Fin 5] ]} ∪
                    {[ "tot_outflow" := [Fin 100; Fin 50; Fin 10] ]} |}.

Definition world0 (g : Gravity) : @World external :=
  @Build_World external g [] O.

End Sample.

(** ** Derived forms used in the statements *)

Section Derived.
Context `{Elementary} `{External}.

(** The body of [generate] after the checks of its arguments, from the
    comment [# the origin locations are all locations] on. *)
Definition generate_steps (spatial_tessellation : GeoDataFrame)
    (relevances tot_outflows : column) (out_format : string)
  : M FlowDataFrame :=
  let n_locs := len spatial_tessellation in
  let origins := seq 0 n_locs in
  emit (Entered DistanceMatrix) ;;;
  distance_matrix <- lift (compute_distance_matrix spatial_tessellation origins) ;;
  emit (Entered GravityScore) ;;;
  g <- get_self ;;
  trip_probs_matrix <-
    lift (compute_gravity_score_of g distance_matrix relevances) ;;
  if globally g then
    let trip_probs_matrix := globally_normalize trip_probs_matrix in
    if bool_decide (out_format = "flows") then
      sample <- draw (column_sum tot_outflows) (Np.flatten trip_probs_matrix) ;;
      od_matrix <- lift (Np.reshape sample n_locs n_locs) ;;
      _from_matrix_to_flowdf od_matrix origins spatial_tessellation
    else
      _from_matrix_to_flowdf trip_probs_matrix origins spatial_tessellation
  else
    trip_probs_matrix <- lift (singly_normalize trip_probs_matrix) ;;
    if bool_decide (out_format = "flows") then
      od_matrix <-
        collect origins (λ i,
          n_i <- lift (column_getitem tot_outflows i) ;;
          p_i <- lift (getitem trip_probs_matrix i) ;;
          draw n_i p_i) ;;
      _from_matrix_to_flowdf od_matrix origins spatial_tessellation
    else
      _from_matrix_to_flowdf trip_probs_matrix origins spatial_tessellation.

(** The raw gravity scores that [generate] computes for a tessellation:
    the distance matrix of all locations, scored with the relevances
    both as origins and as destinations. *)
Definition gravity_scores (g : Gravity) (spatial_tessellation : GeoDataFrame)
    (relevances : Np.vector) : result Np.matrix :=
  rbind (compute_distance_matrix spatial_tessellation
           (seq 0 (len spatial_tessellation))) (λ distance_matrix,
  compute_gravity_score g distance_matrix relevances relevances).

(** The events a computation adds to the trace of [w]. *)
Definition new_events {A} (m : M A) (w : World) : list event :=
  drop (length (trace w)) (trace (m w).2).

(** [m] raises from [w] before entering any of the computing steps. *)
Definition raises_before_computing {A} (m : M A) (w : World) : Prop :=
  (∃ e, (m w).1 = Raise e) ∧ ∀ s, Entered s ∉ new_events m w.

(** A computation that only appends to the trace. *)
Definition extends_trace {A} (m : M A) : Prop :=
  ∀ w, trace w `prefix_of` trace (m w).2.

(** A computation that leaves the model object as it is. *)
Definition preserves_self {A} (m : M A) : Prop :=
  ∀ w, self (m w).2 = self w.

(** The world after one more event. *)
Definition with_event (e : event) (w : World) : World :=
  {| self := self w; trace := trace w ++ [e]; random := random w |}.
End Derived.

Section Invariants.
Context `{External}.

(** A computation that maintains a property of the model object. *)
Definition keeps {A} (P : Gravity → Prop) (m : M A) : Prop :=
  ∀ w, P (self w) → P (self (m w).2).

(** [g] is [g0] up to the training arrays [X] and [y]. *)
Definition training_frame (g0 g : Gravity) : Prop :=
  g = set_X (X g) (set_y (y g) g0).
End Invariants.

Section Calibration.
Context `{Elementary} `{External}.

(** The first part of [fit], up to the call of the solver: the
    response vector and the design matrix handed to [GLM]. *)
Definition calibration_data (flow_df : FlowDataFrame) (relevance_column : string)
  : M (list num * list (list num)) :=
  modify_self (set_lats_lngs (Some (geometry (tessellation flow_df)))) ;;;
  w <- lift (column_values (tessellation flow_df) relevance_column) ;;
  modify_self (set_weights (Some w)) ;;;
  ids <- lift (id_values (tessellation flow_df) TILE_ID) ;;
  modify_self (set_tileid2index (Some (tileid_index ids))) ;;;
  modify_self (set_X (Some [])) ;;;
  modify_self (set_y (Some [])) ;;;
  for_each (flows flow_df) _update_training_set ;;;
  emit (Entered Regression) ;;;
  y_ <- getattr y ;;
  X_ <- getattr X ;;
  ret (y_, X_).
End Calibration.

(** How many times [x] occurs in [l]. *)
Definition occurrences {A} `{EqDecision A} (x : A) (l : list A) : nat :=
  length (filter (λ y, y = x) l).

(** The cells assigned while the rows of [origins] are filled, for [n]
    locations: for each origin [i] and each [j] in [range(i + 1, n)], the
    cell [(i, j)] and then the cell [(j, i)]. *)
Definition cells_of_origins (n : nat) (origins : list nat) : list (nat * nat) :=
  origins ≫= λ i, range (i + 1) n ≫= λ j, [(i, j); (j, i)].

(** What the distance matrix satisfies all along its construction: it is
    square, symmetric and zero on its diagonal. *)
Definition dm_inv (n : nat) (D : Np.matrix) : Prop :=
  Np.has_shape D n n ∧
  (∀ a b, Np.entry D a b = Np.entry D b a) ∧
  (∀ a, Np.entry D a a = Num.zero).

Section DuringFit.
Context `{External}.

(** The state of the model object while [fit] runs over the flow
    records of a table on the tessellation [tess]: the three arrays set
    from the tessellation, whose relevance column holds [v] and whose
    [TILE_ID] column holds [ids], and the training set built so far. *)
Definition calibrating (tess : GeoDataFrame) (v : list num) (ids : list string)
    (X_ : list (list num)) (y_ : list num) (w : World) : Prop :=
  lats_lngs (self w) = Some (geometry tess) ∧
  weights (self w) = Some (Numbers (fillna0 v)) ∧
  tileid2index (self w) = Some (tileid_index ids) ∧
  X (self w) = Some X_ ∧
  y (self w) = Some y_.

(** A record is skipped: the call returns normally and leaves the model
    object, so the training set, as it was. *)
Definition skipped (run : World → result unit * World) (w : World) : Prop :=
  ∃ w', run w = (Ok tt, w') ∧ self w' = self w.
End DuringFit.

(** The records that [_from_matrix_to_flowdf] makes of row [i] of a
    matrix: its entries that are [> 0.], with the identifiers of the
    origin and of the destination. *)
Definition positive_records (ids : list string) (flow_matrix : Np.matrix) (i : nat)
    : list FlowRecord :=
  imap pair (Np.row flow_matrix i) ≫= λ jf,
    if Num.gt jf.2 Num.zero then
      [{| origin := default EmptyString (ids !! i);
          destination := default EmptyString (ids !! jf.1);
          flow := jf.2 |}]
    else [].

(** The sum of the scores of origin [i] over all destinations. *)
Definition row_sum (P : Np.matrix) (i : nat) : num := Num.sum (Np.row P i).

(** [R] is the row-wise normalisation of [P] for [n] locations, as the
    documentation describes the singly constrained probabilities: a row
    of [P] with a positive sum is divided by its sum, a row of zeros
    stays a row of zeros. *)
Definition row_normalized (n : nat) (P R : Np.matrix) : Prop :=
  ∀ i, (i < n)%nat →
    (Num.gt (row_sum P i) Num.zero = true →
       ∀ j, (j < n)%nat → Np.entry R i j = Num.div (Np.entry P i j) (row_sum P i)) ∧
    ((∀ j, (j < n)%nat → Np.entry P i j = Num.zero) →
       ∀ j, (j < n)%nat → Np.entry R i j = Num.zero).

(** The sum of a list of rationals. *)
Definition qsum (qs : list Q) : Q := foldr Qplus 0 qs.

(** The rational value of a finite float. *)
Definition to_Q (x : num) : Q :=
  match x with Fin q => q | _ => 0 end.

Module SampleData.
Import Sample.

(** The default model, and a singly constrained model whose destination
    exponent is 2 while its origin exponent is 1. *)
Definition gravity0 : Gravity := default_gravity.1.
Definition gravity12 : Gravity :=
  (__init__ "power_law" [Fin (-2)] Num.one (Fin 2) "singly constrained"
            "Gravity model").1.
Definition gravity_global : Gravity :=
  (__init__ "exponential" [Fin 1] Num.one Num.one "globally constrained"
            "Gravity model").1.

(** The three locations of [tess3] without a relevance column. *)
Definition tess_no_relevance : GeoDataFrame :=
  {| geometry := geometry tess3;
     id_columns := id_columns tess3;
     num_columns := {[ "tot_outflow" := [Fin 100; Fin 50; Fin 10] ]} |}.

(** The three locations of [tess3], the first with relevance 0. *)
Definition tess_zero_origin : GeoDataFrame :=
  {| geometry := geometry tess3;
     id_columns := id_columns tess3;
     num_columns := {[ "relevance" := [Fin 0; Fin 20; Fin 5] ]} |}.

(** The identifiers of a table in which "a" names two locations. *)
Definition repeated_ids : list string := ["a"; "a"; "b"].

(** A flow table on [tess3]: a valid record, a self-loop, a record with
    an unknown destination and a second valid record. *)
Definition flows3 : FlowDataFrame :=
  {| flows :=
       [ {| origin := "a"; destination := "b"; flow := Fin 3 |};
         {| origin := "a"; destination := "a"; flow := Fin 4 |};
         {| origin := "c"; destination := "z"; flow := Fin 5 |};
         {| origin := "c"; destination := "b"; flow := Fin 7 |} ];
     tile_id := "tile_ID";
     tessellation := tess3 |}.

(** The relevances of [tess3] and the taxicab distances of its
    locations. *)
Definition relevances3 : list num := [Fin 10; Fin 20; Fin 5].
Definition distances3 : Np.matrix :=
  [[Fin 0; Fin 2; Fin 4]; [Fin 2; Fin 0; Fin 3]; [Fin 4; Fin 3; Fin 0]].

(** The world in which [fit] enters its loop on a tessellation with the
    identifiers of [tess3] and the relevances [v]. *)
Definition calibrating_world (g : Gravity) (tess : GeoDataFrame) (v : list num)
  : @World external :=
  world0
    (set_y (Some []) (set_X (Some [])
       (set_tileid2index (Some (tileid_index ["a"; "b"; "c"]))
          (set_weights (Some (Numbers (fillna0 v)))
             (set_lats_lngs (Some (geometry tess)) g))))).

(** A model built with two deterrence arguments. *)
Definition gravity_two_args : Gravity :=
  (__init__ "power_law" [Fin (-2); Fin 1] Num.one Num.one "singly constrained"
            "Gravity model").1.

(** The flow table [flows3] on the tessellation without a relevance
    column, and a table on [tess3] none of whose records passes the
    filters: a self-loop and a record with an unknown origin. *)
Definition flows_no_relevance : FlowDataFrame :=
  {| flows := flows flows3; tile_id := "tile_ID";
     tessellation := tess_no_relevance |}.

Definition flows_unusable : FlowDataFrame :=
  {| flows :=
       [ {| origin := "b"; destination := "b"; flow := Fin 2 |};
         {| origin := "y"; destination := "a"; flow := Fin 9 |} ];
     tile_id := "tile_ID";
     tessellation := tess3 |}.

(** The three locations of [tess3] with the identifiers [repeated_ids],
    and the world in which [fit] enters its loop on a tessellation with
    the identifiers [ids] and the relevances [v]. *)
Definition tess_repeated : GeoDataFrame :=
  {| geometry := geometry tess3;
     id_columns := {[ "tile_ID" := repeated_ids ]};
     num_columns := num_columns tess3 |}.

(** The three locations of [tess3] with a relevance column of labels,
    and with a relevance 0 everywhere. *)
Definition tess_labelled : GeoDataFrame :=
  {| geometry := geometry tess3;
     id_columns := {[ "tile_ID" := ["a"; "b"; "c"] ]} ∪
                   {[ "relevance" := ["high"; "low"; "low"] ]};
     num_columns := {[ "tot_outflow" := [Fin 100; Fin 50; Fin 10] ]} |}.

Definition tess_all_zero : GeoDataFrame :=
  {| geometry := geometry tess3;
     id_columns := id_columns tess3;
     num_columns := {[ "relevance" := [Fin 0; Fin 0; Fin 0] ]} |}.

Definition calibrating_world_on (g : Gravity) (tess : GeoDataFrame)
    (v : list num) (ids : list string) : @World external :=
  world0
    (set_y (Some []) (set_X (Some [])
       (set_tileid2index (Some (tileid_index ids))
          (set_weights (Some (Numbers (fillna0 v)))
             (set_lats_lngs (Some (geometry tess)) g))))).
End SampleData.

(** ** Further derived forms *)

(** The read-only properties of the class [Gravity]. *)
Definition name (g : Gravity) : string := _name g.
Definition deterrence_func_type (g : Gravity) : string := _deterrence_func_type g.
Definition deterrence_func_args (g : Gravity) : list num := _deterrence_func_args g.
Definition origin_exp (g : Gravity) : num := _origin_exp g.
Definition destination_exp (g : Gravity) : num := _destination_exp g.
Definition gravity_type (g : Gravity) : string := _gravity_type g.

(** The part of the configuration that no method assigns after the
    constructor: the name, the two kinds and the deterrence function. *)
Definition identity (g : Gravity) : string * string * string * deterrence :=
  (name g, deterrence_func_type g, gravity_type g, _deterrence_func g).

(** Whether a flow record passes the filters of [_update_training_set]
    for the identifiers [ids] and the relevances [ws]: its origin and
    destination differ, both are keys of the dictionary, and the relevance
    of the destination is not [<= 0]. *)
Definition usable (ids : list string) (ws : list num) (r : FlowRecord) : bool :=
  bool_decide (origin r ≠ destination r) &&
  match tileid_index ids !! origin r, tileid_index ids !! destination r with
  | Some _, Some i_d =>
      match ws !! i_d with
      | Some w_d => negb (Num.le w_d Num.zero)
      | None => false
      end
  | _, _ => false
  end.

(** What [_update_training_set] prints for a record: nothing for a
    self-loop; otherwise the message for the origin when it is not a key of
    the dictionary, else the message for the destination when that one is
    not a key. *)
Definition warnings_of (ids : list string) (r : FlowRecord) : list event :=
  if bool_decide (origin r = destination r) then []
  else match tileid_index ids !! origin r with
       | None => [Printed (missing_warning (origin r))]
       | Some _ =>
           match tileid_index ids !! destination r with
           | None => [Printed (missing_warning (destination r))]
           | Some _ => []
           end
       end.

(** The number of cells of a design-matrix row for [n] locations. *)
Definition row_width (g : Gravity) (n : nat) : nat :=
  if globally g then 4%nat else (n + 3)%nat.

Section Frames.
Context `{External}.

(** A computation that does not use the random source: it leaves its
    state as it is and enters no sampling step. *)
Definition draws_nothing {A} (m : M A) : Prop :=
  ∀ w, random (m w).2 = random w ∧
       ∃ evs, trace (m w).2 = trace w ++ evs ∧ Entered Sampling ∉ evs.

(** A property of the model object that holds whenever [m] raises from
    a state in which it holds. *)
Definition fails_with {A} (P : Gravity → Prop) (m : M A) : Prop :=
  ∀ w e w', P (self w) → m w = (Raise e, w') → P (self w').

(** The training arrays are on the object. *)
Definition has_training_arrays (g : Gravity) : Prop :=
  is_Some (X g) ∧ is_Some (y g).
End Frames.

(** * Properties *)

(** ** Arrays *)

Section ArrayFacts.
Implicit Types (M : Np.matrix) (v : Np.vector) (i j r c : nat).

Lemma tabulate_lookup r c g i :
  (i < r)%nat → Np.tabulate r c g !! i = Some (g i <$> seq 0 c).
Proof.
  intros Hi. unfold Np.tabulate.
  by rewrite list_lookup_fmap, lookup_seq_lt.
Qed.

Lemma entry_tabulate r c g i j :
  (i < r)%nat → (j < c)%nat → Np.entry (Np.tabulate r c g) i j = g i j.
Proof.
  intros Hi Hj. unfold Np.entry.
  rewrite tabulate_lookup by done. simpl.
  by rewrite list_lookup_fmap, lookup_seq_lt.
Qed.

Lemma nrows_tabulate r c g : Np.nrows (Np.tabulate r c g) = r.
Proof. unfold Np.nrows, Np.tabulate. by rewrite length_fmap, length_seq. Qed.

Lemma tabulate_has_shape r c g : Np.has_shape (Np.tabulate r c g) r c.
Proof.
  split; [apply nrows_tabulate |].
  unfold Np.tabulate. apply Forall_fmap, Forall_forall. intros i _. simpl.
  by rewrite length_fmap, length_seq.
Qed.

Lemma ncols_tabulate r c g : (0 < r)%nat → Np.ncols (Np.tabulate r c g) = c.
Proof.
  intros Hr. unfold Np.ncols, Np.tabulate.
  destruct r as [|r]; [lia |]. simpl. by rewrite length_fmap, length_seq.
Qed.

Lemma has_shape_lookup M r c i row_i :
  Np.has_shape M r c → M !! i = Some row_i → length row_i = c.
Proof.
  intros [_ Hall] Hi. eapply Forall_lookup_1 in Hall; eauto.
Qed.

Lemma has_shape_ncols M r c : Np.has_shape M r c → (0 < r)%nat → Np.ncols M = c.
Proof.
  intros [Hr Hall] Hpos. unfold Np.ncols.
  destruct M as [|row0 M]; simpl in *; [lia |]. by inversion Hall.
Qed.

Lemma entry_lookup M i j row_i x :
  M !! i = Some row_i → row_i !! j = Some x → Np.entry M i j = x.
Proof. intros Hi Hj. unfold Np.entry. rewrite Hi. simpl. by rewrite Hj. Qed.

Lemma row_entry M i j x : Np.row M i !! j = Some x → Np.entry M i j = x.
Proof.
  unfold Np.row, Np.entry. destruct (M !! i) as [row_i|]; simpl; [|done].
  by intros ->.
Qed.

Lemma has_shape_entry_lookup M r c i j :
  Np.has_shape M r c → (i < r)%nat → (j < c)%nat →
  ∃ row_i, M !! i = Some row_i ∧ row_i !! j = Some (Np.entry M i j).
Proof.
  intros HM Hi Hj.
  destruct (lookup_lt_is_Some_2 M i) as [row_i Hrow]; [by rewrite (proj1 HM) |].
  pose proof (has_shape_lookup _ _ _ _ _ HM Hrow) as Hlen.
  destruct (lookup_lt_is_Some_2 row_i j) as [x Hx]; [lia |].
  exists row_i. split; [done |]. by rewrite (entry_lookup _ _ _ _ _ Hrow Hx).
Qed.

Lemma map2_has_shape f M r c : Np.has_shape M r c → Np.has_shape (Np.map2 f M) r c.
Proof.
  intros [Hr Hall]. split.
  - unfold Np.map2. by rewrite length_fmap.
  - unfold Np.map2. apply Forall_fmap.
    eapply Forall_impl; [exact Hall |]. intros row_i Hlen. simpl.
    by rewrite length_fmap.
Qed.

Lemma entry_map2 f M r c i j :
  Np.has_shape M r c → (i < r)%nat → (j < c)%nat →
  Np.entry (Np.map2 f M) i j = f (Np.entry M i j).
Proof.
  intros HM Hi Hj.
  destruct (has_shape_entry_lookup _ _ _ _ _ HM Hi Hj) as (row_i & Hrow & Hx).
  apply entry_lookup with (row_i := f <$> row_i).
  - unfold Np.map2. by rewrite list_lookup_fmap, Hrow.
  - by rewrite list_lookup_fmap, Hx.
Qed.

(** After the two [putmask] calls every cell of the array is finite. *)
Lemma entry_putmask_finite M i j :
  Num.isfinite
    (Np.entry (Np.putmask Num.isinf Num.zero (Np.putmask Num.isnan Num.zero M)) i j)
  = true.
Proof.
  unfold Np.entry, Np.putmask, Np.map2.
  rewrite !list_lookup_fmap.
  destruct (M !! i) as [row_i|]; simpl; [|done].
  rewrite !list_lookup_fmap.
  destruct (row_i !! j) as [x|]; simpl; [|done].
  by destruct x.
Qed.

Lemma zeros_has_shape r c : Np.has_shape (Np.zeros r c) r c.
Proof.
  split; unfold Np.zeros; [by rewrite length_replicate |].
  apply Forall_replicate. by rewrite length_replicate.
Qed.

Lemma entry_zeros r c i j : Np.entry (Np.zeros r c) i j = Num.zero.
Proof.
  unfold Np.entry, Np.zeros.
  destruct (replicate r (replicate c Num.zero) !! i) as [row_i|] eqn:Hi; [|done].
  apply lookup_replicate in Hi as [-> _]. simpl.
  destruct (replicate c Num.zero !! j) as [x|] eqn:Hj; [|done].
  by apply lookup_replicate in Hj as [-> _].
Qed.

End ArrayFacts.

Section BroadcastFacts.
Implicit Types (M : Np.matrix) (v : Np.vector) (i j r c : nat).

Lemma bidx_lt r i : (i < r)%nat → Np.bidx r i = i.
Proof. intros Hi. unfold Np.bidx. case_decide; lia. Qed.

Lemma bdim_same a : Np.bdim a a = Some a.
Proof. unfold Np.bdim. by rewrite decide_True. Qed.

Lemma bdim_one_r a : Np.bdim a 1 = Some a.
Proof. unfold Np.bdim. repeat case_decide; congruence. Qed.

Lemma entry_as_row v i j : Np.entry (Np.as_row v) (Np.bidx 1 i) j = default Num.zero (v !! j).
Proof. done. Qed.

Lemma has_shape_nrows M r c : Np.has_shape M r c → Np.nrows M = r.
Proof. by intros [? _]. Qed.

(** An array times a rank-1 array with one cell per column. *)
Lemma broadcast2_row_entry f M v r c :
  Np.has_shape M r c → Np.ncols M = c → length v = c →
  ∃ T, Np.broadcast2 f M (Np.as_row v) = Ok T ∧
       Np.has_shape T r c ∧ Np.ncols T = c ∧
       ∀ i j, (i < r)%nat → (j < c)%nat →
         Np.entry T i j = f (Np.entry M i j) (default Num.zero (v !! j)).
Proof.
  intros HM Hc Hv. unfold Np.broadcast2.
  assert (Np.nrows (Np.as_row v) = 1%nat) as -> by done.
  assert (Np.ncols (Np.as_row v) = c) as -> by done.
  rewrite (has_shape_nrows _ _ _ HM), Hc, bdim_one_r, bdim_same.
  eexists. split; [done |]. split; [apply tabulate_has_shape |]. split.
  - destruct r as [|r]; [|apply ncols_tabulate; lia].
    destruct HM as [HM _]. by destruct M.
  - intros i j Hi Hj. rewrite entry_tabulate by done.
    rewrite (bidx_lt r), (bidx_lt c) by done.
    by rewrite entry_as_row.
Qed.

(** An array times a column with one cell per row. *)
Lemma broadcast2_col_entry f M v r c :
  Np.has_shape M r c → Np.ncols M = c → length v = r →
  ∃ T, Np.broadcast2_column f M v = Ok T ∧
       Np.has_shape T r c ∧ Np.ncols T = c ∧
       ∀ i j, (i < r)%nat → (j < c)%nat →
         Np.entry T i j = f (Np.entry M i j) (default Num.zero (v !! i)).
Proof.
  intros HM Hc Hv. unfold Np.broadcast2_column.
  rewrite (has_shape_nrows _ _ _ HM), Hc, Hv, bdim_same, bdim_one_r.
  eexists. split; [done |]. split; [apply tabulate_has_shape |]. split.
  - destruct r as [|r]; [|apply ncols_tabulate; lia].
    destruct HM as [HM _]. destruct M; [|done]. by rewrite <- Hc.
  - intros i j Hi Hj. rewrite entry_tabulate by done.
    by rewrite !(bidx_lt r), (bidx_lt c) by done.
Qed.
End BroadcastFacts.

(** ** The gravity score (C2) *)

Section ScoreFacts.
Context `{Elementary}.

Lemma call_deterrence_one f D a :
  call_deterrence f D [a] = Ok (Np.map2 (λ d, deterrence_at f d a) D).
Proof. by destruct f. Qed.

Lemma ncols_map2 f (M : Np.matrix) : Np.ncols (Np.map2 f M) = Np.ncols M.
Proof. destruct M; simpl; [done |]. unfold Np.ncols. simpl. by rewrite length_fmap. Qed.

Lemma putmask_has_shape mask v (M : Np.matrix) r c :
  Np.has_shape M r c → Np.has_shape (Np.putmask mask v M) r c.
Proof. apply map2_has_shape. Qed.

(** The product that [compute_gravity_score] computes before the two
    [putmask] calls. *)
Lemma compute_gravity_score_run (g : Gravity) (D : Np.matrix)
    (relevances_orig relevances_dest : Np.vector) (a : num) :
  _deterrence_func_args g = [a] →
  Np.has_shape D (length relevances_orig) (length relevances_dest) →
  Np.ncols D = length relevances_dest →
  ∃ T, compute_gravity_score g D relevances_orig relevances_dest =
         Ok (Np.putmask Num.isinf Num.zero (Np.putmask Num.isnan Num.zero T)) ∧
       Np.has_shape T (length relevances_orig) (length relevances_dest) ∧
       ∀ i j r_i r_j,
         relevances_orig !! i = Some r_i → relevances_dest !! j = Some r_j →
         Np.entry T i j =
           Num.mul (Num.mul (deterrence_at (_deterrence_func g) (Np.entry D i j) a)
                            (Num.pow r_j (_destination_exp g)))
                   (Num.pow r_i (_origin_exp g)).
Proof.
  intros Hargs HD Hcols. unfold compute_gravity_score.
  rewrite Hargs, call_deterrence_one. simpl.
  set (T0 := Np.map2 _ D).
  assert (Np.has_shape T0 (length relevances_orig) (length relevances_dest)) as HT0
    by by apply map2_has_shape.
  assert (Np.ncols T0 = length relevances_dest) as HcT0
    by by (unfold T0; rewrite ncols_map2).
  destruct (broadcast2_row_entry Num.mul T0
              ((λ r, Num.pow r (_destination_exp g)) <$> relevances_dest)
              _ _ HT0 HcT0) as (T1 & -> & HT1 & HcT1 & HeT1);
    [by rewrite length_fmap |]. simpl.
  destruct (broadcast2_col_entry Num.mul T1
              ((λ r, Num.pow r (_origin_exp g)) <$> relevances_orig)
              _ _ HT1 HcT1) as (T2 & -> & HT2 & HcT2 & HeT2);
    [by rewrite length_fmap |]. simpl.
  exists T2. split; [done |]. split; [done |].
  intros i j r_i r_j Hi Hj.
  assert (i < length relevances_orig)%nat as Hi' by by eapply lookup_lt_Some.
  assert (j < length relevances_dest)%nat as Hj' by by eapply lookup_lt_Some.
  rewrite HeT2, HeT1 by done. unfold T0.
  erewrite entry_map2; [|done..].
  by rewrite !list_lookup_fmap, Hi, Hj.
Qed.

(** C2. [compute_gravity_score(D, relevances_orig, relevances_dest)]
    returns the array whose entry [(i, j)] is
    [deterrence_fn(D[i][j], *args) * relevances_dest[j] ** destination_exp
     * relevances_orig[i] ** origin_exp], with every NaN or infinite
    entry of that product replaced by 0.0; so the result has no NaN and
    no infinite entry, whatever the distances and relevances are (in
    particular for finite, non-negative ones).  The array [D] has one
    row per origin and one column per destination; the hypothesis on
    [Np.ncols] only speaks about an array without rows. *)
Theorem compute_gravity_score_entries (g : Gravity) (D : Np.matrix)
    (relevances_orig relevances_dest : Np.vector) (a : num) :
  _deterrence_func_args g = [a] →
  Np.has_shape D (length relevances_orig) (length relevances_dest) →
  Np.ncols D = length relevances_dest →
  ∃ P, compute_gravity_score g D relevances_orig relevances_dest = Ok P ∧
       Np.has_shape P (length relevances_orig) (length relevances_dest) ∧
       (∀ i j r_i r_j,
          relevances_orig !! i = Some r_i → relevances_dest !! j = Some r_j →
          let raw :=
            Num.mul (Num.mul (deterrence_at (_deterrence_func g) (Np.entry D i j) a)
                             (Num.pow r_j (_destination_exp g)))
                    (Num.pow r_i (_origin_exp g)) in
          Np.entry P i j =
            if Num.isnan raw || Num.isinf raw then Num.zero else raw) ∧
       (∀ i j, Num.isnan (Np.entry P i j) = false ∧
               Num.isinf (Np.entry P i j) = false).
Proof.
  intros Hargs HD Hcols.
  destruct (compute_gravity_score_run g D relevances_orig relevances_dest a
              Hargs HD Hcols) as (T & HT & Hshape & Hentries).
  eexists. split; [exact HT |]. split; [by do 2 apply putmask_has_shape |]. split.
  - intros i j r_i r_j Hi Hj.
    assert (i < length relevances_orig)%nat as Hi' by by eapply lookup_lt_Some.
    assert (j < length relevances_dest)%nat as Hj' by by eapply lookup_lt_Some.
    unfold Np.putmask.
    erewrite entry_map2; [|by apply map2_has_shape|done..].
    erewrite entry_map2; [|done..].
    rewrite (Hentries i j r_i r_j Hi Hj). simpl.
    by destruct (Num.mul _ _).
  - intros i j.
    pose proof (entry_putmask_finite T i j) as Hfin.
    by destruct (Np.entry _ i j).
Qed.
End ScoreFacts.

(** ** The monad: what a computation does to the trace and to [self] *)

Section MonadFacts.
Context `{Elementary} `{External}.

Lemma extends_ret {A} (a : A) : extends_trace (ret a).
Proof. by intros w. Qed.

Lemma extends_raise {A} e : extends_trace (@raise _ A e).
Proof. by intros w. Qed.

Lemma extends_lift {A} (r : result A) : extends_trace (lift r).
Proof. by intros w. Qed.

Lemma extends_get_self : extends_trace get_self.
Proof. by intros w. Qed.

Lemma extends_modify_self f : extends_trace (modify_self f).
Proof. by intros w. Qed.

Lemma extends_getattr {A} (proj : Gravity → option A) : extends_trace (getattr proj).
Proof. intros w. unfold getattr. by destruct (proj (self w)). Qed.

Lemma extends_emit e : extends_trace (emit e).
Proof. intros w. simpl. by apply prefix_app_r. Qed.

Lemma extends_draw n pvals : extends_trace (draw n pvals).
Proof.
  intros w. unfold draw. destruct (multinomial _ _ _). simpl.
  by apply prefix_app_r.
Qed.

Lemma extends_bind {A B} (m : M A) (f : A → M B) :
  extends_trace m → (∀ a, extends_trace (f a)) → extends_trace (bind m f).
Proof.
  intros Hm Hf w. unfold bind. specialize (Hm w).
  destruct (m w) as [[a|e] w1]; simpl in *; [|done].
  etrans; [exact Hm | apply Hf].
Qed.

Lemma extends_for_each {A} (xs : list A) body :
  (∀ x, extends_trace (body x)) → extends_trace (for_each xs body).
Proof.
  intros Hbody. induction xs as [|x xs IH]; simpl.
  - apply extends_ret.
  - apply extends_bind; [apply Hbody | by intros _].
Qed.

Lemma extends_collect {A B} (xs : list A) (body : A → M B) :
  (∀ x, extends_trace (body x)) → extends_trace (collect xs body).
Proof.
  intros Hbody. induction xs as [|x xs IH]; simpl.
  - apply extends_ret.
  - apply extends_bind; [apply Hbody | intros b].
    apply extends_bind; [apply IH | intros bs; apply extends_ret].
Qed.

Lemma preserves_ret {A} (a : A) : preserves_self (ret a).
Proof. by intros w. Qed.

Lemma preserves_raise {A} e : preserves_self (@raise _ A e).
Proof. by intros w. Qed.

Lemma preserves_lift {A} (r : result A) : preserves_self (lift r).
Proof. by intros w. Qed.

Lemma preserves_get_self : preserves_self get_self.
Proof. by intros w. Qed.

Lemma preserves_getattr {A} (proj : Gravity → option A) : preserves_self (getattr proj).
Proof. intros w. unfold getattr. by destruct (proj (self w)). Qed.

Lemma preserves_emit e : preserves_self (emit e).
Proof. by intros w. Qed.

Lemma preserves_draw n pvals : preserves_self (draw n pvals).
Proof. intros w. unfold draw. by destruct (multinomial _ _ _). Qed.

Lemma preserves_bind {A B} (m : M A) (f : A → M B) :
  preserves_self m → (∀ a, preserves_self (f a)) → preserves_self (bind m f).
Proof.
  intros Hm Hf w. unfold bind. specialize (Hm w).
  destruct (m w) as [[a|e] w1]; simpl in *; [|done].
  by rewrite Hf.
Qed.

Lemma preserves_collect {A B} (xs : list A) (body : A → M B) :
  (∀ x, preserves_self (body x)) → preserves_self (collect xs body).
Proof.
  intros Hbody. induction xs as [|x xs IH]; simpl.
  - apply preserves_ret.
  - apply preserves_bind; [apply Hbody | intros b].
    apply preserves_bind; [apply IH | intros bs; apply preserves_ret].
Qed.
End MonadFacts.

(** Both properties are proved by following the structure of the code. *)
Ltac monad_frame :=
  repeat first
    [ apply extends_ret | apply extends_raise | apply extends_lift
    | apply extends_get_self | apply extends_modify_self | apply extends_getattr
    | apply extends_emit | apply extends_draw
    | apply preserves_ret | apply preserves_raise | apply preserves_lift
    | apply preserves_get_self | apply preserves_getattr
    | apply preserves_emit | apply preserves_draw
    | apply extends_bind | apply preserves_bind
    | apply extends_collect | apply preserves_collect
    | apply extends_for_each
    | progress intros
    | case_bool_decide
    | case_match ].

Section GenerateFacts.
Context `{Elementary} `{External}.

Lemma extends_from_matrix_to_flowdf flow_matrix origins tess :
  extends_trace (_from_matrix_to_flowdf flow_matrix origins tess).
Proof. unfold _from_matrix_to_flowdf. monad_frame. Qed.

Lemma preserves_from_matrix_to_flowdf flow_matrix origins tess :
  preserves_self (_from_matrix_to_flowdf flow_matrix origins tess).
Proof. unfold _from_matrix_to_flowdf. monad_frame. Qed.


Lemma preserves_generate_steps tess relevances tot_outflows out_format :
  preserves_self (generate_steps tess relevances tot_outflows out_format).
Proof.
  unfold generate_steps. monad_frame; apply preserves_from_matrix_to_flowdf.
Qed.

(** [generate] is its argument checks followed by [generate_steps]. *)
Lemma generate_unfold tess tile_id_column tot_outflows_column relevance_column
    out_format :
  generate tess tile_id_column tot_outflows_column relevance_column out_format =
  (relevances <- lift (column_values tess relevance_column) ;;
   modify_self (set_tile_id_column (Some tile_id_column)) ;;;
   out_format <-
     (if bool_decide (out_format ∈ ["flows"; "probabilities"])
      then ret out_format
      else print (format_warning out_format) ;;; ret "flows") ;;
   tot_outflows <-
     (if bool_decide (out_format = "flows") then
        if bool_decide (tot_outflows_column ∉ columns tess)
        then raise KeyError
        else lift (column_values tess tot_outflows_column)
      else ret (Numbers [])) ;;
   generate_steps tess relevances tot_outflows out_format).
Proof. reflexivity. Qed.

(** Reading a column by name. *)
Lemma elem_of_columns tess c :
  c ∈ columns tess ↔
  is_Some (num_columns tess !! c) ∨ is_Some (id_columns tess !! c).
Proof. unfold columns. by rewrite elem_of_union, !elem_of_dom. Qed.

Lemma column_values_numbers tess c v :
  num_columns tess !! c = Some v →
  column_values tess c = Ok (Numbers (fillna0 v)).
Proof. intros Hv. unfold column_values. by rewrite Hv. Qed.

Lemma column_values_absent tess c :
  c ∉ columns tess → column_values tess c = Raise KeyError.
Proof.
  rewrite elem_of_columns. intros Hc. unfold column_values.
  destruct (num_columns tess !! c) eqn:Hn; [destruct Hc; left; by eexists |].
  destruct (id_columns tess !! c) eqn:Hi; [destruct Hc; right; by eexists |].
  done.
Qed.

Lemma column_values_present tess c :
  c ∈ columns tess → ∃ values, column_values tess c = Ok values.
Proof.
  rewrite elem_of_columns. unfold column_values.
  intros [[v ->]|[v Hv]]; [by eexists |].
  destruct (num_columns tess !! c); [by eexists |]. rewrite Hv. by eexists.
Qed.

Lemma column_values_raises tess c e :
  column_values tess c = Raise e → e = KeyError ∧ c ∉ columns tess.
Proof.
  intros Hraise. destruct (decide (c ∈ columns tess)) as [Hin|Hnin].
  - destruct (column_values_present _ _ Hin) as [values Hv]. congruence.
  - rewrite (column_values_absent _ _ Hnin) in Hraise. by injection Hraise as <-.
Qed.

Lemma column_values_ok tess c values :
  column_values tess c = Ok values → c ∈ columns tess.
Proof.
  intros Hok. destruct (decide (c ∈ columns tess)) as [Hin|Hnin]; [done |].
  rewrite (column_values_absent _ _ Hnin) in Hok. done.
Qed.

(** The run of [generate] when the tessellation has the relevance
    column: the events before the steps are the format warning, if
    any. *)
Lemma generate_run tess tile_id_column tot_outflows_column relevance_column
    out_format w relevances :
  column_values tess relevance_column = Ok relevances →
  let warned :=
    if bool_decide (out_format ∈ ["flows"; "probabilities"]) then []
    else [Printed (format_warning out_format)] in
  let w1 := {| self := set_tile_id_column (Some tile_id_column) (self w);
               trace := trace w ++ warned;
               random := random w |} in
  generate tess tile_id_column tot_outflows_column relevance_column out_format w =
  if bool_decide (effective_format out_format = "flows") then
    match column_values tess tot_outflows_column with
    | Raise _ => (Raise KeyError, w1)
    | Ok tot_outflows => generate_steps tess relevances tot_outflows "flows" w1
    end
  else generate_steps tess relevances (Numbers []) (effective_format out_format) w1.
Proof.
  intros Hv warned w1. rewrite generate_unfold.
  unfold bind at 1. unfold lift at 1. rewrite Hv.
  unfold bind at 1. simpl. unfold bind at 1.
  subst warned w1. unfold effective_format.
  assert (∀ w0 : World,
    (if bool_decide (tot_outflows_column ∉ columns tess)
     then raise KeyError
     else lift (column_values tess tot_outflows_column)) w0 =
    match column_values tess tot_outflows_column with
    | Raise _ => (Raise KeyError, w0)
    | Ok tot_outflows => (Ok tot_outflows, w0)
    end) as Hout.
  { intros w0. case_bool_decide as Hin.
    - by rewrite (column_values_absent _ _ Hin).
    - destruct (column_values_present _ _ Hin) as [values ->]. done. }
  destruct (bool_decide (out_format ∈ ["flows"; "probabilities"])) eqn:Hfmt.
  - simpl. rewrite app_nil_r. unfold bind at 1.
    destruct (bool_decide (out_format = "flows")) eqn:Hflows.
    + apply bool_decide_eq_true_1 in Hflows as ->.
      rewrite Hout.
      destruct (column_values tess tot_outflows_column) as [o|]; simpl; done.
    + done.
  - simpl. unfold bind at 1. rewrite Hout.
    destruct (column_values tess tot_outflows_column) as [o|]; simpl; done.
Qed.

Lemma generate_missing_relevance tess tile_id_column tot_outflows_column
    relevance_column out_format w :
  relevance_column ∉ columns tess →
  generate tess tile_id_column tot_outflows_column relevance_column out_format w
  = (Raise KeyError, w).
Proof.
  intros Hrel. rewrite generate_unfold.
  unfold bind at 1, lift at 1. by rewrite column_values_absent.
Qed.

Lemma generate_steps_enters tess relevances tot_outflows out_format w :
  (trace w ++ [Entered DistanceMatrix])
    `prefix_of` trace (generate_steps tess relevances tot_outflows out_format w).2.
Proof.
  unfold generate_steps. unfold bind at 1. simpl.
  match goal with
  | |- _ `prefix_of` trace (?m ?w').2 =>
      assert (extends_trace m) as Hm
        by (monad_frame; apply extends_from_matrix_to_flowdf);
      apply (Hm w')
  end.
Qed.
End GenerateFacts.

(** ** Fallbacks on unknown configuration values (C9) *)

Section Fallbacks.
Context `{Elementary} `{External}.

End Fallbacks.

(** ** Errors raised before any computation (C8) *)

Section EarlyErrors.
Context `{Elementary} `{External}.

(** C8, as the code has it. [generate] raises before it enters any
    computing step (distance matrix, gravity scores, sampling) if and
    only if the tessellation has no column of the name given for the
    relevance, or the effective output format is 'flows' and the
    tessellation has no column of the name given for the total outflow.
    With 'probabilities' the total-outflow column is not read: the call
    does not depend on the column name given. *)
Theorem generate_raises_early_iff tess tile_id_column tot_outflows_column
    relevance_column out_format w :
  (raises_before_computing
     (generate tess tile_id_column tot_outflows_column relevance_column out_format) w
   ↔ relevance_column ∉ columns tess ∨
     (effective_format out_format = "flows" ∧
      tot_outflows_column ∉ columns tess)) ∧
  (∀ other_column,
     generate tess tile_id_column tot_outflows_column relevance_column
              "probabilities" w =
     generate tess tile_id_column other_column relevance_column
              "probabilities" w).
Proof.
  split; [|done].
  unfold raises_before_computing, new_events.
  destruct (decide (relevance_column ∈ columns tess)) as [Hin|Hrel].
  - destruct (column_values_present _ _ Hin) as [relevances Hv].
    rewrite (generate_run _ _ _ _ _ _ _ Hv). simpl.
    set (warned := if bool_decide (out_format ∈ _) then _ else _).
    set (w1 := {| self := _; trace := _; random := _ |}).
    assert (∀ s, Entered s ∉ warned) as Hwarned.
    { intros s. subst warned.
      destruct (bool_decide _); [apply not_elem_of_nil |].
      by intros ?%list_elem_of_singleton. }
    assert (∀ relevances tot_outflows fmt,
              ¬ ∀ s, Entered s ∉
                drop (length (trace w))
                     (trace (generate_steps tess relevances tot_outflows fmt w1).2))
      as Hsteps.
    { intros r o fmt Hnone. apply (Hnone DistanceMatrix).
      destruct (generate_steps_enters tess r o fmt w1) as [rest Hrest].
      rewrite Hrest. simpl. rewrite <- !app_assoc, drop_app_length.
      apply elem_of_app. right. apply elem_of_app. left.
      by apply list_elem_of_singleton. }
    split.
    + intros [[e He] Hnone]. right.
      destruct (bool_decide (effective_format out_format = "flows")) eqn:Hflows.
      * apply bool_decide_eq_true_1 in Hflows. split; [done |].
        destruct (column_values tess tot_outflows_column) as [o|e'] eqn:Hout.
        -- by destruct (Hsteps relevances o "flows").
        -- by apply column_values_raises in Hout as [_ ?].
      * by destruct (Hsteps relevances (Numbers []) (effective_format out_format)).
    + intros [?|[Hflows Hout]]; [done |].
      rewrite (bool_decide_eq_true_2 _ Hflows), (column_values_absent _ _ Hout).
      split; [by eexists |]. intros s. simpl.
      rewrite drop_app_length. apply Hwarned.
  - rewrite (generate_missing_relevance _ _ _ _ _ _ Hrel).
    split; [intros _; by left |]. intros _.
    split; [by eexists |]. intros s. simpl.
    rewrite drop_all. apply not_elem_of_nil.
Qed.
End EarlyErrors.

(** ** What [generate] and [fit] change in the model object (C5) *)

Section ObjectState.
Context `{Elementary} `{External}.

Lemma keeps_preserves {A} P (m : M A) : preserves_self m → keeps P m.
Proof. intros Hm w HP. by rewrite Hm. Qed.

Lemma keeps_modify_self P f : (∀ g, P g → P (f g)) → keeps P (modify_self f).
Proof. intros Hf w HP. by apply Hf. Qed.

Lemma keeps_bind {A B} P (m : M A) (f : A → M B) :
  keeps P m → (∀ a, keeps P (f a)) → keeps P (bind m f).
Proof.
  intros Hm Hf w HP. unfold bind. specialize (Hm w HP).
  destruct (m w) as [[a|e] w1]; simpl in *; [|done].
  by apply Hf.
Qed.

Lemma keeps_for_each {A} P (xs : list A) body :
  (∀ x, keeps P (body x)) → keeps P (for_each xs body).
Proof.
  intros Hbody. induction xs as [|x xs IH]; simpl.
  - by intros w.
  - apply keeps_bind; [apply Hbody | by intros _].
Qed.

Lemma training_frame_set_X g0 g v : training_frame g0 g → training_frame g0 (set_X v g).
Proof. unfold training_frame. intros ->. by destruct g0. Qed.

Lemma training_frame_set_y g0 g v : training_frame g0 g → training_frame g0 (set_y v g).
Proof. unfold training_frame. intros ->. by destruct g0. Qed.

Lemma keeps_update_training_set g0 flow_example :
  keeps (training_frame g0) (_update_training_set flow_example).
Proof.
  unfold _update_training_set.
  repeat first
    [ apply keeps_bind
    | apply keeps_modify_self; intros ? ?;
        first [ by apply training_frame_set_X | by apply training_frame_set_y ]
    | apply keeps_preserves; monad_frame; fail
    | progress intros
    | case_bool_decide
    | case_match ].
Qed.

(** The model object after the assignments at the start of [fit]. *)
Lemma fit_run flow_df relevance_column w values ids :
  column_values (tessellation flow_df) relevance_column = Ok values →
  id_columns (tessellation flow_df) !! TILE_ID = Some ids →
  let g1 :=
    set_y (Some []) (set_X (Some [])
      (set_tileid2index (Some (tileid_index ids))
        (set_weights (Some values)
          (set_lats_lngs (Some (geometry (tessellation flow_df))) (self w))))) in
  let w1 := {| self := g1; trace := trace w; random := random w |} in
  fit flow_df relevance_column w =
  (for_each (flows flow_df) _update_training_set ;;;
   emit (Entered Regression) ;;;
   y_ <- getattr y ;;
   X_ <- getattr X ;;
   params <- lift (GLM_fit y_ X_) ;;
   g <- get_self ;;
   (if globally g then
      p1 <- lift (getitem params 1) ;;
      modify_self (set_origin_exp p1) ;;;
      p2 <- lift (getitem params 2) ;;
      modify_self (set_destination_exp p2) ;;;
      p3 <- lift (getitem params 3) ;;
      modify_self (set_deterrence_func_args [p3])
    else
      modify_self (set_origin_exp Num.one) ;;;
      p2 <- lift (getitem_back params 2) ;;
      modify_self (set_destination_exp p2) ;;;
      p1 <- lift (getitem_back params 1) ;;
      modify_self (set_deterrence_func_args [p1])) ;;;
   modify_self (set_X None) ;;;
   modify_self (set_y None)) w1.
Proof.
  intros Hv Hids g1 w1. unfold fit.
  unfold bind at 1. simpl. unfold bind at 1, lift at 1. rewrite Hv.
  unfold bind at 1. simpl. unfold bind at 1, lift at 1, id_values. rewrite Hids.
  unfold bind at 1. simpl. unfold bind at 1. simpl. unfold bind at 1. simpl.
  reflexivity.
Qed.
End ObjectState.

Section FitFacts.
Context `{Elementary} `{External}.

Lemma calibration_data_run flow_df relevance_column w values ids :
  column_values (tessellation flow_df) relevance_column = Ok values →
  id_columns (tessellation flow_df) !! TILE_ID = Some ids →
  let g1 :=
    set_y (Some []) (set_X (Some [])
      (set_tileid2index (Some (tileid_index ids))
        (set_weights (Some values)
          (set_lats_lngs (Some (geometry (tessellation flow_df))) (self w))))) in
  let w1 := {| self := g1; trace := trace w; random := random w |} in
  calibration_data flow_df relevance_column w =
  (for_each (flows flow_df) _update_training_set ;;;
   emit (Entered Regression) ;;;
   y_ <- getattr y ;;
   X_ <- getattr X ;;
   ret (y_, X_)) w1.
Proof.
  intros Hv Hids g1 w1. unfold calibration_data.
  unfold bind at 1. simpl. unfold bind at 1, lift at 1. rewrite Hv.
  unfold bind at 1. simpl. unfold bind at 1, lift at 1, id_values. rewrite Hids.
  unfold bind at 1. simpl. unfold bind at 1. simpl. unfold bind at 1. simpl.
  reflexivity.
Qed.

(** The model object after a successful [fit], and the coefficients it
    was given. *)
Lemma fit_ok flow_df relevance_column w w' :
  fit flow_df relevance_column w = (Ok tt, w') →
  ∃ values ids y_ X_ params w1,
    column_values (tessellation flow_df) relevance_column = Ok values ∧
    id_columns (tessellation flow_df) !! TILE_ID = Some ids ∧
    calibration_data flow_df relevance_column w = (Ok (y_, X_), w1) ∧
    GLM_fit y_ X_ = Ok params ∧
    ∃ origin_exp destination_exp a,
      self w' =
        {| _name := _name (self w);
           _deterrence_func_type := _deterrence_func_type (self w);
           _deterrence_func_args := [a];
           _origin_exp := origin_exp;
           _destination_exp := destination_exp;
           _gravity_type := _gravity_type (self w);
           _deterrence_func := _deterrence_func (self w);
           _tile_id_column := _tile_id_column (self w);
           lats_lngs := Some (geometry (tessellation flow_df));
           weights := Some values;
           tileid2index := Some (tileid_index ids);
           X := None; y := None |} ∧
      if globally (self w) then
        params !! 1%nat = Some origin_exp ∧
        params !! 2%nat = Some destination_exp ∧
        params !! 3%nat = Some a
      else
        origin_exp = Num.one ∧
        (2 ≤ length params)%nat ∧
        params !! (length params - 2)%nat = Some destination_exp ∧
        params !! (length params - 1)%nat = Some a.
Proof.
  intros Hfit.
  destruct (column_values (tessellation flow_df) relevance_column)
    as [v|] eqn:Hv.
  2:{ unfold fit in Hfit. unfold bind at 1 in Hfit. simpl in Hfit.
      unfold bind at 1, lift at 1 in Hfit. by rewrite Hv in Hfit. }
  destruct (id_columns (tessellation flow_df) !! TILE_ID) as [ids|] eqn:Hids.
  2:{ unfold fit in Hfit. unfold bind at 1 in Hfit. simpl in Hfit.
      unfold bind at 1, lift at 1 in Hfit. rewrite Hv in Hfit.
      unfold bind at 1 in Hfit. simpl in Hfit.
      unfold bind at 1, lift at 1, id_values in Hfit. by rewrite Hids in Hfit. }
  rewrite (fit_run _ _ _ _ _ Hv Hids) in Hfit. simpl in Hfit.
  rewrite (calibration_data_run _ _ _ _ _ Hv Hids). simpl.
  set (w1 := {| self := _; trace := _; random := _ |}) in *.
  unfold bind at 1 in Hfit. unfold bind at 1.
  pose proof (keeps_for_each (training_frame (self w1)) (flows flow_df)
                _update_training_set
                (keeps_update_training_set (self w1)) w1 eq_refl) as Hframe.
  destruct (for_each (flows flow_df) _update_training_set w1)
    as [[[]|e] w2] eqn:Hloop; [|done].
  simpl in Hframe.
  unfold bind at 1 in Hfit. unfold bind at 1. simpl in Hfit. simpl.
  unfold bind at 1, getattr at 1 in Hfit. unfold bind at 1, getattr at 1.
  simpl in Hfit. simpl.
  destruct (y (self w2)) as [y_|] eqn:Hy; [|done].
  unfold bind at 1, getattr at 1 in Hfit. unfold bind at 1, getattr at 1.
  simpl in Hfit. simpl.
  destruct (X (self w2)) as [X_|] eqn:HX; [|done].
  unfold bind at 1, lift at 1 in Hfit.
  destruct (GLM_fit y_ X_) as [params|] eqn:HGLM; [|done].
  unfold bind at 1 in Hfit. simpl in Hfit.
  exists v, ids, y_, X_, params. eexists. do 4 (split; [done |]).
  assert (globally (self w2) = globally (self w)) as Hg.
  { rewrite Hframe. by destruct (self w). }
  rewrite Hg in Hfit. unfold training_frame in Hframe.
  destruct (globally (self w)).
  - unfold bind, lift, getitem, modify_self in Hfit. simpl in Hfit.
    destruct (params !! 1%nat) as [p1|] eqn:Hp1; [|done].
    destruct (params !! 2%nat) as [p2|] eqn:Hp2; [|done].
    destruct (params !! 3%nat) as [p3|] eqn:Hp3; [|done].
    injection Hfit as <-. simpl.
    exists p1, p2, p3. split; [|done].
    rewrite Hframe. by destruct (self w).
  - unfold bind, lift, getitem_back, getitem, modify_self in Hfit. simpl in Hfit.
    destruct (decide (2 ≤ length params)%nat) as [Hlen|]; [|done].
    destruct (params !! (length params - 2)%nat) as [p2|] eqn:Hp2; [|done].
    rewrite decide_True in Hfit by lia.
    destruct (params !! (length params - 1)%nat) as [p1|] eqn:Hp1; [|done].
    injection Hfit as <-. simpl.
    exists Num.one, p2, p1. split; [|done].
    rewrite Hframe. by destruct (self w).
Qed.

(** C4. After a successful [fit] the configuration is set from the
    coefficient vector [params] that the solver returned for the
    calibration data, by position: under the globally constrained regime
    the origin exponent is [params[1]], the destination exponent
    [params[2]] and the deterrence arguments [[params[3]]]; under the
    singly constrained regime the origin exponent is exactly 1.0, the
    destination exponent is the second-to-last coefficient and the
    deterrence arguments are the list of the last one. *)
Theorem fit_sets_parameters_by_position flow_df relevance_column w w' :
  fit flow_df relevance_column w = (Ok tt, w') →
  ∃ y_ X_ params w1,
    calibration_data flow_df relevance_column w = (Ok (y_, X_), w1) ∧
    GLM_fit y_ X_ = Ok params ∧
    (_gravity_type (self w) = "globally constrained" →
       params !! 1%nat = Some (_origin_exp (self w')) ∧
       params !! 2%nat = Some (_destination_exp (self w')) ∧
       ∃ p3, params !! 3%nat = Some p3 ∧
             _deterrence_func_args (self w') = [p3]) ∧
    (_gravity_type (self w) = "singly constrained" →
       _origin_exp (self w') = Num.one ∧
       (2 ≤ length params)%nat ∧
       params !! (length params - 2)%nat = Some (_destination_exp (self w')) ∧
       ∃ p, params !! (length params - 1)%nat = Some p ∧
            _deterrence_func_args (self w') = [p]).
Proof.
  intros Hfit.
  destruct (fit_ok _ _ _ _ Hfit)
    as (v & ids & y_ & X_ & params & w1 & _ & _ & Hdata & HGLM &
        oe & de & a & Hself & Hpos).
  exists y_, X_, params, w1. do 2 (split; [done |]).
  rewrite Hself. simpl. unfold globally in Hpos. split.
  - intros Hg. rewrite bool_decide_eq_true_2 in Hpos by done.
    destruct Hpos as (? & ? & ?). eauto.
  - intros Hs. rewrite bool_decide_eq_false_2 in Hpos by by rewrite Hs.
    destruct Hpos as (? & ? & ? & ?). eauto 10.
Qed.

(** C5, as the code has it. [generate] leaves every attribute of the
    model object as it was except [_tile_id_column], which it sets to its
    [tile_id_column] argument once the relevance column has been read,
    that is, whenever the tessellation has a column of that name (also
    when the call raises afterwards).  A successful [fit] keeps the name,
    the deterrence kind and function, the gravity type and
    [_tile_id_column]; it sets the two exponents and the deterrence
    arguments, leaves [lats_lngs], [weights] and [tileid2index] set from
    its tessellation, and deletes [X] and [y]. *)
Theorem generate_and_fit_frame :
  (∀ tess tile_id_column tot_outflows_column relevance_column out_format w,
     self (generate tess tile_id_column tot_outflows_column relevance_column
                    out_format w).2 =
     if bool_decide (relevance_column ∈ columns tess)
     then set_tile_id_column (Some tile_id_column) (self w)
     else self w) ∧
  (∀ flow_df relevance_column w w',
     fit flow_df relevance_column w = (Ok tt, w') →
     ∃ values ids origin_exp destination_exp a,
       column_values (tessellation flow_df) relevance_column = Ok values ∧
       id_columns (tessellation flow_df) !! TILE_ID = Some ids ∧
       self w' =
         {| _name := _name (self w);
            _deterrence_func_type := _deterrence_func_type (self w);
            _deterrence_func_args := [a];
            _origin_exp := origin_exp;
            _destination_exp := destination_exp;
            _gravity_type := _gravity_type (self w);
            _deterrence_func := _deterrence_func (self w);
            _tile_id_column := _tile_id_column (self w);
            lats_lngs := Some (geometry (tessellation flow_df));
            weights := Some values;
            tileid2index := Some (tileid_index ids);
            X := None; y := None |}).
Proof.
  split.
  - intros tess tile_id_column tot_outflows_column relevance_column out_format w.
    case_bool_decide as Hrel.
    + destruct (column_values_present _ _ Hrel) as [relevances Hv].
      rewrite (generate_run _ _ _ _ _ _ _ Hv). simpl.
      repeat case_match; try done; by rewrite preserves_generate_steps.
    + by rewrite generate_missing_relevance.
  - intros flow_df relevance_column w w' Hfit.
    destruct (fit_ok _ _ _ _ Hfit)
      as (v & ids & y_ & X_ & params & w1 & Hv & Hids & _ & _ &
          oe & de & a & Hself & _).
    by exists v, ids, oe, de, a.
Qed.
End FitFacts.

(** ** The distance matrix (C7) *)

Section DistanceFacts.
Context `{External}.
Implicit Types (D : Np.matrix) (i j a b n : nat).

Lemma setitem_ok D r c i j d :
  Np.has_shape D r c → (i < r)%nat → (j < c)%nat →
  ∃ D', Np.setitem D i j d = Ok D' ∧ Np.has_shape D' r c ∧
        ∀ a b, Np.entry D' a b =
               if decide (a = i ∧ b = j) then d else Np.entry D a b.
Proof.
  intros HD Hi Hj. unfold Np.setitem.
  destruct (lookup_lt_is_Some_2 D i) as [row_i Hrow]; [by rewrite (proj1 HD) |].
  pose proof (has_shape_lookup _ _ _ _ _ HD Hrow) as Hlen.
  rewrite Hrow, decide_True by lia.
  eexists. split; [done |]. split.
  - destruct HD as [Hr Hall]. split; [by rewrite length_insert |].
    apply Forall_insert; [done |]. by rewrite length_insert.
  - intros a b. unfold Np.entry.
    destruct (decide (a = i)) as [->|Hai].
    + rewrite list_lookup_insert_eq by (by rewrite (proj1 HD)). simpl.
      rewrite Hrow. simpl.
      destruct (decide (b = j)) as [->|Hbj].
      * rewrite decide_True by done. by rewrite list_lookup_insert_eq by lia.
      * rewrite decide_False by (by intros [_ ?]).
        by rewrite list_lookup_insert_ne.
    + rewrite decide_False by (by intros [? _]).
      by rewrite list_lookup_insert_ne.
Qed.

Lemma dm_inv_zeros n : dm_inv n (Np.zeros n n).
Proof.
  split; [apply zeros_has_shape |].
  split; intros; by rewrite !entry_zeros.
Qed.

Lemma dm_inner_ok coordinates n i c_i st j :
  length coordinates = n → dm_inv n st.1 → (i < j < n)%nat →
  ∃ D', dm_inner coordinates i c_i st j = Ok (D', st.2 ++ [(i, j); (j, i)]) ∧
        dm_inv n D'.
Proof.
  intros Hlen (Hshape & Hsym & Hdiag) Hij. unfold dm_inner.
  destruct (lookup_lt_is_Some_2 coordinates j) as [c_j ->]; [lia |].
  destruct (setitem_ok st.1 n n i j (distfunc c_i c_j) Hshape)
    as (D1 & -> & Hshape1 & Hent1); [lia.. |]. simpl.
  destruct (setitem_ok D1 n n j i (distfunc c_i c_j) Hshape1)
    as (D2 & -> & Hshape2 & Hent2); [lia.. |]. simpl.
  eexists. split; [done |]. split; [done |]. split.
  - intros a b. rewrite !Hent2, !Hent1.
    repeat case_decide; try done; lia.
  - intros a. rewrite Hent2, Hent1.
    repeat case_decide; try done; lia.
Qed.

Lemma dm_inner_loop coordinates n i c_i js : ∀ st,
  length coordinates = n → dm_inv n st.1 → Forall (λ j, i < j < n)%nat js →
  ∃ D', rfold (dm_inner coordinates i c_i) st js =
          Ok (D', st.2 ++ (js ≫= λ j, [(i, j); (j, i)])) ∧
        dm_inv n D'.
Proof.
  induction js as [|j js IH]; intros st Hlen Hinv Hjs.
  - exists st.1. simpl. rewrite app_nil_r. by destruct st.
  - inversion_clear Hjs as [|? ? Hj Hjs'].
    destruct (dm_inner_ok coordinates n i c_i st j Hlen Hinv Hj) as (D1 & HD1 & Hinv1).
    simpl. rewrite HD1. simpl.
    destruct (IH (D1, st.2 ++ [(i, j); (j, i)]) Hlen Hinv1 Hjs') as (D' & HD' & Hinv').
    exists D'. split; [|done]. rewrite HD'. simpl. by rewrite <- app_assoc.
Qed.

Lemma range_bounds a n : Forall (λ j, a ≤ j < n)%nat (range a n).
Proof.
  apply Forall_forall. intros j Hj. unfold range in Hj.
  apply elem_of_seq in Hj. lia.
Qed.

Lemma dm_outer_loop coordinates n origins : ∀ st,
  length coordinates = n → dm_inv n st.1 → Forall (λ i, i < n)%nat origins →
  ∃ D', rfold (dm_outer coordinates n) st origins =
          Ok (D', st.2 ++ cells_of_origins n origins) ∧
        dm_inv n D'.
Proof.
  induction origins as [|i origins IH]; intros st Hlen Hinv Horigins.
  - exists st.1. simpl. unfold cells_of_origins. simpl.
    rewrite app_nil_r. by destruct st.
  - inversion_clear Horigins as [|? ? Hi Horigins'].
    simpl. unfold dm_outer at 1.
    destruct (lookup_lt_is_Some_2 coordinates i) as [c_i ->]; [lia |].
    destruct (dm_inner_loop coordinates n i c_i (range (i + 1) n) st Hlen Hinv)
      as (D1 & -> & Hinv1).
    { eapply Forall_impl; [apply range_bounds |]. simpl. lia. }
    simpl.
    destruct (IH (D1, st.2 ++ (range (i + 1) n ≫= λ j, [(i, j); (j, i)]))
                Hlen Hinv1 Horigins') as (D' & -> & Hinv').
    exists D'. split; [|done]. simpl. unfold cells_of_origins.
    by rewrite <- app_assoc.
Qed.

Lemma compute_distance_matrix_cells_ok tess origins :
  Forall (λ i, i < len tess)%nat origins →
  ∃ D, compute_distance_matrix_cells tess origins =
         Ok (D, cells_of_origins (len tess) origins) ∧
       dm_inv (len tess) D.
Proof.
  intros Horigins. unfold compute_distance_matrix_cells.
  destruct (dm_outer_loop (geometry tess) (len tess) origins
              (Np.zeros (len tess) (len tess), []) eq_refl
              (dm_inv_zeros _) Horigins) as (D & HD & Hinv).
  by exists D.
Qed.

Lemma compute_distance_matrix_ok tess origins :
  Forall (λ i, i < len tess)%nat origins →
  ∃ D, compute_distance_matrix tess origins = Ok D ∧ dm_inv (len tess) D.
Proof.
  intros Horigins.
  destruct (compute_distance_matrix_cells_ok tess origins Horigins)
    as (D & HD & Hinv).
  exists D. unfold compute_distance_matrix. by rewrite HD.
Qed.
End DistanceFacts.
Section Counting.
Context {A : Type} `{EqDecision A}.
Implicit Types (x : A) (l k : list A).

Lemma occurrences_nil x : occurrences x [] = 0%nat.
Proof. done. Qed.

Lemma occurrences_cons x y l :
  occurrences x (y :: l) = ((if decide (y = x) then 1 else 0) + occurrences x l)%nat.
Proof.
  unfold occurrences. rewrite filter_cons. by case_decide.
Qed.

Lemma occurrences_app x l k :
  occurrences x (l ++ k) = (occurrences x l + occurrences x k)%nat.
Proof. unfold occurrences. by rewrite filter_app, length_app. Qed.

Lemma occurrences_not_in x l : x ∉ l → occurrences x l = 0%nat.
Proof.
  induction l as [|y l IH]; [done |]. intros Hx.
  apply not_elem_of_cons in Hx as [Hxy Hxl].
  rewrite occurrences_cons, IH by done. by rewrite decide_False.
Qed.

Lemma occurrences_NoDup x l : NoDup l → x ∈ l → occurrences x l = 1%nat.
Proof.
  induction 1 as [|y l Hy Hl IH]; [by intros ?%elem_of_nil |].
  intros Hx. rewrite occurrences_cons.
  apply elem_of_cons in Hx as [->|Hx].
  - rewrite decide_True by done. by rewrite occurrences_not_in.
  - rewrite decide_False by (intros ->; done). by rewrite IH.
Qed.

Lemma occurrences_zero x l : occurrences x l = 0%nat → x ∉ l.
Proof.
  induction l as [|y l IH]; [intros _; apply not_elem_of_nil |].
  rewrite occurrences_cons. case_decide; [done |]. simpl. intros Hl.
  apply not_elem_of_cons. split; [done | by apply IH].
Qed.
End Counting.

Section CellCounts.
Implicit Types (i j o n : nat).

(** The cells assigned for one origin [o]. *)
Lemma occurrences_row_cells o js a b :
  NoDup js → Forall (λ j, o < j)%nat js → (a < b)%nat →
  occurrences (a, b) (js ≫= λ j, [(o, j); (j, o)]) =
    (if decide (a = o ∧ b ∈ js) then 1 else 0)%nat ∧
  occurrences (b, a) (js ≫= λ j, [(o, j); (j, o)]) =
    (if decide (a = o ∧ b ∈ js) then 1 else 0)%nat.
Proof.
  intros Hnd Hjs Hab. induction Hnd as [|j js Hj Hnd IH].
  - simpl. rewrite decide_False; [done |]. intros [_ ?%elem_of_nil]. done.
  - inversion_clear Hjs as [|? ? Hoj Hjs'].
    destruct (IH Hjs') as [IH1 IH2].
    change ((j :: js) ≫= λ j, [(o, j); (j, o)])
      with ([(o, j); (j, o)] ++ (js ≫= λ j, [(o, j); (j, o)])).
    rewrite !occurrences_app, IH1, IH2, !occurrences_cons, !occurrences_nil.
    split.
    + rewrite (decide_False (P := (j, o) = (a, b))) by (intros [= -> ->]; lia).
      destruct (decide (j = b)) as [->|Hjb].
      * destruct (decide (a = o)) as [->|Hao].
        -- rewrite decide_True by done.
           rewrite (decide_False (P := _ ∧ b ∈ js)) by (by intros [_ ?]).
           rewrite decide_True; [done |]. split; [done | by left].
        -- rewrite decide_False by (by intros [= ->]).
           rewrite !decide_False by (by intros [? _]). done.
      * rewrite decide_False by (by intros [= _ ?]). simpl.
        apply decide_ext. rewrite elem_of_cons.
        split; [intros [? ?]; auto | intros [? [?|?]]; [congruence | auto]].
    + rewrite (decide_False (P := (o, j) = (b, a))) by (intros [= -> ->]; lia).
      destruct (decide (j = b)) as [->|Hjb].
      * destruct (decide (a = o)) as [->|Hao].
        -- rewrite decide_True by done.
           rewrite (decide_False (P := _ ∧ b ∈ js)) by (by intros [_ ?]).
           rewrite decide_True; [done |]. split; [done | by left].
        -- rewrite decide_False by (by intros [= ->]).
           rewrite !decide_False by (by intros [? _]). done.
      * rewrite decide_False by (by intros [= ? _]). simpl.
        apply decide_ext. rewrite elem_of_cons.
        split; [intros [? ?]; auto | intros [? [?|?]]; [congruence | auto]].
Qed.

Lemma cells_of_origins_cons n o origins :
  cells_of_origins n (o :: origins) =
  (range (o + 1) n ≫= λ j, [(o, j); (j, o)]) ++ cells_of_origins n origins.
Proof. done. Qed.

(** Both cells of the pair [{i, j}], [i < j], are assigned once for
    each occurrence of [i] among the origins. *)
Lemma occurrences_cells n origins i j :
  (i < j < n)%nat →
  occurrences (i, j) (cells_of_origins n origins) = occurrences i origins ∧
  occurrences (j, i) (cells_of_origins n origins) = occurrences i origins.
Proof.
  intros Hij. induction origins as [|o origins [IH1 IH2]]; [done |].
  rewrite cells_of_origins_cons, !occurrences_app, IH1, IH2, occurrences_cons.
  destruct (occurrences_row_cells o (range (o + 1) n) i j) as [-> ->].
  - apply NoDup_seq.
  - eapply Forall_impl; [apply range_bounds |]. simpl. lia.
  - lia.
  - assert (Decision (i = o ∧ j ∈ range (o + 1) n)) as Hdec by apply _.
    destruct (decide (o = i)) as [->|Hne].
    + rewrite decide_True; [done |]. split; [done |].
      unfold range. apply elem_of_seq. lia.
    + rewrite decide_False; [done |]. by intros [-> _].
Qed.

(** No cell of the diagonal is assigned. *)
Lemma diagonal_not_assigned n origins i : (i, i) ∉ cells_of_origins n origins.
Proof.
  unfold cells_of_origins. intros Hin.
  apply list_elem_of_bind in Hin as (o & Hin & _).
  apply list_elem_of_bind in Hin as (j & Hin & Hj).
  unfold range in Hj. apply elem_of_seq in Hj.
  apply elem_of_cons in Hin as [Heq|Hin]; [simplify_eq; lia |].
  apply list_elem_of_singleton in Hin. simplify_eq. lia.
Qed.
End CellCounts.

Section DistanceMatrixTheorem.
Context `{External}.

(** C7, as the code has it. For every tessellation and every list of
    origin indices below the number of locations,
    [compute_distance_matrix] returns a square matrix that is symmetric
    and zero on its diagonal.  No diagonal cell is assigned, and for
    [i < j] the cells [(i, j)] and [(j, i)] are each assigned once for
    every occurrence of [i] among the origins: exactly once when the
    origins have no repetition and contain [i] (so every pair, when the
    origins are all indices, as in [generate]), and never when [i] is
    not an origin. *)
Theorem compute_distance_matrix_symmetric tess origins :
  Forall (λ i, i < len tess)%nat origins →
  ∃ D, compute_distance_matrix tess origins = Ok D ∧
       Np.has_shape D (len tess) (len tess) ∧
       (∀ i j, Np.entry D i j = Np.entry D j i) ∧
       (∀ i, Np.entry D i i = Num.zero) ∧
       let cells := distance_matrix_writes tess origins in
       (∀ i, (i, i) ∉ cells) ∧
       (∀ i j, (i < j < len tess)%nat →
          occurrences (i, j) cells = occurrences i origins ∧
          occurrences (j, i) cells = occurrences i origins) ∧
       (NoDup origins → ∀ i j, (i < j < len tess)%nat →
          (i ∈ origins →
             occurrences (i, j) cells = 1%nat ∧ occurrences (j, i) cells = 1%nat) ∧
          (i ∉ origins → ((i, j) ∉ cells) ∧ ((j, i) ∉ cells))).
Proof.
  intros Horigins.
  destruct (compute_distance_matrix_cells_ok tess origins Horigins)
    as (D & HD & Hshape & Hsym & Hdiag).
  exists D. unfold compute_distance_matrix, distance_matrix_writes.
  rewrite HD. simpl. do 4 (split; [done |]).
  split; [apply diagonal_not_assigned |]. split.
  - intros i j Hij. by apply occurrences_cells.
  - intros Hnd i j Hij.
    destruct (occurrences_cells (len tess) origins i j Hij) as [-> ->].
    split.
    + intros Hi. by rewrite occurrences_NoDup.
    + intros Hi.
      destruct (occurrences_cells (len tess) origins i j Hij) as [H1 H2].
      rewrite (occurrences_not_in i origins Hi) in H1, H2.
      split; by apply occurrences_zero.
Qed.
End DistanceMatrixTheorem.

(** ** The calibration data builder (C3, C6, C10) *)

Section IndexFacts.
Implicit Types (ids : list string) (t : string) (i : nat).

Lemma tileid_index_snoc ids t :
  tileid_index (ids ++ [t]) = <[t := length ids]> (tileid_index ids).
Proof.
  unfold tileid_index. rewrite imap_app, foldl_app. simpl.
  by rewrite Nat.add_0_r.
Qed.

(** An index found in the dictionary is a position of the identifier. *)
Lemma tileid_index_lookup ids t i :
  tileid_index ids !! t = Some i → ids !! i = Some t.
Proof.
  revert i. induction ids as [|t' ids IH] using rev_ind; intros i.
  - unfold tileid_index. simpl. by rewrite lookup_empty.
  - rewrite tileid_index_snoc.
    destruct (decide (t' = t)) as [->|Hne].
    + rewrite lookup_insert_eq. intros [= <-].
      by rewrite lookup_app_r, Nat.sub_diag.
    + rewrite lookup_insert_ne by done. intros Hi.
      apply IH in Hi. rewrite lookup_app_l; [done |]. by eapply lookup_lt_Some.
Qed.

Lemma tileid_index_lookup_lt ids t i :
  tileid_index ids !! t = Some i → (i < length ids)%nat.
Proof. intros Hi. eapply lookup_lt_Some. by apply tileid_index_lookup. Qed.

Lemma tileid_index_None ids t : tileid_index ids !! t = None ↔ t ∉ ids.
Proof.
  induction ids as [|t' ids IH] using rev_ind.
  - unfold tileid_index. simpl. rewrite lookup_empty.
    split; [intros _; apply not_elem_of_nil | done].
  - rewrite tileid_index_snoc, not_elem_of_app, <- IH.
    destruct (decide (t' = t)) as [->|Hne].
    + rewrite lookup_insert_eq. split; [done |].
      intros [_ Ht]. exfalso. apply Ht. by apply list_elem_of_singleton.
    + rewrite lookup_insert_ne by done. split; [|by intros [? _]].
      intros Hnone. split; [done |]. by intros ?%list_elem_of_singleton.
Qed.

(** With pairwise distinct identifiers the dictionary maps each
    identifier to its position and has one entry per location. *)
Lemma tileid_index_NoDup ids t i :
  NoDup ids → ids !! i = Some t → tileid_index ids !! t = Some i.
Proof.
  intros Hnd Hi.
  destruct (tileid_index ids !! t) as [i'|] eqn:Hlook.
  - apply tileid_index_lookup in Hlook. f_equal.
    by eapply NoDup_lookup.
  - apply tileid_index_None in Hlook. exfalso. apply Hlook.
    by eapply list_elem_of_lookup_2.
Qed.

Lemma tileid_index_size ids : NoDup ids → size (tileid_index ids) = length ids.
Proof.
  induction ids as [|t ids IH] using rev_ind; intros Hnd.
  - unfold tileid_index. simpl. apply map_size_empty.
  - apply NoDup_app in Hnd as (Hnd & Hnot & _).
    rewrite tileid_index_snoc, map_size_insert_None, IH, length_app by
      (done || (apply tileid_index_None; intros Hin; eapply Hnot; [done |];
                by apply list_elem_of_singleton)).
    simpl. lia.
Qed.
End IndexFacts.
Section TrainingSet.
Context `{Elementary} `{External}.

(** One call of [_update_training_set] during [fit], case by case. *)
Lemma update_training_set_run tess v ids X_ y_ w r :
  calibrating tess v ids X_ y_ w →
  _update_training_set r w =
    if bool_decide (origin r = destination r) then (Ok tt, w) else
    match tileid_index ids !! origin r with
    | None => (Ok tt, with_event (Printed (missing_warning (origin r))) w)
    | Some i_o =>
      match geometry tess !! i_o, fillna0 v !! i_o with
      | Some c_o, Some w_o =>
        match tileid_index ids !! destination r with
        | None => (Ok tt, with_event (Printed (missing_warning (destination r))) w)
        | Some i_d =>
          match geometry tess !! i_d, fillna0 v !! i_d with
          | Some c_d, Some w_d =>
            if Num.le w_d Num.zero then (Ok tt, w) else
            match (if globally (self w) then Ok [Num.log w_o]
                   else ci i_o (size (tileid_index ids))) with
            | Ok sc_vars =>
                (Ok tt,
                 {| self :=
                      set_y (Some (y_ ++ [flow r]))
                        (set_X (Some (X_ ++
                           [[Num.one] ++ sc_vars ++
                            [Num.log w_d;
                             deterrence_term (self w) (distfunc c_o c_d)]]))
                           (self w));
                    trace := trace w; random := random w |})
            | Raise e => (Raise e, w)
            end
          | _, _ => (Raise IndexError, w)
          end
        end
      | _, _ => (Raise IndexError, w)
      end
    end.
Proof.
  intros (Hll & Hws & Hindex & HX & Hy). unfold _update_training_set.
  case_bool_decide; [done |].
  unfold bind at 1, getattr at 1. rewrite Hll.
  unfold bind at 1, getattr at 1. rewrite Hindex.
  destruct (tileid_index ids !! origin r) as [i_o|]; [|done].
  unfold bind at 1, lift at 1, getitem at 1.
  destruct (geometry tess !! i_o) as [c_o|]; [|by destruct (fillna0 v !! i_o)].
  unfold bind at 1, getattr at 1. rewrite Hws.
  unfold bind at 1, lift at 1, column_getitem at 1.
  destruct (fillna0 v !! i_o) as [w_o|]; [|done].
  destruct (tileid_index ids !! destination r) as [i_d|]; [|done].
  unfold bind at 1, lift at 1, getitem at 1.
  destruct (geometry tess !! i_d) as [c_d|]; [|by destruct (fillna0 v !! i_d)].
  unfold bind at 1, lift at 1, column_getitem at 1.
  destruct (fillna0 v !! i_d) as [w_d|]; [|done].
  unfold bind at 1, lift at 1, cell_le_zero at 1.
  destruct (Num.le w_d Num.zero); [done |].
  unfold bind at 1, get_self at 1. unfold bind at 1.
  destruct (globally (self w)).
  - unfold bind at 1, lift at 1, cell_log at 1, ret at 1.
    unfold bind at 1, getattr at 1. rewrite HX.
    unfold bind at 1, lift at 1, cell_log at 1.
    unfold bind at 1. simpl. unfold bind at 1, getattr at 1. simpl.
    by rewrite Hy.
  - unfold lift at 1.
    destruct (ci i_o (size (tileid_index ids))) as [sc_vars|e]; [|done].
    unfold bind at 1, getattr at 1. rewrite HX.
    unfold bind at 1, lift at 1, cell_log at 1.
    unfold bind at 1. simpl. unfold bind at 1, getattr at 1. simpl.
    by rewrite Hy.
Qed.
End TrainingSet.
Section NumFacts.
Context `{Elementary}.

Lemma gt_zero_not_le x : Num.gt x Num.zero = true → Num.le x Num.zero = false.
Proof.
  destruct x as [q| | |]; try done. unfold Num.gt, Num.lt, Num.le, Num.zero.
  rewrite <- (Qcompare_antisym q 0). by destruct (q ?= 0).
Qed.

(** [np.log] of a relevance that is zero or negative is minus infinity
    or NaN. *)
Lemma log_nonpositive x :
  Num.le x Num.zero = true → Num.isfinite (Num.log x) = false.
Proof.
  destruct x as [q| | |]; try done. unfold Num.le, Num.log, Num.sgn, Num.zero.
  by destruct (q ?= 0).
Qed.
End NumFacts.

Section CiFacts.
Lemma ci_ok i n : (i < n)%nat → ci i n = Ok (<[i := Num.one]> (replicate n Num.zero)).
Proof. intros Hi. unfold ci. by rewrite decide_True. Qed.

(** The list [ci] returns: [n] cells, a one at [i], zeros elsewhere. *)
Lemma one_hot_lookup i n k :
  (i < n)%nat → (k < n)%nat →
  <[i := Num.one]> (replicate n Num.zero) !! k =
    Some (if decide (k = i) then Num.one else Num.zero).
Proof.
  intros Hi Hk. case_decide as Hki.
  - subst k. apply list_lookup_insert_eq. by rewrite length_replicate.
  - rewrite list_lookup_insert_ne by done. by apply lookup_replicate_2.
Qed.
End CiFacts.

Section TrainingSetTheorems.
Context `{Elementary} `{External}.

Lemma frame_wf_lengths tess relevance_column v ids :
  frame_wf tess →
  num_columns tess !! relevance_column = Some v →
  id_columns tess !! TILE_ID = Some ids →
  length ids = len tess ∧ length (fillna0 v) = len tess.
Proof.
  intros [Hid Hnum] Hv Hids. split; [by eapply Hid |].
  unfold fillna0. rewrite length_fmap. by eapply Hnum.
Qed.

(** An index of the dictionary addresses a centroid and a relevance. *)
Lemma indexed_location tess relevance_column v ids t i :
  frame_wf tess →
  num_columns tess !! relevance_column = Some v →
  id_columns tess !! TILE_ID = Some ids →
  tileid_index ids !! t = Some i →
  ∃ c r, geometry tess !! i = Some c ∧ fillna0 v !! i = Some r.
Proof.
  intros Hwf Hv Hids Hi.
  destruct (frame_wf_lengths _ _ _ _ Hwf Hv Hids) as [Hlen1 Hlen2].
  apply tileid_index_lookup_lt in Hi.
  destruct (lookup_lt_is_Some_2 (geometry tess) i) as [c Hc]; [unfold len in *; lia |].
  destruct (lookup_lt_is_Some_2 (fillna0 v) i) as [r Hr]; [lia |].
  eauto.
Qed.

(** C6. During [fit] a flow record is skipped, that is, the call returns
    without an exception and without appending a design row or a
    response, so that the loop goes on with the next record, if and only
    if its origin equals its destination, or its origin or its
    destination is absent from the id-to-index dictionary, or the
    relevance of its destination is [<= 0]. *)
Theorem record_skipped_iff tess relevance_column v ids X_ y_ w r :
  frame_wf tess →
  num_columns tess !! relevance_column = Some v →
  id_columns tess !! TILE_ID = Some ids →
  calibrating tess v ids X_ y_ w →
  skipped (_update_training_set r) w ↔
    origin r = destination r ∨
    tileid_index ids !! origin r = None ∨
    tileid_index ids !! destination r = None ∨
    ∃ i w_d, tileid_index ids !! destination r = Some i ∧
             fillna0 v !! i = Some w_d ∧
             Num.le w_d Num.zero = true.
Proof.
  intros Hwf Hv Hids Hcal. unfold skipped.
  rewrite (update_training_set_run _ _ _ _ _ _ _ Hcal).
  case_bool_decide as Hod; [split; [by left | by eexists] |].
  destruct (tileid_index ids !! origin r) as [i_o|] eqn:Hio;
    [|split; [by right; left | by eexists]].
  destruct (indexed_location _ _ _ _ _ _ Hwf Hv Hids Hio) as (c_o & w_o & -> & ->).
  destruct (tileid_index ids !! destination r) as [i_d|] eqn:Hid;
    [|split; [by right; right; left | by eexists]].
  destruct (indexed_location _ _ _ _ _ _ Hwf Hv Hids Hid) as (c_d & w_d & -> & Hwd).
  rewrite Hwd.
  destruct (Num.le w_d Num.zero) eqn:Hle.
  { split; [|by eexists]. intros _. right; right; right. by exists i_d, w_d. }
  split.
  - intros (w' & Hrun & Hself). exfalso.
    destruct (if globally (self w) then _ else _) as [sc_vars|e]; [|done].
    injection Hrun as <-. simpl in Hself.
    destruct Hcal as (_ & _ & _ & HX & _).
    apply (f_equal X) in Hself. simpl in Hself. rewrite HX in Hself.
    injection Hself as Hself.
    apply (f_equal length) in Hself. rewrite length_app in Hself. simpl in Hself. lia.
  - intros [?|[?|[?|(i & w_d' & [= <-] & Hwd' & Hle')]]]; try done.
    rewrite Hwd in Hwd'. injection Hwd' as <-. congruence.
Qed.
End TrainingSetTheorems.
Section TrainingSetTheorems2.
Context `{Elementary} `{External}.

(** The state in which [fit] enters its loop over the flow records. *)
Lemma fit_starts_calibrating flow_df w v ids :
  calibrating (tessellation flow_df) v ids [] []
    {| self :=
         set_y (Some []) (set_X (Some [])
           (set_tileid2index (Some (tileid_index ids))
             (set_weights (Some (Numbers (fillna0 v)))
               (set_lats_lngs (Some (geometry (tessellation flow_df))) (self w)))));
       trace := trace w; random := random w |}.
Proof. done. Qed.

(** A record that is neither skipped nor faulty appends one row and one
    response, and the loop goes on in a calibrating state. *)
Lemma valid_record_run tess relevance_column v ids X_ y_ w r i_o i_d w_d :
  frame_wf tess →
  num_columns tess !! relevance_column = Some v →
  id_columns tess !! TILE_ID = Some ids →
  calibrating tess v ids X_ y_ w →
  (_gravity_type (self w) ≠ "globally constrained" → NoDup ids) →
  origin r ≠ destination r →
  tileid_index ids !! origin r = Some i_o →
  tileid_index ids !! destination r = Some i_d →
  fillna0 v !! i_d = Some w_d →
  Num.gt w_d Num.zero = true →
  ∃ c_o c_d w_o,
    geometry tess !! i_o = Some c_o ∧ geometry tess !! i_d = Some c_d ∧
    fillna0 v !! i_o = Some w_o ∧
    _update_training_set r w =
      (Ok tt,
       {| self :=
            set_y (Some (y_ ++ [flow r]))
              (set_X (Some (X_ ++
                 [[Num.one] ++
                  (if globally (self w) then [Num.log w_o]
                   else <[i_o := Num.one]> (replicate (len tess) Num.zero)) ++
                  [Num.log w_d; deterrence_term (self w) (distfunc c_o c_d)]]))
                 (self w));
          trace := trace w; random := random w |}).
Proof.
  intros Hwf Hv Hids Hcal Hnd Hod Hio Hid Hwd Hpos.
  rewrite (update_training_set_run _ _ _ _ _ _ _ Hcal).
  rewrite bool_decide_eq_false_2 by done. rewrite Hio, Hid.
  destruct (indexed_location _ _ _ _ _ _ Hwf Hv Hids Hio) as (c_o & w_o & Hco & Hwo).
  destruct (indexed_location _ _ _ _ _ _ Hwf Hv Hids Hid) as (c_d & w_d' & Hcd & Hwd').
  rewrite Hwd in Hwd'. injection Hwd' as <-.
  exists c_o, c_d, w_o. do 3 (split; [done |]).
  rewrite Hco, Hwo, Hcd, Hwd, (gt_zero_not_le _ Hpos).
  destruct (globally (self w)) eqn:Hglob; [done |].
  destruct (frame_wf_lengths _ _ _ _ Hwf Hv Hids) as [Hlen _].
  rewrite tileid_index_size, Hlen; last first.
  { apply Hnd. unfold globally in Hglob. by apply bool_decide_eq_false_1 in Hglob. }
  rewrite ci_ok; [done |]. rewrite <- Hlen. by eapply tileid_index_lookup_lt.
Qed.

(** C3, as the code has it. During [fit] on a tessellation whose tile
    identifiers are pairwise distinct (which only matters outside the
    globally constrained regime), a record that passes the filters
    (origin and destination differ, both are in the id-to-index
    dictionary, the relevance of the destination is [> 0]) appends
    exactly one row to the design matrix and one value, its flow, to the
    responses.  Under
    the globally constrained regime the row is
    [[1, log(origin relevance), log(destination relevance), term]]; under
    the singly constrained regime it is [[1]], then a list with one cell
    per location that holds a one at the index of the origin and zeros
    elsewhere, then [[log(destination relevance), term]].  The term is
    the negated distance for the exponential kind and the logarithm of
    the distance for the power-law kind. *)
Theorem valid_record_appends_row tess relevance_column v ids X_ y_ w r
    i_o i_d w_d :
  frame_wf tess →
  num_columns tess !! relevance_column = Some v →
  id_columns tess !! TILE_ID = Some ids →
  calibrating tess v ids X_ y_ w →
  (_gravity_type (self w) ≠ "globally constrained" → NoDup ids) →
  origin r ≠ destination r →
  tileid_index ids !! origin r = Some i_o →
  tileid_index ids !! destination r = Some i_d →
  fillna0 v !! i_d = Some w_d →
  Num.gt w_d Num.zero = true →
  ∃ c_o c_d w_o row term w',
    ids !! i_o = Some (origin r) ∧
    geometry tess !! i_o = Some c_o ∧ geometry tess !! i_d = Some c_d ∧
    fillna0 v !! i_o = Some w_o ∧
    _update_training_set r w = (Ok tt, w') ∧
    X (self w') = Some (X_ ++ [row]) ∧
    y (self w') = Some (y_ ++ [flow r]) ∧
    (_deterrence_func_type (self w) = "exponential" →
       term = Num.neg (distfunc c_o c_d)) ∧
    (_deterrence_func_type (self w) = "power_law" →
       term = Num.log (distfunc c_o c_d)) ∧
    (_gravity_type (self w) = "globally constrained" →
       row = [Num.one; Num.log w_o; Num.log w_d; term]) ∧
    (_gravity_type (self w) = "singly constrained" →
       ∃ one_hot,
         row = [Num.one] ++ one_hot ++ [Num.log w_d; term] ∧
         length one_hot = len tess ∧
         ∀ k, (k < len tess)%nat →
           one_hot !! k = Some (if decide (k = i_o) then Num.one else Num.zero)).
Proof.
  intros Hwf Hv Hids Hcal Hnd Hod Hio Hid Hwd Hpos.
  destruct (valid_record_run _ _ _ _ _ _ _ _ _ _ _ Hwf Hv Hids Hcal Hnd Hod Hio Hid
              Hwd Hpos) as (c_o & c_d & w_o & Hco & Hcd & Hwo & Hrun).
  exists c_o, c_d, w_o. eexists.
  exists (deterrence_term (self w) (distfunc c_o c_d)). eexists.
  split; [by apply tileid_index_lookup |].
  do 3 (split; [done |]). split; [exact Hrun |].
  simpl. do 2 (split; [reflexivity |]).
  assert (i_o < len tess)%nat as Hlt.
  { destruct (frame_wf_lengths _ _ _ _ Hwf Hv Hids) as [<- _].
    by eapply tileid_index_lookup_lt. }
  unfold deterrence_term, globally. repeat split.
  - intros Hkind. by rewrite bool_decide_eq_true_2.
  - intros Hkind. rewrite bool_decide_eq_false_2; [done |]. by rewrite Hkind.
  - intros Hg. by rewrite bool_decide_eq_true_2.
  - intros Hs. rewrite (bool_decide_eq_false_2 (_ = "globally constrained"));
      [|by rewrite Hs].
    eexists. split; [reflexivity |]. split.
    + by rewrite length_insert, length_replicate.
    + intros k Hk. by apply one_hot_lookup.
Qed.

(** C10, as the code has it. During [fit] on a tessellation whose tile
    identifiers are pairwise distinct (which only matters outside the
    globally constrained regime) only the relevance of the destination
    is compared with zero: a record whose origin and destination are in
    the dictionary and differ, and whose destination has a relevance
    [> 0], is appended to the design matrix whatever the relevance of
    its origin is.  Under the globally constrained regime the second cell of
    the appended row is [log(origin relevance)], which is minus infinity
    or NaN, not a finite number, when that relevance is zero or
    negative. *)
Theorem origin_relevance_is_not_checked tess relevance_column v ids X_ y_ w r
    i_o i_d w_d :
  frame_wf tess →
  num_columns tess !! relevance_column = Some v →
  id_columns tess !! TILE_ID = Some ids →
  calibrating tess v ids X_ y_ w →
  (_gravity_type (self w) ≠ "globally constrained" → NoDup ids) →
  origin r ≠ destination r →
  tileid_index ids !! origin r = Some i_o →
  tileid_index ids !! destination r = Some i_d →
  fillna0 v !! i_d = Some w_d →
  Num.gt w_d Num.zero = true →
  ∃ w_o row w',
    fillna0 v !! i_o = Some w_o ∧
    _update_training_set r w = (Ok tt, w') ∧
    X (self w') = Some (X_ ++ [row]) ∧
    y (self w') = Some (y_ ++ [flow r]) ∧
    (_gravity_type (self w) = "globally constrained" →
       row !! 1%nat = Some (Num.log w_o) ∧
       (Num.le w_o Num.zero = true → Num.isfinite (Num.log w_o) = false)).
Proof.
  intros Hwf Hv Hids Hcal Hnd Hod Hio Hid Hwd Hpos.
  destruct (valid_record_run _ _ _ _ _ _ _ _ _ _ _ Hwf Hv Hids Hcal Hnd Hod Hio Hid
              Hwd Hpos) as (c_o & c_d & w_o & Hco & Hcd & Hwo & Hrun).
  exists w_o. do 2 eexists. split; [done |]. split; [exact Hrun |].
  simpl. do 2 (split; [reflexivity |]).
  intros Hg. unfold globally. rewrite bool_decide_eq_true_2 by done.
  split; [done |]. apply log_nonpositive.
Qed.
End TrainingSetTheorems2.

(** ** Singly constrained probabilities (C1) *)

Section SumFacts.
Implicit Types (qs : list Q) (l : list num).

Lemma sum_snoc l x : Num.sum (l ++ [x]) = Num.add (Num.sum l) x.
Proof. unfold Num.sum. by rewrite foldl_app. Qed.

Lemma qsum_snoc qs q : qsum (qs ++ [q]) == qsum qs + q.
Proof.
  induction qs as [|q' qs IH]; simpl; [ring |]. rewrite IH. ring.
Qed.

(** The sum of finite floats is the float of the sum of their values,
    in lowest terms. *)
Lemma sum_fin qs :
  ∃ t, Num.sum (Fin <$> qs) = Fin t ∧ t == qsum qs ∧ Qred t = t.
Proof.
  induction qs as [|q qs (t & Ht & Heq & Hred)] using rev_ind.
  - by exists 0.
  - rewrite fmap_app. simpl. rewrite sum_snoc, Ht. simpl.
    eexists. split; [done |]. split.
    + by rewrite Qred_correct, qsum_snoc, Heq.
    + apply Qred_complete, Qred_correct.
Qed.

Lemma sum_zeros n : Num.sum (replicate n Num.zero) = Num.zero.
Proof.
  unfold Num.sum. induction n as [|n IH]; [done |]. simpl.
  by change (Num.add Num.zero Num.zero) with Num.zero.
Qed.

Lemma qsum_scaled qs s :
  ¬ s == 0 → qsum ((λ q, Qred (q / s)) <$> qs) == qsum qs / s.
Proof.
  intros Hs. induction qs as [|q qs IH]; simpl.
  - by field.
  - rewrite IH, Qred_correct. by field.
Qed.

(** Dividing finite floats by their positive sum gives floats that sum
    to one. *)
Lemma sum_normalized qs s :
  Num.sum (Fin <$> qs) = Fin s → Num.gt (Fin s) Num.zero = true →
  Num.sum ((λ x, Num.div x (Fin s)) <$> (Fin <$> qs)) = Num.one.
Proof.
  intros Hsum Hpos.
  destruct (sum_fin qs) as (t & Ht & Heq & Hred).
  rewrite Hsum in Ht. injection Ht as ->.
  assert (0 < t) as Hlt.
  { unfold Num.gt, Num.lt, Num.zero in Hpos.
    by destruct (0 ?= t) eqn:Hc. }
  assert (Num.sgn t = Gt) as Hsgn.
  { unfold Num.sgn. by apply Qgt_alt. }
  assert ((λ x, Num.div x (Fin t)) <$> (Fin <$> qs)
          = Fin <$> ((λ q, Qred (q / t)) <$> qs)) as ->.
  { rewrite <- !list_fmap_compose. apply list_fmap_ext. intros _ q _. simpl.
    by rewrite Hsgn. }
  destruct (sum_fin ((λ q, Qred (q / t)) <$> qs)) as (u & -> & Hu & Hured).
  unfold Num.one. f_equal. rewrite <- Hured.
  change 1 with (Qred 1). apply Qred_complete.
  rewrite Hu, qsum_scaled, <- Heq.
  - field. intros Hz. rewrite Hz in Hlt. by apply Qlt_irrefl in Hlt.
  - intros Hz. rewrite Hz in Hlt. by apply Qlt_irrefl in Hlt.
Qed.
End SumFacts.
Section NormalizeFacts.
Implicit Types (M P R : Np.matrix) (i j n : nat).

Lemma row_as_entries M r c i :
  Np.has_shape M r c → (i < r)%nat →
  Np.row M i = (λ j, Np.entry M i j) <$> seq 0 c.
Proof.
  intros HM Hi. unfold Np.row.
  destruct (lookup_lt_is_Some_2 M i) as [row_i Hrow]; [by rewrite (proj1 HM) |].
  rewrite Hrow. simpl.
  pose proof (has_shape_lookup _ _ _ _ _ HM Hrow) as Hlen.
  apply list_eq. intros j. rewrite list_lookup_fmap.
  destruct (decide (j < c)%nat) as [Hj|Hj].
  - rewrite lookup_seq_lt by done. simpl.
    destruct (lookup_lt_is_Some_2 row_i j) as [x Hx]; [lia |].
    by rewrite Hx, (entry_lookup _ _ _ _ _ Hrow Hx).
  - rewrite lookup_seq_ge by lia. apply lookup_ge_None_2. lia.
Qed.

Lemma length_sum_axis0 M : length (Np.sum_axis0 M) = Np.ncols M.
Proof. unfold Np.sum_axis0. by rewrite length_fmap, length_seq. Qed.

Lemma lookup_sum_axis0 M j :
  (j < Np.ncols M)%nat → Np.sum_axis0 M !! j = Some (Num.sum (Np.column M j)).
Proof.
  intros Hj. unfold Np.sum_axis0. by rewrite list_lookup_fmap, lookup_seq_lt.
Qed.

Lemma entry_transpose M r c i j :
  Np.has_shape M r c → Np.ncols M = c → (i < c)%nat → (j < r)%nat →
  Np.entry (Np.transpose M) i j = Np.entry M j i.
Proof.
  intros HM Hc Hi Hj. unfold Np.transpose.
  rewrite Hc, (has_shape_nrows _ _ _ HM). by rewrite entry_tabulate.
Qed.

(** [np.transpose(P / np.sum(P, axis=0))] for a square array: entry
    [(i, j)] is the entry [(j, i)] of [P] divided by the sum of column
    [i] of [P]. *)
Lemma singly_normalize_entries P n :
  Np.has_shape P n n → Np.ncols P = n →
  ∃ R, singly_normalize P = Ok R ∧ Np.has_shape R n n ∧
       ∀ i j, (i < n)%nat → (j < n)%nat →
         Np.entry R i j = Num.div (Np.entry P j i) (Num.sum (Np.column P i)).
Proof.
  intros HP Hc. unfold singly_normalize.
  destruct (broadcast2_row_entry Num.div P (Np.sum_axis0 P) n n HP Hc)
    as (Q & -> & HQ & HcQ & HeQ); [by rewrite length_sum_axis0 |]. simpl.
  eexists. split; [done |]. split.
  - unfold Np.transpose. rewrite HcQ, (has_shape_nrows _ _ _ HQ).
    apply tabulate_has_shape.
  - intros i j Hi Hj. rewrite (entry_transpose _ n n) by done.
    rewrite HeQ by done. by rewrite lookup_sum_axis0 by lia.
Qed.

(** Two arrays of one shape with the same entries are equal. *)
Lemma matrix_ext (A B : Np.matrix) r c :
  Np.has_shape A r c → Np.has_shape B r c →
  (∀ i j, (i < r)%nat → (j < c)%nat → Np.entry A i j = Np.entry B i j) → A = B.
Proof.
  intros HA HB Hentries. apply list_eq. intros i.
  destruct (decide (i < r)%nat) as [Hi|Hi].
  - destruct (lookup_lt_is_Some_2 A i) as [a Ha]; [by rewrite (proj1 HA) |].
    destruct (lookup_lt_is_Some_2 B i) as [b Hb]; [by rewrite (proj1 HB) |].
    rewrite Ha, Hb. f_equal.
    pose proof (has_shape_lookup _ _ _ _ _ HA Ha) as Hla.
    pose proof (has_shape_lookup _ _ _ _ _ HB Hb) as Hlb.
    apply list_eq. intros j.
    destruct (decide (j < c)%nat) as [Hj|Hj].
    + destruct (lookup_lt_is_Some_2 a j) as [x Hx]; [lia |].
      destruct (lookup_lt_is_Some_2 b j) as [z Hz]; [lia |].
      rewrite Hx, Hz. f_equal.
      rewrite <- (entry_lookup _ _ _ _ _ Ha Hx), <- (entry_lookup _ _ _ _ _ Hb Hz).
      by apply Hentries.
    + rewrite !lookup_ge_None_2; [done | lia | lia].
  - rewrite !lookup_ge_None_2; [done | rewrite (proj1 HB); lia | rewrite (proj1 HA); lia].
Qed.
End NormalizeFacts.
Section OutputFacts.
Context `{Elementary} `{External}.
Implicit Types (R : Np.matrix) (ids : list string).

Lemma rfold_records ids i (l : list (nat * num)) :
  (i < length ids)%nat → Forall (λ jf, jf.1 < length ids)%nat l →
  ∀ acc,
    rfold (λ acc (jf : nat * num),
             if Num.gt jf.2 Num.zero then
               rbind (index2tileid ids i) (λ o,
               rbind (index2tileid ids jf.1) (λ d,
               Ok (acc ++ [{| origin := o; destination := d; flow := jf.2 |}])))
             else Ok acc) acc l
    = Ok (acc ++ (l ≫= λ jf,
            if Num.gt jf.2 Num.zero then
              [{| origin := default EmptyString (ids !! i);
                  destination := default EmptyString (ids !! jf.1);
                  flow := jf.2 |}]
            else [])).
Proof.
  intros Hi Hl.
  set (f := λ (acc : list FlowRecord) (jf : nat * num), _).
  set (g := λ jf : nat * num, _).
  destruct (lookup_lt_is_Some_2 ids i Hi) as [o Ho].
  induction Hl as [|jf l Hjf Hl IH]; intros acc.
  - simpl. by rewrite app_nil_r.
  - destruct (lookup_lt_is_Some_2 ids jf.1 Hjf) as [d Hd].
    change (rfold f acc (jf :: l)) with (rbind (f acc jf) (λ s', rfold f s' l)).
    change ((jf :: l) ≫= g) with (g jf ++ (l ≫= g)).
    unfold f at 1, g at 1.
    destruct (Num.gt jf.2 Num.zero).
    + unfold index2tileid. rewrite Ho, Hd. simpl.
      rewrite IH. by rewrite <- app_assoc.
    + simpl. by rewrite IH.
Qed.

Lemma flowdf_row_ok ids R n i :
  Np.has_shape R n n → length ids = n → (i < n)%nat →
  flowdf_row ids R i = Ok (positive_records ids R i).
Proof.
  intros HR Hids Hi. unfold flowdf_row, positive_records, getitem, Np.row.
  destruct (lookup_lt_is_Some_2 R i) as [row_i Hrow]; [by rewrite (proj1 HR) |].
  rewrite Hrow. simpl.
  pose proof (has_shape_lookup _ _ _ _ _ HR Hrow) as Hlen.
  rewrite rfold_records; [done | lia |].
  apply Forall_lookup. intros k jf Hk.
  rewrite list_lookup_imap in Hk.
  destruct (row_i !! k) as [x|] eqn:Hx; [|done].
  injection Hk as <-. simpl. apply lookup_lt_Some in Hx. lia.
Qed.

Lemma output_list_ok ids R n origins :
  Np.has_shape R n n → length ids = n → Forall (λ i, i < n)%nat origins →
  output_list ids R origins = Ok (origins ≫= positive_records ids R).
Proof.
  intros HR Hids Horigins. unfold output_list.
  assert (∀ acc,
    rfold (λ acc i, rbind (flowdf_row ids R i) (λ rs, Ok (acc ++ rs))) acc origins
    = Ok (acc ++ (origins ≫= positive_records ids R))) as Hgen; [|apply Hgen].
  induction Horigins as [|i origins Hi Horigins IH]; intros acc; simpl.
  - by rewrite app_nil_r.
  - rewrite (flowdf_row_ok _ _ n) by done. simpl.
    rewrite IH. by rewrite <- app_assoc.
Qed.

Lemma from_matrix_to_flowdf_run R origins tess w tile_id_column ids records :
  _tile_id_column (self w) = Some tile_id_column →
  id_columns tess !! tile_id_column = Some ids →
  output_list ids R origins = Ok records →
  _from_matrix_to_flowdf R origins tess w =
    (new_FlowDataFrame records tile_id_column tess, w).
Proof.
  intros Hcol Hids Hout. unfold _from_matrix_to_flowdf.
  unfold bind at 1, getattr at 1. rewrite Hcol.
  unfold bind at 1, lift at 1, id_values. rewrite Hids.
  unfold bind at 1, lift at 1. by rewrite Hout.
Qed.

(** The square matrix of raw scores that [generate] computes. *)
Lemma gravity_scores_ok g tess relevances a :
  _deterrence_func_args g = [a] → length relevances = len tess →
  ∃ D P, compute_distance_matrix tess (seq 0 (len tess)) = Ok D ∧
         compute_gravity_score g D relevances relevances = Ok P ∧
         gravity_scores g tess relevances = Ok P ∧
         Np.has_shape P (len tess) (len tess) ∧ Np.ncols P = len tess ∧
         ∀ i j, Np.entry P i j = Fin (to_Q (Np.entry P i j)).
Proof.
  intros Hargs Hlen.
  destruct (compute_distance_matrix_ok tess (seq 0 (len tess)))
    as (D & HD & HshapeD & _).
  { apply Forall_forall. intros i Hi. apply elem_of_seq in Hi. lia. }
  assert (Np.ncols D = len tess) as HcD.
  { destruct (decide (0 < len tess)%nat); [by eapply has_shape_ncols |].
    destruct HshapeD as [Hr _]. destruct D; [unfold Np.ncols; simpl; lia |].
    simpl in Hr. lia. }
  destruct (compute_gravity_score_run g D relevances relevances a Hargs)
    as (T & HP & HshapeT & _); [by rewrite Hlen..|].
  rewrite Hlen in HshapeT.
  set (P := Np.putmask Num.isinf Num.zero (Np.putmask Num.isnan Num.zero T)) in *.
  assert (Np.has_shape P (len tess) (len tess)) as HshapeP
    by by do 2 apply putmask_has_shape.
  exists D, P. unfold gravity_scores. rewrite HD. simpl.
  do 4 (split; [done |]). split.
  - destruct (decide (0 < len tess)%nat); [by eapply has_shape_ncols |].
    destruct HshapeP as [Hr _]. destruct P; [unfold Np.ncols; simpl; lia |].
    simpl in Hr. lia.
  - intros i j. pose proof (entry_putmask_finite T i j) as Hfin.
    fold P in Hfin. by destruct (Np.entry P i j).
Qed.
End OutputFacts.
Section SinglyProbabilities.
Context `{Elementary} `{External}.

Lemma bind_nil_all {A B} (l : list A) (g : A → list B) :
  (∀ x, x ∈ l → g x = []) → l ≫= g = [].
Proof.
  induction l as [|x l IH]; intros Hg; [done |].
  change ((x :: l) ≫= g) with (g x ++ (l ≫= g)).
  rewrite Hg by by left. rewrite IH; [done |].
  intros y Hy. apply Hg. by right.
Qed.

(** The run of a singly constrained [generate] with 'probabilities'. *)
Lemma generate_probabilities_singly tess tile_id_column tot_outflows_column
    relevance_column w v ids a :
  frame_wf tess →
  num_columns tess !! relevance_column = Some v →
  id_columns tess !! tile_id_column = Some ids →
  globally (self w) = false →
  _deterrence_func_args (self w) = [a] →
  ∃ P R,
    gravity_scores (self w) tess (fillna0 v) = Ok P ∧
    Np.has_shape P (len tess) (len tess) ∧ Np.ncols P = len tess ∧
    (∀ i j, Np.entry P i j = Fin (to_Q (Np.entry P i j))) ∧
    singly_normalize P = Ok R ∧
    Np.has_shape R (len tess) (len tess) ∧
    (∀ i j, (i < len tess)%nat → (j < len tess)%nat →
       Np.entry R i j = Num.div (Np.entry P j i) (Num.sum (Np.column P i))) ∧
    generate tess tile_id_column tot_outflows_column relevance_column
             "probabilities" w =
      (new_FlowDataFrame (seq 0 (len tess) ≫= positive_records ids R)
                         tile_id_column tess,
       {| self := set_tile_id_column (Some tile_id_column) (self w);
          trace := trace w ++ [Entered DistanceMatrix; Entered GravityScore];
          random := random w |}).
Proof.
  intros Hwf Hv Hids Hglob Hargs.
  assert (length (fillna0 v) = len tess) as Hlen.
  { unfold fillna0. rewrite length_fmap. by eapply (proj2 Hwf). }
  assert (length ids = len tess) as Hlenids by by eapply (proj1 Hwf).
  destruct (gravity_scores_ok (self w) tess (fillna0 v) a Hargs Hlen)
    as (D & P & HD & HP & Hscores & HshapeP & HcP & Hfin).
  destruct (singly_normalize_entries P (len tess) HshapeP HcP)
    as (R & HR & HshapeR & HeR).
  exists P, R. do 7 (split; [done |]).
  rewrite (generate_run _ _ _ _ _ _ _ (column_values_numbers _ _ _ Hv)). simpl.
  unfold generate_steps.
  unfold bind at 1. simpl. unfold bind at 1, lift at 1. rewrite HD.
  unfold bind at 1. simpl. unfold bind at 1. simpl.
  unfold bind at 1, lift at 1.
  change (compute_gravity_score (set_tile_id_column (Some tile_id_column) (self w)))
    with (compute_gravity_score (self w)).
  rewrite HP.
  change (globally (set_tile_id_column (Some tile_id_column) (self w)))
    with (globally (self w)).
  rewrite Hglob. unfold bind at 1, lift at 1. rewrite HR.
  rewrite (from_matrix_to_flowdf_run R _ tess _ tile_id_column ids
             (seq 0 (len tess) ≫= positive_records ids R)); try done.
  - by rewrite app_nil_r, <- app_assoc.
  - apply (output_list_ok _ _ (len tess)); try done.
    apply Forall_forall. intros i Hi. apply elem_of_seq in Hi. lia.
Qed.
End SinglyProbabilities.

Section SinglyTheorem.
Context `{Elementary} `{External}.

(** C1, on the code. For a singly constrained model and a well-formed
    tessellation, [generate] with 'probabilities' builds the matrix
    [R = np.transpose(P / np.sum(P, axis=0))] from the raw scores [P] and
    hands its entries that are [> 0], as flow records, to the
    [FlowDataFrame] constructor.  Entry [(i, j)] of [R] is the score
    [P[j][i]] from [j] to [i] divided by the sum of column [i] of [P],
    not [P[i][j]] divided by the sum of row [i].  When column [i] of [P]
    has a positive sum, row [i] of [R] sums to 1.  When column [i] of [P]
    is entirely zero, every entry of row [i] of [R] is NaN (the division
    [0/0] is not guarded) and no record is made for the origin [i]. *)
Theorem singly_probabilities_use_column_sums tess tile_id_column
    tot_outflows_column relevance_column w v ids a :
  frame_wf tess →
  num_columns tess !! relevance_column = Some v →
  id_columns tess !! tile_id_column = Some ids →
  _gravity_type (self w) = "singly constrained" →
  _deterrence_func_args (self w) = [a] →
  ∃ P R,
    gravity_scores (self w) tess (fillna0 v) = Ok P ∧
    singly_normalize P = Ok R ∧
    (generate tess tile_id_column tot_outflows_column relevance_column
              "probabilities" w).1 =
      new_FlowDataFrame (seq 0 (len tess) ≫= positive_records ids R)
                        tile_id_column tess ∧
    ∀ i, (i < len tess)%nat →
      (∀ j, (j < len tess)%nat →
         Np.entry R i j =
           Num.div (Np.entry P j i) (Num.sum (Np.column P i))) ∧
      (Num.gt (Num.sum (Np.column P i)) Num.zero = true →
         row_sum R i = Num.one) ∧
      ((∀ j, (j < len tess)%nat → Np.entry P j i = Num.zero) →
         (∀ j, (j < len tess)%nat → Np.entry R i j = NaN) ∧
         positive_records ids R i = []).
Proof.
  intros Hwf Hv Hids Hsingly Hargs.
  assert (globally (self w) = false) as Hglob.
  { unfold globally. rewrite Hsingly. by apply bool_decide_eq_false_2. }
  destruct (generate_probabilities_singly tess tile_id_column tot_outflows_column
              relevance_column w v ids a Hwf Hv Hids Hglob Hargs)
    as (P & R & Hscores & HshapeP & HcP & Hfin & HR & HshapeR & HeR & Hgen).
  exists P, R. do 2 (split; [done |]).
  split; [by rewrite Hgen |].
  intros i Hi.
  assert (Np.column P i = (λ j, Np.entry P j i) <$> seq 0 (len tess)) as Hcol.
  { unfold Np.column. by rewrite (has_shape_nrows _ _ _ HshapeP). }
  assert (Np.row R i =
          (λ x, Num.div x (Num.sum (Np.column P i))) <$> Np.column P i) as Hrow.
  { rewrite (row_as_entries R (len tess) (len tess)) by done.
    remember (Num.sum (Np.column P i)) as s eqn:Hs.
    rewrite Hcol, <- list_fmap_compose.
    apply list_fmap_ext. intros idx j Hj.
    apply lookup_seq in Hj as [-> Hj]. simpl. subst s. by apply HeR. }
  split; [intros j Hj; by apply HeR |]. split.
  - intros Hpos. unfold row_sum. rewrite Hrow.
    assert (Np.column P i = Fin <$> (to_Q <$> Np.column P i)) as HcolP.
    { rewrite Hcol. rewrite <- !list_fmap_compose.
      apply list_fmap_ext. intros idx j _. simpl. apply Hfin. }
    destruct (sum_fin (to_Q <$> Np.column P i)) as (s & Hs & _ & _).
    rewrite <- HcolP in Hs.
    rewrite Hs in Hpos |- *. rewrite HcolP.
    apply sum_normalized; [|done]. by rewrite <- HcolP.
  - intros Hzero.
    assert (Num.sum (Np.column P i) = Num.zero) as Hsum.
    { rewrite Hcol, <- (sum_zeros (len tess)). f_equal.
      apply list_eq. intros j. rewrite list_lookup_fmap.
      destruct (decide (j < len tess)%nat) as [Hj|Hj].
      - rewrite lookup_seq_lt, lookup_replicate_2 by done. simpl.
        by rewrite Hzero.
      - rewrite lookup_seq_ge by lia. symmetry.
        apply lookup_ge_None_2. rewrite length_replicate. lia. }
    assert (∀ j, (j < len tess)%nat → Np.entry R i j = NaN) as Hnan.
    { intros j Hj. by rewrite HeR, Hzero, Hsum. }
    split; [done |].
    unfold positive_records. apply bind_nil_all. intros [j x] Hjx.
    apply list_elem_of_lookup in Hjx as [k Hk].
    rewrite list_lookup_imap in Hk.
    destruct (Np.row R i !! k) as [x'|] eqn:Hx; [|done].
    injection Hk as <- <-. simpl.
    pose proof (row_entry _ _ _ _ Hx) as Hent.
    assert (k < len tess)%nat as Hk.
    { apply lookup_lt_Some in Hx.
      rewrite (row_as_entries R (len tess) (len tess)) in Hx by done.
      by rewrite length_fmap, length_seq in Hx. }
    rewrite Hnan in Hent by done. by subst x'.
Qed.
End SinglyTheorem.

(** * Further properties of the code *)

(** ** The one-hot selector [ci] *)

Section CiTheorem.

Lemma sum_app l k : Num.sum (l ++ k) = foldl Num.add (Num.sum l) k.
Proof. unfold Num.sum. by rewrite foldl_app. Qed.

Lemma foldl_add_zeros x n :
  Num.add x Num.zero = x → foldl Num.add x (replicate n Num.zero) = x.
Proof. intros Hx. induction n as [|n IH]; simpl; [done |]. by rewrite Hx. Qed.

Lemma one_hot_split i n :
  (i < n)%nat →
  <[i := Num.one]> (replicate n Num.zero) =
  replicate i Num.zero ++ Num.one :: replicate (n - S i) Num.zero.
Proof.
  intros Hi. replace n with (i + S (n - S i))%nat at 1 by lia.
  rewrite replicate_add. simpl.
  rewrite insert_app_r_alt by (rewrite length_replicate; lia).
  rewrite length_replicate, Nat.sub_diag. done.
Qed.

(** X1. [ci(i, number_locs)] raises [IndexError] exactly when the index
    is not below [number_locs]; otherwise it returns a list of
    [number_locs] cells that holds 1.0 at index [i] and 0.0 everywhere
    else, so that its cells sum to 1. *)
Theorem ci_one_hot i n :
  (ci i n = Raise IndexError ↔ (n ≤ i)%nat) ∧
  ((i < n)%nat →
   ∃ c, ci i n = Ok c ∧ length c = n ∧
        (∀ k, (k < n)%nat →
           c !! k = Some (if decide (k = i) then Num.one else Num.zero)) ∧
        Num.sum c = Num.one).
Proof.
  split.
  - unfold ci. case_decide; split; try done; lia.
  - intros Hi. rewrite ci_ok by done. eexists. split; [done |].
    split; [by rewrite length_insert, length_replicate |].
    split; [intros k Hk; by apply one_hot_lookup |].
    rewrite one_hot_split by done.
    rewrite sum_app, sum_zeros. simpl.
    by apply foldl_add_zeros.
Qed.
End CiTheorem.

(** ** The distances that [compute_distance_matrix] stores *)

Section DistanceValues.
Context `{External}.
Implicit Types (D : Np.matrix) (i j a b n : nat).

(** The array after the inner loop for the origin [i]. *)
Lemma dm_inner_loop_entries coordinates n i c_i js : ∀ st,
  length coordinates = n → Np.has_shape st.1 n n →
  Forall (λ j, i < j < n)%nat js →
  ∃ D' cells, rfold (dm_inner coordinates i c_i) st js = Ok (D', cells) ∧
    Np.has_shape D' n n ∧
    ∀ a b, Np.entry D' a b =
      if decide (a = i ∧ b ∈ js) then
        distfunc c_i (default c_i (coordinates !! b))
      else if decide (b = i ∧ a ∈ js) then
        distfunc c_i (default c_i (coordinates !! a))
      else Np.entry st.1 a b.
Proof.
  induction js as [|j js IH]; intros st Hlen Hshape Hjs.
  - exists st.1, st.2. split; [by destruct st |]. split; [done |].
    intros a b. rewrite !decide_False; [done | |];
      intros [_ Hin]; by apply elem_of_nil in Hin.
  - inversion_clear Hjs as [|? ? Hj Hjs'].
    simpl. unfold dm_inner at 1.
    destruct (lookup_lt_is_Some_2 coordinates j) as [c_j Hcj]; [lia |].
    rewrite Hcj.
    destruct (setitem_ok st.1 n n i j (distfunc c_i c_j) Hshape)
      as (D1 & -> & Hshape1 & Hent1); [lia.. |]. simpl.
    destruct (setitem_ok D1 n n j i (distfunc c_i c_j) Hshape1)
      as (D2 & -> & Hshape2 & Hent2); [lia.. |]. simpl.
    destruct (IH (D2, st.2 ++ [(i, j); (j, i)]) Hlen Hshape2 Hjs')
      as (D' & cells & -> & Hshape' & Hent').
    exists D', cells. split; [done |]. split; [done |].
    intros a b. rewrite Hent'. simpl. rewrite Hent2, Hent1.
    assert (∀ k, k ∈ js → (i < k)%nat) as Hgt.
    { intros k Hk. rewrite Forall_forall in Hjs'. specialize (Hjs' k Hk). lia. }
    destruct (decide (a = i ∧ b ∈ js)) as [[-> Hb]|Hn1].
    + rewrite decide_True; [done |]. split; [done | by right].
    + destruct (decide (b = i ∧ a ∈ js)) as [[-> Ha]|Hn2].
      * rewrite decide_False by (intros [-> _]; apply Hgt in Ha; lia).
        rewrite decide_True; [done |]. split; [done | by right].
      * destruct (decide (a = j ∧ b = i)) as [[-> ->]|Hn3].
        -- rewrite decide_False by (intros [? _]; lia).
           rewrite decide_True by (split; [done | by left]).
           by rewrite Hcj.
        -- destruct (decide (a = i ∧ b = j)) as [[-> ->]|Hn4].
           ++ rewrite decide_True by (split; [done | by left]).
              by rewrite Hcj.
           ++ rewrite !decide_False; [done | |].
              ** intros [-> [->|Ha]%elem_of_cons]; [by apply Hn3 | by apply Hn2].
              ** intros [-> [->|Hb]%elem_of_cons]; [by apply Hn4 | by apply Hn1].
Qed.

(** The array after the outer loop: above the diagonal, and mirrored
    below it, the rows of the origins hold the distances. *)
Lemma dm_outer_loop_entries coordinates n origins : ∀ st,
  length coordinates = n → Np.has_shape st.1 n n →
  Forall (λ i, i < n)%nat origins →
  ∃ D' cells, rfold (dm_outer coordinates n) st origins = Ok (D', cells) ∧
    Np.has_shape D' n n ∧
    ∀ a b c_a c_b, (a < b)%nat →
      coordinates !! a = Some c_a → coordinates !! b = Some c_b →
      Np.entry D' a b =
        (if decide (a ∈ origins) then distfunc c_a c_b else Np.entry st.1 a b) ∧
      Np.entry D' b a =
        (if decide (a ∈ origins) then distfunc c_a c_b else Np.entry st.1 b a).
Proof.
  induction origins as [|o origins IH]; intros st Hlen Hshape Horigins.
  - exists st.1, st.2. split; [by destruct st |]. split; [done |].
    intros a b c_a c_b _ _ _.
    rewrite !(decide_False (P := a ∈ [])); [done | |]; by intros ?%elem_of_nil.
  - inversion_clear Horigins as [|? ? Ho Horigins'].
    simpl. unfold dm_outer at 1.
    destruct (lookup_lt_is_Some_2 coordinates o) as [c_o Hco]; [lia |].
    rewrite Hco.
    destruct (dm_inner_loop_entries coordinates n o c_o (range (o + 1) n) st
                Hlen Hshape) as (D1 & cells1 & -> & Hshape1 & Hent1).
    { eapply Forall_impl; [apply range_bounds |]. simpl. lia. }
    simpl.
    destruct (IH (D1, cells1) Hlen Hshape1 Horigins')
      as (D' & cells & -> & Hshape' & Hent').
    exists D', cells. split; [done |]. split; [done |].
    intros a b c_a c_b Hab Ha Hb.
    assert (b < n)%nat as Hbn by (rewrite <- Hlen; by eapply lookup_lt_Some).
    destruct (Hent' a b c_a c_b Hab Ha Hb) as [-> ->]. simpl.
    rewrite !Hent1.
    destruct (decide (a ∈ origins)) as [Hin|Hnin].
    + rewrite !decide_True by by right. done.
    + destruct (decide (a = o)) as [->|Hne].
      * rewrite !(decide_True (P := o ∈ o :: origins)) by by left.
        assert (b ∈ range (o + 1) n) as Hrange
          by (unfold range; apply elem_of_seq; lia).
        rewrite (decide_True (P := o = o ∧ b ∈ _)) by done.
        rewrite (decide_False (P := b = o ∧ _)) by (intros [? _]; lia).
        rewrite (decide_True (P := o = o ∧ b ∈ _)) by done.
        rewrite Hb, Hco in *. simpl. by simplify_eq.
      * rewrite !(decide_False (P := a ∈ o :: origins)); first last.
        { intros [?|?]%elem_of_cons; done. }
        { intros [?|?]%elem_of_cons; done. }
        rewrite !(decide_False (P := a = o ∧ _)) by (by intros [? _]).
        rewrite !(decide_False (P := b = o ∧ a ∈ _)); [done | |].
        -- intros [-> Hr]. unfold range in Hr. apply elem_of_seq in Hr. lia.
        -- intros [-> Hr]. unfold range in Hr. apply elem_of_seq in Hr. lia.
Qed.

Lemma compute_distance_matrix_values tess origins :
  Forall (λ i, i < len tess)%nat origins →
  ∃ D, compute_distance_matrix tess origins = Ok D ∧
    dm_inv (len tess) D ∧
    ∀ i j c_i c_j, (i < j)%nat →
      geometry tess !! i = Some c_i → geometry tess !! j = Some c_j →
      Np.entry D i j =
        if decide (i ∈ origins) then distfunc c_i c_j else Num.zero.
Proof.
  intros Horigins.
  destruct (compute_distance_matrix_ok tess origins Horigins) as (D & HD & Hinv).
  exists D. split; [done |]. split; [done |].
  intros i j c_i c_j Hij Hi Hj.
  destruct (dm_outer_loop_entries (geometry tess) (len tess) origins
              (Np.zeros (len tess) (len tess), []) eq_refl
              (zeros_has_shape _ _) Horigins)
    as (D' & cells & Hrun & _ & Hent).
  unfold compute_distance_matrix, compute_distance_matrix_cells in HD.
  rewrite Hrun in HD. simpl in HD. injection HD as ->.
  destruct (Hent i j c_i c_j Hij Hi Hj) as [-> _]. simpl.
  by rewrite entry_zeros.
Qed.

(** X2. For origins below the number of locations,
    [compute_distance_matrix] stores, for each pair [i < j], the distance
    [distfunc(centroid_i, centroid_j)] (the location of the smaller index
    is always the first argument) in the cell [(i, j)] when [i] is one of
    the origins, and leaves 0.0 there otherwise; the cell [(j, i)] holds
    the same value. *)
Theorem compute_distance_matrix_entries tess origins :
  Forall (λ i, i < len tess)%nat origins →
  ∃ D, compute_distance_matrix tess origins = Ok D ∧
    ∀ i j c_i c_j, (i < j)%nat →
      geometry tess !! i = Some c_i → geometry tess !! j = Some c_j →
      Np.entry D i j =
        (if decide (i ∈ origins) then distfunc c_i c_j else Num.zero) ∧
      Np.entry D j i = Np.entry D i j.
Proof.
  intros Horigins.
  destruct (compute_distance_matrix_values tess origins Horigins)
    as (D & HD & (_ & Hsym & _) & Hent).
  exists D. split; [done |]. intros i j c_i c_j Hij Hi Hj.
  split; [by apply Hent | apply Hsym].
Qed.

(** The outer loop stops with [IndexError] at the first origin that is
    not below the number of locations. *)
Lemma dm_outer_loop_result coordinates n origins : ∀ st,
  length coordinates = n → dm_inv n st.1 →
  match rfold (dm_outer coordinates n) st origins with
  | Ok _ => Forall (λ o, o < n)%nat origins
  | Raise e => e = IndexError ∧ Exists (λ o, n ≤ o)%nat origins
  end.
Proof.
  induction origins as [|o origins IH]; intros st Hlen Hinv; simpl; [done |].
  unfold dm_outer at 1.
  destruct (coordinates !! o) as [c_o|] eqn:Hco.
  - assert (o < n)%nat as Ho by (rewrite <- Hlen; by eapply lookup_lt_Some).
    destruct (dm_inner_loop coordinates n o c_o (range (o + 1) n) st Hlen Hinv)
      as (D1 & -> & Hinv1).
    { eapply Forall_impl; [apply range_bounds |]. simpl. lia. }
    simpl. specialize (IH (D1, st.2 ++ (range (o + 1) n ≫= λ j, [(o, j); (j, o)]))
                          Hlen Hinv1).
    destruct (rfold _ _ origins) as [st'|e].
    + by constructor.
    + destruct IH as [-> IH]. split; [done | by right].
  - simpl. split; [done |]. left. apply lookup_ge_None_1 in Hco. lia.
Qed.

(** X3. [compute_distance_matrix] raises exactly when one of the origins
    is not below the number of locations, and what it raises then is
    [IndexError] (from [coordinates[id_i]]); with origins in range, and in
    particular without origins or without locations, it returns. *)
Theorem compute_distance_matrix_raises_iff tess origins :
  match compute_distance_matrix tess origins with
  | Ok D => Forall (λ o, o < len tess)%nat origins ∧
            Np.has_shape D (len tess) (len tess)
  | Raise e => e = IndexError ∧ Exists (λ o, len tess ≤ o)%nat origins
  end.
Proof.
  pose proof (dm_outer_loop_result (geometry tess) (len tess) origins
                (Np.zeros (len tess) (len tess), []) eq_refl (dm_inv_zeros _))
    as Hres.
  unfold compute_distance_matrix, compute_distance_matrix_cells.
  destruct (rfold _ _ origins) as [st|e] eqn:Hrun; simpl; [|done].
  split; [done |].
  destruct (compute_distance_matrix_cells_ok tess origins Hres) as (D & HD & Hinv).
  unfold compute_distance_matrix_cells in HD. rewrite Hrun in HD.
  injection HD as ->. apply Hinv.
Qed.

Lemma compute_distance_matrix_out_of_range tess origins :
  Exists (λ o, len tess ≤ o)%nat origins →
  compute_distance_matrix tess origins = Raise IndexError.
Proof.
  intros Hex.
  pose proof (dm_outer_loop_result (geometry tess) (len tess) origins
                (Np.zeros (len tess) (len tess), []) eq_refl (dm_inv_zeros _))
    as Hres.
  unfold compute_distance_matrix, compute_distance_matrix_cells.
  destruct (rfold _ _ origins) as [st|e]; simpl.
  - exfalso. apply Exists_exists in Hex as (o & Ho & Hge).
    rewrite Forall_forall in Hres. specialize (Hres o Ho). simpl in Hres. lia.
  - by destruct Hres as [-> _].
Qed.

(** X4. The result of [compute_distance_matrix] depends on the origins
    only as a set: two lists of origins with the same members, in any
    order and with any repetitions, give the same array, or both raise
    [IndexError]. *)
Theorem compute_distance_matrix_origin_set tess origins origins' :
  (∀ i, i ∈ origins ↔ i ∈ origins') →
  compute_distance_matrix tess origins = compute_distance_matrix tess origins'.
Proof.
  intros Hsame.
  destruct (decide (Forall (λ i, i < len tess)%nat origins)) as [Hall|Hex].
  - assert (Forall (λ i, i < len tess)%nat origins') as Hall'.
    { rewrite Forall_forall in Hall |- *. intros i Hi. apply Hall, Hsame, Hi. }
    destruct (compute_distance_matrix_values tess origins Hall)
      as (D & -> & (Hshape & Hsym & Hdiag) & Hent).
    destruct (compute_distance_matrix_values tess origins' Hall')
      as (D' & -> & (Hshape' & Hsym' & Hdiag') & Hent').
    f_equal. apply (matrix_ext _ _ (len tess) (len tess)); [done.. |].
    assert (∀ i j, (i < j < len tess)%nat → Np.entry D i j = Np.entry D' i j)
      as Hupper.
    { intros i j Hij.
      destruct (lookup_lt_is_Some_2 (geometry tess) i) as [c_i Hci];
        [unfold len in Hij; lia |].
      destruct (lookup_lt_is_Some_2 (geometry tess) j) as [c_j Hcj];
        [unfold len in Hij; lia |].
      rewrite (Hent i j c_i c_j), (Hent' i j c_i c_j) by (done || lia).
      apply decide_ext, Hsame. }
    intros i j Hi Hj.
    destruct (Nat.lt_total i j) as [Hlt|[->|Hgt]].
    + apply Hupper. lia.
    + by rewrite Hdiag, Hdiag'.
    + rewrite (Hsym i j), (Hsym' i j). apply Hupper. lia.
  - apply not_Forall_Exists in Hex; [|apply _].
    assert (Exists (λ o, len tess ≤ o)%nat origins) as Hex1.
    { eapply Exists_impl; [exact Hex |]. simpl. intros. lia. }
    assert (Exists (λ o, len tess ≤ o)%nat origins') as Hex2.
    { apply Exists_exists in Hex1 as (o & Ho & Hge).
      apply Exists_exists. exists o. split; [by apply Hsame | done]. }
    by rewrite !compute_distance_matrix_out_of_range.
Qed.
End DistanceValues.

(** ** What [compute_gravity_score] raises *)

Section ScoreErrors.
Context `{Elementary} `{External}.



Lemma call_deterrence_raises f (D : Np.matrix) args :
  length args ≠ 1%nat → call_deterrence f D args = Raise TypeError.
Proof. by destruct args as [|a [|b args]]. Qed.

Lemma compute_gravity_score_bad_args g D ro rd :
  length (_deterrence_func_args g) ≠ 1%nat →
  compute_gravity_score g D ro rd = Raise TypeError.
Proof.
  intros Hargs. unfold compute_gravity_score.
  by rewrite call_deterrence_raises.
Qed.

Lemma compute_gravity_score_of_bad_args g D relevances :
  length (_deterrence_func_args g) ≠ 1%nat →
  compute_gravity_score_of g D relevances = Raise TypeError.
Proof.
  intros Hargs. destruct relevances as [r|l]; simpl.
  - by apply compute_gravity_score_bad_args.
  - by rewrite call_deterrence_raises.
Qed.


(** X6. A model whose list of deterrence arguments does not hold exactly
    one element is accepted by the constructor, and [generate] on it
    raises [TypeError] only after the distance matrix of all locations has
    been computed, when it enters the gravity score; the tile identifier
    column has been stored by then, and the random source is untouched. *)
Theorem generate_bad_deterrence_args tess tile_id_column tot_outflows_column
    relevance_column out_format w v :
  num_columns tess !! relevance_column = Some v →
  (effective_format out_format = "flows" →
   is_Some (num_columns tess !! tot_outflows_column)) →
  length (_deterrence_func_args (self w)) ≠ 1%nat →
  generate tess tile_id_column tot_outflows_column relevance_column out_format w =
    (Raise TypeError,
     {| self := set_tile_id_column (Some tile_id_column) (self w);
        trace := trace w ++
          (if bool_decide (out_format ∈ ["flows"; "probabilities"]) then []
           else [Printed (format_warning out_format)]) ++
          [Entered DistanceMatrix; Entered GravityScore];
        random := random w |}).
Proof.
  intros Hv Hout Hargs.
  rewrite (generate_run _ _ _ _ _ _ _ (column_values_numbers _ _ _ Hv)). simpl.
  set (warned := if bool_decide (out_format ∈ _) then _ else _).
  assert (∀ relevances tot_outflows fmt w1,
    length (_deterrence_func_args (self w1)) ≠ 1%nat →
    generate_steps tess relevances tot_outflows fmt w1 =
      (Raise TypeError,
       {| self := self w1;
          trace := trace w1 ++ [Entered DistanceMatrix; Entered GravityScore];
          random := random w1 |})) as Hsteps.
  { intros relevances tot_outflows fmt w1 Hargs1. unfold generate_steps.
    destruct (compute_distance_matrix_ok tess (seq 0 (len tess)))
      as (D & HD & _).
    { apply Forall_forall. intros i Hi. apply elem_of_seq in Hi. lia. }
    unfold bind at 1. simpl. unfold bind at 1, lift at 1. rewrite HD.
    unfold bind at 1. simpl. unfold bind at 1. simpl.
    unfold bind at 1, lift at 1.
    rewrite compute_gravity_score_of_bad_args by done.
    by rewrite <- app_assoc. }
  destruct (bool_decide (effective_format out_format = "flows")) eqn:Hflows.
  - apply bool_decide_eq_true_1 in Hflows.
    destruct (Hout Hflows) as [o Ho].
    rewrite (column_values_numbers _ _ _ Ho).
    rewrite Hsteps by done. simpl. by rewrite <- app_assoc.
  - rewrite Hsteps by done. simpl. by rewrite <- app_assoc.
Qed.
End ScoreErrors.

(** ** The records that [_from_matrix_to_flowdf] makes *)

Section FlowTable.
Context `{Elementary} `{External}.
Implicit Types (R : Np.matrix) (ids : list string).

Lemma elem_of_positive_records ids R n i r :
  Np.has_shape R n n → length ids = n → (i < n)%nat →
  r ∈ positive_records ids R i ↔
  ∃ j o d, ids !! i = Some o ∧ ids !! j = Some d ∧
           Num.gt (Np.entry R i j) Num.zero = true ∧
           r = {| origin := o; destination := d; flow := Np.entry R i j |}.
Proof.
  intros HR Hids Hi. unfold positive_records.
  destruct (lookup_lt_is_Some_2 ids i) as [o Ho]; [lia |].
  rewrite list_elem_of_bind. split.
  - intros ([j x] & Hr & Hjx). cbn [fst snd] in Hr.
    apply list_elem_of_lookup in Hjx as [k Hk].
    rewrite list_lookup_imap in Hk.
    destruct (Np.row R i !! k) as [x'|] eqn:Hx; [|done].
    injection Hk as <- <-.
    pose proof (row_entry _ _ _ _ Hx) as Hent.
    assert (k < n)%nat as Hkn.
    { apply lookup_lt_Some in Hx.
      rewrite (row_as_entries R n n) in Hx by done.
      by rewrite length_fmap, length_seq in Hx. }
    destruct (lookup_lt_is_Some_2 ids k) as [d Hd]; [lia |].
    destruct (Num.gt x' Num.zero) eqn:Hpos; [|by apply elem_of_nil in Hr].
    apply list_elem_of_singleton in Hr. rewrite Ho, Hd in Hr. simpl in Hr.
    exists k, o, d. rewrite Hent. done.
  - intros (j & o' & d & Ho' & Hd & Hpos & ->).
    assert (j < n)%nat as Hj by (rewrite <- Hids; by eapply lookup_lt_Some).
    exists (j, Np.entry R i j). cbn [fst snd]. split.
    + rewrite Hpos, Ho, Hd. simpl. apply list_elem_of_singleton. congruence.
    + apply list_elem_of_lookup. exists j. rewrite list_lookup_imap.
      rewrite (row_as_entries R n n) by done.
      by rewrite list_lookup_fmap, lookup_seq_lt.
Qed.

End FlowTable.

(** ** [generate] with the output format 'probabilities' *)

Section Probabilities.
Context `{Elementary} `{External}.

Lemma globally_normalize_has_shape (P : Np.matrix) r c :
  Np.has_shape P r c → Np.has_shape (globally_normalize P) r c.
Proof. apply map2_has_shape. Qed.

(** The run of [generate] with 'probabilities' up to the conversion of
    the normalised matrix into a flow table. *)
Lemma generate_probabilities_run tess tile_id_column tot_outflows_column
    relevance_column w v a :
  frame_wf tess →
  num_columns tess !! relevance_column = Some v →
  _deterrence_func_args (self w) = [a] →
  ∃ P R,
    gravity_scores (self w) tess (fillna0 v) = Ok P ∧
    Np.has_shape P (len tess) (len tess) ∧ Np.ncols P = len tess ∧
    (∀ i j, Np.entry P i j = Fin (to_Q (Np.entry P i j))) ∧
    (if globally (self w) then R = globally_normalize P
     else singly_normalize P = Ok R) ∧
    Np.has_shape R (len tess) (len tess) ∧
    generate tess tile_id_column tot_outflows_column relevance_column
             "probabilities" w =
      _from_matrix_to_flowdf R (seq 0 (len tess)) tess
        {| self := set_tile_id_column (Some tile_id_column) (self w);
           trace := trace w ++ [Entered DistanceMatrix; Entered GravityScore];
           random := random w |}.
Proof.
  intros Hwf Hv Hargs.
  assert (length (fillna0 v) = len tess) as Hlen.
  { unfold fillna0. rewrite length_fmap. by eapply (proj2 Hwf). }
  destruct (gravity_scores_ok (self w) tess (fillna0 v) a Hargs Hlen)
    as (D & P & HD & HP & Hscores & HshapeP & HcP & Hfin).
  assert (∀ R, Np.has_shape R (len tess) (len tess) →
            (if globally (self w) then R = globally_normalize P
             else singly_normalize P = Ok R) →
            generate tess tile_id_column tot_outflows_column relevance_column
                     "probabilities" w =
            _from_matrix_to_flowdf R (seq 0 (len tess)) tess
              {| self := set_tile_id_column (Some tile_id_column) (self w);
                 trace := trace w ++ [Entered DistanceMatrix; Entered GravityScore];
                 random := random w |}) as Hrun.
  { intros R HshapeR HR.
    rewrite (generate_run _ _ _ _ _ _ _ (column_values_numbers _ _ _ Hv)). simpl.
    unfold generate_steps.
    unfold bind at 1. simpl. unfold bind at 1, lift at 1. rewrite HD.
    unfold bind at 1. simpl. unfold bind at 1. simpl.
    unfold bind at 1, lift at 1.
    change (compute_gravity_score (set_tile_id_column (Some tile_id_column) (self w)))
      with (compute_gravity_score (self w)).
    rewrite HP.
    change (globally (set_tile_id_column (Some tile_id_column) (self w)))
      with (globally (self w)).
    destruct (globally (self w)).
    - subst R. by rewrite app_nil_r, <- app_assoc.
    - unfold bind at 1, lift at 1. rewrite HR.
      by rewrite app_nil_r, <- app_assoc. }
  destruct (globally (self w)) eqn:Hglob.
  - exists P, (globally_normalize P). do 4 (split; [done |]).
    split; [done |].
    split; [by apply globally_normalize_has_shape |].
    apply Hrun; [by apply globally_normalize_has_shape | done].
  - destruct (singly_normalize_entries P (len tess) HshapeP HcP)
      as (R & HR & HshapeR & _).
    exists P, R. do 6 (split; [done |]). by apply Hrun.
Qed.

End Probabilities.

Section RandomSource.
Context `{Elementary} `{External}.

Lemma draws_nothing_ret {A} (a : A) : draws_nothing (ret a).
Proof.
  intros w. split; [done |]. exists []. split; [by rewrite app_nil_r |].
  apply not_elem_of_nil.
Qed.

Lemma draws_nothing_raise {A} e : draws_nothing (@raise _ A e).
Proof.
  intros w. split; [done |]. exists []. split; [by rewrite app_nil_r |].
  apply not_elem_of_nil.
Qed.

Lemma draws_nothing_lift {A} (r : result A) : draws_nothing (lift r).
Proof.
  intros w. split; [done |]. exists []. split; [by rewrite app_nil_r |].
  apply not_elem_of_nil.
Qed.

Lemma draws_nothing_get_self : draws_nothing get_self.
Proof.
  intros w. split; [done |]. exists []. split; [by rewrite app_nil_r |].
  apply not_elem_of_nil.
Qed.

Lemma draws_nothing_modify_self f : draws_nothing (modify_self f).
Proof.
  intros w. split; [done |]. exists []. split; [by rewrite app_nil_r |].
  apply not_elem_of_nil.
Qed.

Lemma draws_nothing_getattr {A} (proj : Gravity → option A) :
  draws_nothing (getattr proj).
Proof.
  intros w. unfold getattr. destruct (proj (self w)); simpl.
  all: split; [done |]; exists []; split; [by rewrite app_nil_r |];
       apply not_elem_of_nil.
Qed.

Lemma draws_nothing_emit e : e ≠ Entered Sampling → draws_nothing (emit e).
Proof.
  intros He w. split; [done |]. exists [e]. split; [done |].
  intros Hin%list_elem_of_singleton. congruence.
Qed.

Lemma draws_nothing_bind {A B} (m : M A) (f : A → M B) :
  draws_nothing m → (∀ a, draws_nothing (f a)) → draws_nothing (bind m f).
Proof.
  intros Hm Hf w. unfold bind. destruct (Hm w) as (Hr & evs & Ht & Hevs).
  destruct (m w) as [[a|e] w1]; simpl in *; [|by eauto].
  destruct (Hf a w1) as (Hr1 & evs1 & Ht1 & Hevs1).
  split; [congruence |]. exists (evs ++ evs1).
  split; [by rewrite Ht1, Ht, app_assoc |].
  by apply not_elem_of_app.
Qed.

Lemma draws_nothing_from_matrix_to_flowdf flow_matrix origins tess :
  draws_nothing (_from_matrix_to_flowdf flow_matrix origins tess).
Proof.
  unfold _from_matrix_to_flowdf.
  repeat first [ apply draws_nothing_bind | apply draws_nothing_getattr
               | apply draws_nothing_lift | apply draws_nothing_ret
               | progress intros ].
Qed.

Lemma draws_nothing_generate_steps tess relevances tot_outflows :
  draws_nothing (generate_steps tess relevances tot_outflows "probabilities").
Proof.
  unfold generate_steps.
  rewrite !(bool_decide_eq_false_2 ("probabilities" = "flows")) by done.
  repeat first [ apply draws_nothing_bind | apply draws_nothing_getattr
               | apply draws_nothing_lift | apply draws_nothing_ret
               | apply draws_nothing_get_self
               | apply draws_nothing_from_matrix_to_flowdf
               | apply draws_nothing_emit; discriminate
               | progress intros
               | case_match ].
Qed.

(** X9. With 'probabilities', [generate] never uses the random source:
    whatever the tessellation, the column names and the model are, and
    whether the call returns or raises, it leaves the state of the
    generator as it was and enters no sampling step. *)
Theorem generate_probabilities_draws_nothing tess tile_id_column
    tot_outflows_column relevance_column :
  draws_nothing
    (generate tess tile_id_column tot_outflows_column relevance_column
              "probabilities").
Proof.
  intros w.
  destruct (decide (relevance_column ∈ columns tess)) as [Hin|Hin].
  - destruct (column_values_present _ _ Hin) as [relevances Hv].
    rewrite (generate_run _ _ _ _ _ _ _ Hv). cbv zeta.
    assert (effective_format "probabilities" = "probabilities") as ->
      by (vm_compute; reflexivity).
    rewrite (bool_decide_eq_false_2 ("probabilities" = "flows")) by done.
    rewrite (bool_decide_eq_true_2 ("probabilities" ∈ ["flows"; "probabilities"]))
      by (right; left).
    match goal with
    | |- context [generate_steps ?t ?r ?o _ ?w1] =>
        destruct (draws_nothing_generate_steps t r o w1) as (Hr & evs & Ht & Hevs)
    end.
    simpl in Hr, Ht. split; [done |]. exists evs.
    split; [|done]. rewrite Ht. by rewrite app_nil_r.
  - rewrite generate_missing_relevance by done.
    apply (draws_nothing_ret tt w).
Qed.
End RandomSource.

(** ** Globally constrained probabilities *)

Section GloballyProbabilities.
Context `{Elementary} `{External}.

Lemma flatten_map2 f (M : Np.matrix) :
  Np.flatten (Np.map2 f M) = f <$> Np.flatten M.
Proof.
  unfold Np.flatten, Np.map2. induction M as [|r M IH]; [done |].
  rewrite fmap_cons. simpl. by rewrite fmap_app, IH.
Qed.

Lemma elem_of_flatten (M : Np.matrix) x :
  x ∈ Np.flatten M → ∃ i j, Np.entry M i j = x.
Proof.
  unfold Np.flatten. intros Hx.
  assert (∃ r, x ∈ r ∧ r ∈ M) as (r & Hx' & Hr).
  { induction M as [|r M IH]; [by apply elem_of_nil in Hx |].
    simpl in Hx. apply elem_of_app in Hx as [Hx|Hx].
    - exists r. split; [done | by left].
    - destruct (IH Hx) as (r' & ? & ?). exists r'. split; [done | by right]. }
  clear Hx. rename Hx' into Hx.
  apply list_elem_of_lookup in Hr as [i Hi].
  apply list_elem_of_lookup in Hx as [j Hj].
  exists i, j. by eapply entry_lookup.
Qed.

Lemma sum_all_zero l : Forall (λ x, x = Num.zero) l → Num.sum l = Num.zero.
Proof.
  unfold Num.sum. induction 1 as [|x l -> _ IH]; [done |]. simpl.
  by change (Num.add Num.zero Num.zero) with Num.zero.
Qed.

Lemma finite_entries_flatten (P : Np.matrix) :
  (∀ i j, Np.entry P i j = Fin (to_Q (Np.entry P i j))) →
  Np.flatten P = Fin <$> (to_Q <$> Np.flatten P).
Proof.
  intros Hfin. rewrite <- list_fmap_compose.
  rewrite <- (list_fmap_id (Np.flatten P)) at 1.
  apply Forall_fmap_ext, Forall_forall. intros x Hx.
  apply elem_of_flatten in Hx as (i & j & <-). simpl. apply Hfin.
Qed.

(** X10. For a globally constrained model and a well-formed
    tessellation, [generate] with 'probabilities' divides every raw score
    by the sum of all scores and ends in the call of the [FlowDataFrame]
    constructor, whose result or exception is its own, on the entries
    that are [> 0.] as flow records.  When the sum of the scores is
    positive the entries of the normalised matrix sum to 1 over all
    pairs; when every score is zero (the division [0/0] is not guarded)
    the list of records handed to the constructor is empty. *)
Theorem globally_probabilities tess tile_id_column tot_outflows_column
    relevance_column w v ids a :
  frame_wf tess →
  num_columns tess !! relevance_column = Some v →
  id_columns tess !! tile_id_column = Some ids →
  _gravity_type (self w) = "globally constrained" →
  _deterrence_func_args (self w) = [a] →
  ∃ P records,
    gravity_scores (self w) tess (fillna0 v) = Ok P ∧
    records = seq 0 (len tess) ≫= positive_records ids (globally_normalize P) ∧
    generate tess tile_id_column tot_outflows_column relevance_column
             "probabilities" w =
      (new_FlowDataFrame records tile_id_column tess,
       {| self := set_tile_id_column (Some tile_id_column) (self w);
          trace := trace w ++ [Entered DistanceMatrix; Entered GravityScore];
          random := random w |}) ∧
    (∀ i j, (i < len tess)%nat → (j < len tess)%nat →
       Np.entry (globally_normalize P) i j =
         Num.div (Np.entry P i j) (Np.sum_all P)) ∧
    (Num.gt (Np.sum_all P) Num.zero = true →
       Np.sum_all (globally_normalize P) = Num.one) ∧
    ((∀ i j, (i < len tess)%nat → (j < len tess)%nat →
        Np.entry P i j = Num.zero) →
       records = []).
Proof.
  intros Hwf Hv Hids Hglobal Hargs.
  assert (globally (self w) = true) as Hglob.
  { unfold globally. by apply bool_decide_eq_true_2. }
  destruct (generate_probabilities_run tess tile_id_column tot_outflows_column
              relevance_column w v a Hwf Hv Hargs)
    as (P & R & Hscores & HshapeP & HcP & Hfin & HR & HshapeR & Hgen).
  rewrite Hglob in HR. subst R.
  assert (length ids = len tess) as Hlenids by by eapply (proj1 Hwf).
  exists P. eexists. split; [done |]. split; [reflexivity |].
  split.
  { rewrite Hgen.
    apply (from_matrix_to_flowdf_run _ _ tess _ tile_id_column ids); [done.. |].
    apply (output_list_ok _ _ (len tess)); [done.. |].
    apply Forall_forall. intros i Hi. apply elem_of_seq in Hi. lia. }
  assert (∀ i j, (i < len tess)%nat → (j < len tess)%nat →
            Np.entry (globally_normalize P) i j =
              Num.div (Np.entry P i j) (Np.sum_all P)) as Hentries.
  { intros i j Hi Hj. unfold globally_normalize.
    by rewrite (entry_map2 _ _ (len tess) (len tess)). }
  split; [done |]. split.
  - intros Hpos. unfold Np.sum_all, globally_normalize.
    rewrite flatten_map2. fold (Np.sum_all P).
    pose proof (finite_entries_flatten P Hfin) as Hflat.
    destruct (sum_fin (to_Q <$> Np.flatten P)) as (s & Hs & _ & _).
    rewrite <- Hflat in Hs. fold (Np.sum_all P) in Hs.
    rewrite Hs in Hpos |- *. rewrite Hflat.
    apply sum_normalized; [|done]. by rewrite <- Hflat.
  - intros Hzero.
    assert (Np.sum_all P = Num.zero) as Hsum.
    { apply sum_all_zero, Forall_forall. intros x Hx.
      pose proof Hx as Hx'.
      apply elem_of_flatten in Hx as (i & j & <-).
      destruct (decide (i < len tess)%nat) as [Hi|Hi];
        [destruct (decide (j < len tess)%nat) as [Hj|Hj] |].
      + by apply Hzero.
      + unfold Np.entry.
        destruct (P !! i) as [r|] eqn:Hr; simpl; [|done].
        pose proof (has_shape_lookup _ _ _ _ _ HshapeP Hr) as Hlen.
        rewrite lookup_ge_None_2; [done | lia].
      + unfold Np.entry. rewrite lookup_ge_None_2; [done |].
        rewrite (proj1 HshapeP). lia. }
    apply bind_nil_all. intros i Hi. apply elem_of_seq in Hi.
    unfold positive_records. apply bind_nil_all. intros [j x] Hjx.
    apply list_elem_of_lookup in Hjx as [k Hk].
    rewrite list_lookup_imap in Hk.
    destruct (Np.row (globally_normalize P) i !! k) as [x'|] eqn:Hx; [|done].
    injection Hk as <- <-. cbn [fst snd].
    pose proof (row_entry _ _ _ _ Hx) as Hent.
    assert (k < len tess)%nat as Hk.
    { apply lookup_lt_Some in Hx.
      rewrite (row_as_entries _ (len tess) (len tess)) in Hx
        by (done || lia).
      by rewrite length_fmap, length_seq in Hx. }
    rewrite Hentries, Hzero, Hsum in Hent by lia. by subst x'.
Qed.
End GloballyProbabilities.

(** ** Pairs at distance zero under the power law *)

Section ZeroDistance.
Context `{Elementary} `{External}.

Lemma pow_zero_negative a : a < 0 → Num.pow Num.zero (Fin a) = PInf.
Proof.
  intros Ha. unfold Num.pow, Num.zero.
  assert (Num.sgn a = Lt) as Hsgn by (unfold Num.sgn; by apply Qlt_alt).
  change (Num.sgn 0) with Eq.
  destruct (Num.is_int a).
  - assert (Num.to_int a < 0)%Z as Hneg.
    { unfold Num.to_int.
      assert (Qred a < 0) as Hred by by rewrite Qred_correct.
      unfold Qlt in Hred. simpl in Hred. lia. }
    destruct (Num.to_int a); try lia. done.
  - by rewrite Hsgn.
Qed.

Lemma mul_not_finite_l x y :
  Num.isfinite x = false → Num.isfinite (Num.mul x y) = false.
Proof.
  destruct x as [p| | |], y as [q| | |]; try done; intros _; simpl;
    by destruct (Num.sgn q).
Qed.

(** A quotient with numerator 0.0 is never [> 0.]. *)
Lemma div_zero_not_positive s : Num.gt (Num.div Num.zero s) Num.zero = false.
Proof.
  destruct s as [b| | |]; try done. unfold Num.div, Num.zero.
  change (Num.sgn 0) with Eq.
  by destruct (Num.sgn b).
Qed.

(** The score of a pair at distance 0.0 under a power law with a negative
    exponent: the infinite power is masked to 0.0. *)
Lemma power_law_zero_distance g D ro rd a P i j :
  _deterrence_func g = F_powerlaw →
  _deterrence_func_args g = [Fin a] → a < 0 →
  Np.has_shape D (length ro) (length rd) → Np.ncols D = length rd →
  compute_gravity_score g D ro rd = Ok P →
  (i < length ro)%nat → (j < length rd)%nat →
  Np.entry D i j = Num.zero → Np.entry P i j = Num.zero.
Proof.
  intros Hf Hargs Ha HD Hc HP Hi Hj Hzero.
  destruct (compute_gravity_score_run g D ro rd (Fin a) Hargs HD Hc)
    as (T & HT & HshapeT & Hentries).
  rewrite HT in HP. injection HP as <-.
  destruct (lookup_lt_is_Some_2 ro i Hi) as [r_i Hri].
  destruct (lookup_lt_is_Some_2 rd j Hj) as [r_j Hrj].
  unfold Np.putmask.
  erewrite entry_map2; [|by apply map2_has_shape|done..].
  erewrite entry_map2; [|done..].
  rewrite (Hentries i j r_i r_j Hri Hrj), Hf, Hzero. unfold deterrence_at.
  rewrite pow_zero_negative by done.
  assert (Num.isfinite
            (Num.mul (Num.mul PInf (Num.pow r_j (_destination_exp g)))
                     (Num.pow r_i (_origin_exp g))) = false) as Hnf
    by by do 2 apply mul_not_finite_l.
  by destruct (Num.mul _ _).
Qed.

(** X11. Under a power-law deterrence with a negative exponent, as by
    default, the gravity score of every pair of locations at distance 0.0
    is 0.0 (the infinite power is masked), in particular the score of
    every location with itself; so on a well-formed tessellation with
    pairwise distinct identifiers the records that [generate] with
    'probabilities' hands to the [FlowDataFrame] constructor, whose
    result or exception is the one of the call, hold no flow from a
    location to itself, for either gravity type. *)
Theorem power_law_gives_no_self_flows tess tile_id_column tot_outflows_column
    relevance_column w v ids a :
  frame_wf tess →
  num_columns tess !! relevance_column = Some v →
  id_columns tess !! tile_id_column = Some ids →
  NoDup ids →
  _deterrence_func (self w) = F_powerlaw →
  _deterrence_func_args (self w) = [Fin a] → a < 0 →
  ∃ D P records,
    compute_distance_matrix tess (seq 0 (len tess)) = Ok D ∧
    gravity_scores (self w) tess (fillna0 v) = Ok P ∧
    (∀ i j, Np.entry D i j = Num.zero → Np.entry P i j = Num.zero) ∧
    (∀ i, Np.entry P i i = Num.zero) ∧
    generate tess tile_id_column tot_outflows_column relevance_column
             "probabilities" w =
      (new_FlowDataFrame records tile_id_column tess,
       {| self := set_tile_id_column (Some tile_id_column) (self w);
          trace := trace w ++ [Entered DistanceMatrix; Entered GravityScore];
          random := random w |}) ∧
    ∀ r, r ∈ records → origin r ≠ destination r.
Proof.
  intros Hwf Hv Hids Hnd Hf Hargs Ha.
  assert (length (fillna0 v) = len tess) as Hlen.
  { unfold fillna0. rewrite length_fmap. by eapply (proj2 Hwf). }
  assert (length ids = len tess) as Hlenids by by eapply (proj1 Hwf).
  destruct (gravity_scores_ok (self w) tess (fillna0 v) (Fin a) Hargs Hlen)
    as (D & P & HD & HP & Hscores & HshapeP & HcP & Hfin).
  destruct (compute_distance_matrix_ok tess (seq 0 (len tess)))
    as (D' & HD' & HshapeD & _ & Hdiag).
  { apply Forall_forall. intros i Hi. apply elem_of_seq in Hi. lia. }
  rewrite HD in HD'. injection HD' as <-.
  assert (Np.ncols D = len tess) as HcD.
  { destruct (decide (0 < len tess)%nat); [by eapply has_shape_ncols |].
    destruct HshapeD as [Hr _]. destruct D; [unfold Np.ncols; simpl; lia |].
    simpl in Hr. lia. }
  assert (∀ i j, Np.entry D i j = Num.zero → Np.entry P i j = Num.zero) as Hzero.
  { intros i j Hij.
    destruct (decide (i < len tess)%nat) as [Hi|Hi];
      [destruct (decide (j < len tess)%nat) as [Hj|Hj] |].
    - apply (power_law_zero_distance (self w) D (fillna0 v) (fillna0 v) a);
        rewrite ?Hlen; done.
    - unfold Np.entry.
      destruct (P !! i) as [r|] eqn:Hr; simpl; [|done].
      pose proof (has_shape_lookup _ _ _ _ _ HshapeP Hr) as Hl.
      rewrite lookup_ge_None_2; [done | lia].
    - unfold Np.entry. rewrite lookup_ge_None_2; [done |].
      rewrite (proj1 HshapeP). lia. }
  destruct (generate_probabilities_run tess tile_id_column tot_outflows_column
              relevance_column w v (Fin a) Hwf Hv Hargs)
    as (P' & R & Hscores' & _ & _ & _ & HR & HshapeR & Hgen).
  rewrite Hscores in Hscores'. injection Hscores' as <-.
  exists D, P. eexists. do 3 (split; [done |]).
  split; [intros i; apply Hzero, Hdiag |].
  split.
  { rewrite Hgen.
    apply (from_matrix_to_flowdf_run _ _ tess _ tile_id_column ids); [done.. |].
    apply (output_list_ok _ _ (len tess)); [done.. |].
    apply Forall_forall. intros i Hi. apply elem_of_seq in Hi. lia. }
  simpl. intros r Hr Heq.
  apply list_elem_of_bind in Hr as (i & Hr & Hi). apply elem_of_seq in Hi.
  apply (elem_of_positive_records ids R (len tess)) in Hr
    as (j & o & d & Ho & Hd & Hpos & ->); [|done || lia..].
  simpl in Heq. subst d.
  assert (i = j) as <- by by eapply NoDup_lookup.
  assert (Num.gt (Np.entry R i i) Num.zero = false) as Hnot; [|congruence].
  destruct (globally (self w)).
  - subst R. unfold globally_normalize.
    rewrite (entry_map2 _ _ (len tess) (len tess)) by (done || lia).
    rewrite (Hzero i i (Hdiag i)). apply div_zero_not_positive.
  - destruct (singly_normalize_entries P (len tess) HshapeP HcP)
      as (R' & HR' & _ & HeR).
    rewrite HR in HR'. injection HR' as <-.
    rewrite HeR by lia. rewrite (Hzero i i (Hdiag i)).
    apply div_zero_not_positive.
Qed.
End ZeroDistance.

(** ** Locations without relevance *)

Section ZeroRelevance.
Context `{Elementary} `{External}.

Lemma pow_zero_positive b : 0 < b → Num.pow Num.zero (Fin b) = Num.zero.
Proof.
  intros Hb. unfold Num.pow, Num.zero.
  assert (Num.sgn b = Gt) as Hsgn by (unfold Num.sgn; by apply Qgt_alt).
  change (Num.sgn 0) with Eq.
  destruct (Num.is_int b).
  - assert (0 < Num.to_int b)%Z as Hpos.
    { unfold Num.to_int.
      assert (0 < Qred b) as Hred by by rewrite Qred_correct.
      unfold Qlt in Hred. simpl in Hred. lia. }
    destruct (Num.to_int b) as [|p|p] eqn:Hn; try lia.
    f_equal. change 0 with (Qred 0) at 2. apply Qred_complete.
    apply Qpower_0. lia.
  - by rewrite Hsgn.
Qed.

(** A product with 0.0 is 0.0 or NaN. *)
Lemma mul_zero_r x : Num.mul x Num.zero = Num.zero ∨ Num.mul x Num.zero = NaN.
Proof.
  destruct x as [q| | |]; try (by right). left. unfold Num.mul, Num.zero.
  f_equal. change 0 with (Qred 0) at 2. apply Qred_complete. ring.
Qed.

Lemma mul_comm x y : Num.mul x y = Num.mul y x.
Proof.
  destruct x as [p| | |], y as [q| | |]; try reflexivity. simpl.
  f_equal. apply Qred_complete. ring.
Qed.

Lemma mul_zero_nan_l x y :
  x = Num.zero ∨ x = NaN → Num.mul x y = Num.zero ∨ Num.mul x y = NaN.
Proof.
  intros [->| ->]; [|by right].
  rewrite mul_comm. apply mul_zero_r.
Qed.

Lemma fillna0_lookup v k x :
  v !! k = Some x → x = NaN ∨ x = Num.zero → fillna0 v !! k = Some Num.zero.
Proof.
  intros Hk Hx. unfold fillna0. rewrite list_lookup_fmap, Hk. simpl.
  by destruct Hx as [-> | ->].
Qed.

(** The scores of the row and of the column of a location whose
    relevance is 0.0, for positive exponents. *)
Lemma zero_relevance_scores g D ro rd a P :
  _deterrence_func_args g = [a] →
  Np.has_shape D (length ro) (length rd) → Np.ncols D = length rd →
  compute_gravity_score g D ro rd = Ok P →
  (∀ de i j, _destination_exp g = Fin de → 0 < de →
     (i < length ro)%nat → rd !! j = Some Num.zero → Np.entry P i j = Num.zero) ∧
  (∀ oe i j, _origin_exp g = Fin oe → 0 < oe →
     ro !! i = Some Num.zero → (j < length rd)%nat → Np.entry P i j = Num.zero).
Proof.
  intros Hargs HD Hc HP.
  destruct (compute_gravity_score_run g D ro rd a Hargs HD Hc)
    as (T & HT & HshapeT & Hentries).
  rewrite HT in HP. injection HP as <-.
  assert (∀ i j, (i < length ro)%nat → (j < length rd)%nat →
            Np.entry T i j = Num.zero ∨ Np.entry T i j = NaN →
            Np.entry (Np.putmask Num.isinf Num.zero
                        (Np.putmask Num.isnan Num.zero T)) i j = Num.zero)
    as Hmask.
  { intros i j Hi Hj Hij. unfold Np.putmask.
    erewrite entry_map2; [|by apply map2_has_shape|done..].
    erewrite entry_map2; [|done..].
    by destruct Hij as [-> | ->]. }
  split.
  - intros de i j Hde Hpos Hi Hj.
    assert (j < length rd)%nat as Hj' by by eapply lookup_lt_Some.
    destruct (lookup_lt_is_Some_2 ro i Hi) as [r_i Hri].
    apply Hmask; [done.. |].
    rewrite (Hentries i j r_i Num.zero Hri Hj), Hde.
    rewrite pow_zero_positive by done.
    apply mul_zero_nan_l, mul_zero_r.
  - intros oe i j Hoe Hpos Hi Hj.
    assert (i < length ro)%nat as Hi' by by eapply lookup_lt_Some.
    destruct (lookup_lt_is_Some_2 rd j Hj) as [r_j Hrj].
    apply Hmask; [done.. |].
    rewrite (Hentries i j Num.zero r_j Hi Hrj), Hoe.
    rewrite pow_zero_positive by done.
    apply mul_zero_r.
Qed.

(** X12. A location whose relevance is missing (NaN, which [fillna(0)]
    replaces by 0) or 0 gets, for positive exponents as by default, the
    score 0.0 with every location, as an origin and as a destination; so
    on a well-formed tessellation with pairwise distinct identifiers the
    records that [generate] with 'probabilities' hands to the
    [FlowDataFrame] constructor, whose result or exception is the one of
    the call, hold no record from or to that location, for either
    gravity type. *)
Theorem location_without_relevance tess tile_id_column tot_outflows_column
    relevance_column w v ids a oe de k x t :
  frame_wf tess →
  num_columns tess !! relevance_column = Some v →
  id_columns tess !! tile_id_column = Some ids →
  NoDup ids →
  _deterrence_func_args (self w) = [a] →
  _origin_exp (self w) = Fin oe → 0 < oe →
  _destination_exp (self w) = Fin de → 0 < de →
  v !! k = Some x → x = NaN ∨ x = Num.zero →
  ids !! k = Some t →
  ∃ P records,
    gravity_scores (self w) tess (fillna0 v) = Ok P ∧
    (∀ i, Np.entry P i k = Num.zero ∧ Np.entry P k i = Num.zero) ∧
    generate tess tile_id_column tot_outflows_column relevance_column
             "probabilities" w =
      (new_FlowDataFrame records tile_id_column tess,
       {| self := set_tile_id_column (Some tile_id_column) (self w);
          trace := trace w ++ [Entered DistanceMatrix; Entered GravityScore];
          random := random w |}) ∧
    ∀ r, r ∈ records → origin r ≠ t ∧ destination r ≠ t.
Proof.
  intros Hwf Hv Hids Hnd Hargs Hoe Hoepos Hde Hdepos Hk Hx Ht.
  assert (length (fillna0 v) = len tess) as Hlen.
  { unfold fillna0. rewrite length_fmap. by eapply (proj2 Hwf). }
  assert (length ids = len tess) as Hlenids by by eapply (proj1 Hwf).
  assert (k < len tess)%nat as Hklt by (rewrite <- Hlenids; by eapply lookup_lt_Some).
  pose proof (fillna0_lookup v k x Hk Hx) as Hzk.
  destruct (gravity_scores_ok (self w) tess (fillna0 v) a Hargs Hlen)
    as (D & P & HD & HP & Hscores & HshapeP & HcP & Hfin).
  destruct (compute_distance_matrix_ok tess (seq 0 (len tess)))
    as (D' & HD' & HshapeD & _ & _).
  { apply Forall_forall. intros i Hi. apply elem_of_seq in Hi. lia. }
  rewrite HD in HD'. injection HD' as <-.
  assert (Np.ncols D = len tess) as HcD.
  { destruct (decide (0 < len tess)%nat); [by eapply has_shape_ncols |].
    destruct HshapeD as [Hr _]. destruct D; [unfold Np.ncols; simpl; lia |].
    simpl in Hr. lia. }
  destruct (zero_relevance_scores (self w) D (fillna0 v) (fillna0 v) a P Hargs)
    as [Hcol Hrow]; [by rewrite Hlen | by rewrite Hlen | done |].
  assert (∀ i, Np.entry P i k = Num.zero ∧ Np.entry P k i = Num.zero) as Hzero.
  { intros i. destruct (decide (i < len tess)%nat) as [Hi|Hi].
    - split; [apply (Hcol de) | apply (Hrow oe)]; rewrite ?Hlen; done.
    - split.
      + unfold Np.entry. rewrite lookup_ge_None_2; [done |].
        rewrite (proj1 HshapeP). lia.
      + unfold Np.entry.
        destruct (P !! k) as [r|] eqn:Hr; simpl; [|done].
        pose proof (has_shape_lookup _ _ _ _ _ HshapeP Hr) as Hl.
        rewrite lookup_ge_None_2; [done | lia]. }
  destruct (generate_probabilities_run tess tile_id_column tot_outflows_column
              relevance_column w v a Hwf Hv Hargs)
    as (P' & R & Hscores' & _ & _ & _ & HR & HshapeR & Hgen).
  rewrite Hscores in Hscores'. injection Hscores' as <-.
  exists P. eexists. do 2 (split; [done |]).
  split.
  { rewrite Hgen.
    apply (from_matrix_to_flowdf_run _ _ tess _ tile_id_column ids); [done.. |].
    apply (output_list_ok _ _ (len tess)); [done.. |].
    apply Forall_forall. intros i Hi. apply elem_of_seq in Hi. lia. }
  simpl.
  assert (∀ i j, (i < len tess)%nat → (j < len tess)%nat → i = k ∨ j = k →
            Num.gt (Np.entry R i j) Num.zero = false) as Hnot.
  { intros i j Hi Hj Hij.
    destruct (globally (self w)).
    - subst R. unfold globally_normalize.
      rewrite (entry_map2 _ _ (len tess) (len tess)) by done.
      assert (Np.entry P i j = Num.zero) as ->
        by (destruct Hij as [-> | ->]; apply Hzero).
      apply div_zero_not_positive.
    - destruct (singly_normalize_entries P (len tess) HshapeP HcP)
        as (R' & HR' & _ & HeR).
      rewrite HR in HR'. injection HR' as <-.
      rewrite HeR by done.
      assert (Np.entry P j i = Num.zero) as ->
        by (destruct Hij as [-> | ->]; apply Hzero).
      apply div_zero_not_positive. }
  intros r Hr.
  apply list_elem_of_bind in Hr as (i & Hr & Hi). apply elem_of_seq in Hi.
  apply (elem_of_positive_records ids R (len tess)) in Hr
    as (j & o & d & Ho & Hd & Hpos & ->); [|done || lia..].
  assert (j < len tess)%nat as Hj by (rewrite <- Hlenids; by eapply lookup_lt_Some).
  simpl. split.
  - intros ->. assert (i = k) as -> by by eapply NoDup_lookup.
    rewrite Hnot in Hpos by (done || by left). done.
  - intros ->. assert (j = k) as -> by by eapply NoDup_lookup.
    rewrite Hnot in Hpos by (done || lia || by right). done.
Qed.
End ZeroRelevance.

(** ** How often [generate] samples *)

Section Sampling.
Context `{Elementary} `{External}.

Lemma from_matrix_to_flowdf_world flow_matrix origins tess w :
  (_from_matrix_to_flowdf flow_matrix origins tess w).2 = w.
Proof.
  unfold _from_matrix_to_flowdf, bind, getattr, lift, ret.
  repeat case_match; simplify_eq; done.
Qed.

(** One successful draw enters the sampling step once. *)
Lemma draw_trace n pvals w :
  trace (draw n pvals w).2 = trace w ++ [Entered Sampling] ∧
  self (draw n pvals w).2 = self w.
Proof. unfold draw. by destruct (multinomial _ _ _). Qed.

Lemma collect_draws (tot_outflows : column) (R : Np.matrix) xs : ∀ w bs w',
  collect xs (λ i,
    n_i <- lift (column_getitem tot_outflows i) ;;
    p_i <- lift (getitem R i) ;;
    draw n_i p_i) w = (Ok bs, w') →
  trace w' = trace w ++ replicate (length xs) (Entered Sampling) ∧
  length bs = length xs.
Proof.
  induction xs as [|x xs IH]; intros w bs w' Hrun.
  - simpl in Hrun. injection Hrun as <- <-. simpl. by rewrite app_nil_r.
  - simpl in Hrun. unfold bind at 1 in Hrun.
    unfold bind at 1, lift at 1 in Hrun.
    destruct (column_getitem tot_outflows x) as [n_i|]; [|done].
    unfold bind at 1, lift at 1 in Hrun.
    destruct (getitem R x) as [p_i|]; [|done].
    destruct (draw_trace n_i p_i w) as [Ht _].
    destruct (draw n_i p_i w) as [[b|e] w1]; [|done]. simpl in Ht.
    unfold bind at 1 in Hrun.
    destruct (collect xs _ w1) as [[bs1|e] w2] eqn:Hrest; [|done].
    injection Hrun as <- <-.
    destruct (IH _ _ _ Hrest) as [Ht2 Hlen].
    split; [|simpl; by rewrite Hlen].
    rewrite Ht2, Ht, <- app_assoc. done.
Qed.

(** X13. A call of [generate] that returns with the effective output
    format 'flows' has consulted the sampler exactly once under the
    globally constrained regime (one multinomial over all pairs) and
    exactly once per location under the singly constrained regime (one
    multinomial per origin), after the distance matrix and the gravity
    scores and after the format warning, if any. *)
Theorem generate_flows_sampling tess tile_id_column tot_outflows_column
    relevance_column out_format w fdf w' :
  effective_format out_format = "flows" →
  generate tess tile_id_column tot_outflows_column relevance_column out_format w
    = (Ok fdf, w') →
  trace w' =
    trace w ++
    (if bool_decide (out_format ∈ ["flows"; "probabilities"]) then []
     else [Printed (format_warning out_format)]) ++
    [Entered DistanceMatrix; Entered GravityScore] ++
    replicate (if globally (self w) then 1%nat else len tess) (Entered Sampling).
Proof.
  intros Hfmt Hgen.
  destruct (decide (relevance_column ∈ columns tess)) as [Hin|Hin];
    [|by rewrite generate_missing_relevance in Hgen].
  destruct (column_values_present _ _ Hin) as [relevances Hv].
  rewrite (generate_run _ _ _ _ _ _ _ Hv) in Hgen. cbv zeta in Hgen.
  rewrite (bool_decide_eq_true_2 _ Hfmt) in Hgen.
  destruct (column_values tess tot_outflows_column) as [o|]; [|done].
  set (warned := if bool_decide (out_format ∈ _) then _ else _) in *.
  unfold generate_steps in Hgen.
  unfold bind at 1 in Hgen. simpl in Hgen.
  unfold bind at 1, lift at 1 in Hgen.
  destruct (compute_distance_matrix _ _) as [D|]; [|done].
  unfold bind at 1 in Hgen. simpl in Hgen.
  unfold bind at 1 in Hgen. simpl in Hgen.
  unfold bind at 1, lift at 1 in Hgen.
  destruct (compute_gravity_score_of _ _ _) as [P|]; [|done].
  change (globally (set_tile_id_column (Some tile_id_column) (self w)))
    with (globally (self w)) in Hgen.
  destruct (globally (self w)).
  - try rewrite (bool_decide_eq_true_2 ("flows" = "flows")) in Hgen by done.
    unfold bind at 1 in Hgen.
    match type of Hgen with
    | context [draw ?n ?p ?w0] =>
        destruct (draw_trace n p w0) as [Ht _];
        destruct (draw n p w0) as [[sample|e] w1]; [|done]
    end.
    simpl in Ht. unfold bind at 1, lift at 1 in Hgen.
    destruct (Np.reshape _ _ _) as [od_matrix|]; [|done].
    pose proof (from_matrix_to_flowdf_world od_matrix (seq 0 (len tess)) tess w1)
      as Hw. rewrite Hgen in Hw. simpl in Hw. subst w'.
    rewrite Ht. simpl. by rewrite <- !app_assoc.
  - unfold bind at 1, lift at 1 in Hgen.
    destruct (singly_normalize P) as [R|]; [|done].
    try rewrite (bool_decide_eq_true_2 ("flows" = "flows")) in Hgen by done.
    unfold bind at 1 in Hgen.
    match type of Hgen with
    | context [collect ?xs ?body ?w0] =>
        destruct (collect xs body w0) as [[od_matrix|e] w1] eqn:Hcollect; [|done]
    end.
    apply collect_draws in Hcollect as [Ht _]. simpl in Ht.
    pose proof (from_matrix_to_flowdf_world od_matrix (seq 0 (len tess)) tess w1)
      as Hw. rewrite Hgen in Hw. simpl in Hw. subst w'.
    rewrite Ht, length_seq. simpl. by rewrite <- !app_assoc.
Qed.
End Sampling.

(** ** The identifier dictionary of [fit] *)

Section IndexTheorem.
Implicit Types (ids : list string) (t : string) (i j : nat).

Lemma tileid_index_last ids t i :
  tileid_index ids !! t = Some i → ∀ j, (i < j)%nat → ids !! j ≠ Some t.
Proof.
  revert i. induction ids as [|t' ids IH] using rev_ind; intros i.
  - unfold tileid_index. simpl. by rewrite lookup_empty.
  - rewrite tileid_index_snoc.
    destruct (decide (t' = t)) as [->|Hne].
    + rewrite lookup_insert_eq. intros [= <-] j Hj.
      rewrite lookup_ge_None_2; [done |]. rewrite length_app. simpl. lia.
    + rewrite lookup_insert_ne by done. intros Hi j Hj.
      destruct (decide (j < length ids)%nat) as [Hlt|Hge].
      * rewrite lookup_app_l by done. by eapply IH.
      * destruct (decide (j = length ids)) as [->|Hne'].
        -- rewrite lookup_app_r, Nat.sub_diag by done. simpl. congruence.
        -- rewrite lookup_ge_None_2; [done |]. rewrite length_app. simpl. lia.
Qed.

Lemma tileid_index_size_le ids :
  (size (tileid_index ids) ≤ length ids)%nat ∧
  (size (tileid_index ids) = length ids → NoDup ids).
Proof.
  induction ids as [|t ids [IHle IHnd]] using rev_ind.
  - split; [unfold tileid_index; simpl; by rewrite map_size_empty |].
    intros _. constructor.
  - rewrite tileid_index_snoc, length_app. simpl.
    destruct (tileid_index ids !! t) as [i|] eqn:Hlook.
    + rewrite map_size_insert_Some by by eexists. split; [lia |]. lia.
    + rewrite map_size_insert_None by done. split; [lia |].
      intros Hsize. apply NoDup_app. split; [apply IHnd; lia |].
      split; [|apply NoDup_singleton].
      intros x Hx ->%list_elem_of_singleton.
      by apply tileid_index_None in Hlook.
Qed.

(** X14. The dictionary [tileid2index] that [fit] builds from the
    identifier column maps an identifier to the index of its last
    occurrence in the column, and has no other keys.  It has at most one
    entry per location, and exactly one per location if and only if the
    identifiers are pairwise distinct. *)
Theorem tileid_index_last_occurrence ids :
  (∀ t i, tileid_index ids !! t = Some i ↔
          ids !! i = Some t ∧ ∀ j, (i < j)%nat → ids !! j ≠ Some t) ∧
  (size (tileid_index ids) ≤ length ids)%nat ∧
  (size (tileid_index ids) = length ids ↔ NoDup ids).
Proof.
  split; [|split].
  - intros t i. split.
    + intros Hi. split; [by apply tileid_index_lookup | by apply tileid_index_last].
    + intros [Hi Hlast].
      destruct (tileid_index ids !! t) as [i'|] eqn:Hlook.
      * pose proof (tileid_index_lookup _ _ _ Hlook) as Hi'.
        pose proof (tileid_index_last _ _ _ Hlook) as Hlast'.
        f_equal. destruct (Nat.lt_total i i') as [Hlt|[->|Hgt]]; [|done|].
        -- by destruct (Hlast i' Hlt).
        -- by destruct (Hlast' i Hgt).
      * apply tileid_index_None in Hlook. exfalso. apply Hlook.
        by eapply list_elem_of_lookup_2.
  - apply tileid_index_size_le.
  - split; [apply tileid_index_size_le | apply tileid_index_size].
Qed.
End IndexTheorem.

(** ** The loop of [fit] over the flow records *)

Section TrainingLoop.
Context `{Elementary} `{External}.

(** One record during [fit], on a tessellation for which [ci] cannot
    fail: the call returns, prints the warnings of the record, and appends
    a row and the flow exactly when the record passes the filters. *)
Lemma update_training_set_step tess relevance_column v ids X_ y_ w r :
  frame_wf tess →
  num_columns tess !! relevance_column = Some v →
  id_columns tess !! TILE_ID = Some ids →
  calibrating tess v ids X_ y_ w →
  (globally (self w) = false → NoDup ids) →
  ∃ w' rows,
    _update_training_set r w = (Ok tt, w') ∧
    calibrating tess v ids (X_ ++ rows)
      (y_ ++ (if usable ids (fillna0 v) r then [flow r] else [])) w' ∧
    length rows = (if usable ids (fillna0 v) r then 1 else 0)%nat ∧
    Forall (λ row, length row = row_width (self w) (len tess)) rows ∧
    globally (self w') = globally (self w) ∧
    trace w' = trace w ++ warnings_of ids r ∧
    random w' = random w.
Proof.
  intros Hwf Hv Hids Hcal Hnd.
  rewrite (update_training_set_run _ _ _ _ _ _ _ Hcal).
  unfold usable, warnings_of.
  case_bool_decide as Hod.
  { rewrite bool_decide_eq_false_2 by (by intros ?). simpl.
    exists w, []. rewrite !app_nil_r. repeat split; try done; apply Hcal. }
  rewrite bool_decide_eq_true_2 by done. simpl.
  destruct (tileid_index ids !! origin r) as [i_o|] eqn:Hio.
  2:{ eexists _, []. split; [done |]. rewrite !app_nil_r.
      repeat split; try done; apply Hcal. }
  destruct (indexed_location _ _ _ _ _ _ Hwf Hv Hids Hio) as (c_o & w_o & -> & ->).
  destruct (tileid_index ids !! destination r) as [i_d|] eqn:Hid.
  2:{ eexists _, []. split; [done |]. rewrite !app_nil_r.
      repeat split; try done; apply Hcal. }
  destruct (indexed_location _ _ _ _ _ _ Hwf Hv Hids Hid) as (c_d & w_d & -> & Hwd).
  rewrite Hwd.
  destruct (Num.le w_d Num.zero) eqn:Hle; simpl.
  { exists w, []. rewrite !app_nil_r. repeat split; try done; apply Hcal. }
  destruct (frame_wf_lengths _ _ _ _ Hwf Hv Hids) as [Hlen _].
  assert (∃ sc_vars,
    (if globally (self w) then Ok [Num.log w_o]
     else ci i_o (size (tileid_index ids))) = Ok sc_vars ∧
    (1 + length sc_vars + 2 = row_width (self w) (len tess))%nat)
    as (sc_vars & -> & Hwidth).
  { unfold row_width. destruct (globally (self w)) eqn:Hglob.
    - by eexists.
    - rewrite tileid_index_size, Hlen by by apply Hnd.
      rewrite ci_ok by (rewrite <- Hlen; by eapply tileid_index_lookup_lt).
      eexists. split; [done |].
      rewrite length_insert, length_replicate. lia. }
  do 2 eexists. split; [done |]. split; [|split; [|split; [|split]]].
  - destruct Hcal as (Hll & Hws & Hindex & _ & _). by repeat split.
  - done.
  - constructor; [|done]. simpl. rewrite ?length_app. simpl in *. lia.
  - done.
  - simpl. by rewrite app_nil_r.
Qed.

Lemma training_loop tess relevance_column v ids records : ∀ X_ y_ w,
  frame_wf tess →
  num_columns tess !! relevance_column = Some v →
  id_columns tess !! TILE_ID = Some ids →
  calibrating tess v ids X_ y_ w →
  (globally (self w) = false → NoDup ids) →
  ∃ w' rows,
    for_each records _update_training_set w = (Ok tt, w') ∧
    calibrating tess v ids (X_ ++ rows)
      (y_ ++ (flow <$> filter (λ r, usable ids (fillna0 v) r = true) records)) w' ∧
    length rows = length (filter (λ r, usable ids (fillna0 v) r = true) records) ∧
    Forall (λ row, length row = row_width (self w) (len tess)) rows ∧
    globally (self w') = globally (self w) ∧
    trace w' = trace w ++ (records ≫= warnings_of ids) ∧
    random w' = random w.
Proof.
  induction records as [|r records IH]; intros X_ y_ w Hwf Hv Hids Hcal Hnd.
  - exists w, []. simpl. rewrite !app_nil_r. repeat split; try done; apply Hcal.
  - destruct (update_training_set_step tess relevance_column v ids X_ y_ w r
                Hwf Hv Hids Hcal Hnd)
      as (w1 & rows1 & Hrun1 & Hcal1 & Hlen1 & Hall1 & Hglob1 & Htrace1 & Hrand1).
    destruct (IH _ _ w1 Hwf Hv Hids Hcal1) as
      (w' & rows & Hrun & Hcal' & Hlen & Hall & Hglob & Htrace & Hrand).
    { by rewrite Hglob1. }
    exists w', (rows1 ++ rows).
    simpl. unfold bind at 1. rewrite Hrun1. split; [exact Hrun |].
    rewrite filter_cons.
    assert (row_width (self w1) (len tess) = row_width (self w) (len tess)) as Hw
      by (unfold row_width; by rewrite Hglob1).
    rewrite Hw in Hall.
    change ((r :: records) ≫= warnings_of ids)
      with (warnings_of ids r ++ (records ≫= warnings_of ids)).
    destruct (usable ids (fillna0 v) r) eqn:Huse.
    + rewrite decide_True by done.
      rewrite <- !app_assoc in Hcal'.
      split; [exact Hcal' |]. rewrite length_app, Hlen1, Hlen. simpl.
      split; [done |]. split; [by apply Forall_app |].
      split; [congruence |]. split; [|congruence].
      by rewrite Htrace, Htrace1, <- app_assoc.
    + rewrite decide_False by (by intros ?).
      rewrite app_nil_r, <- app_assoc in Hcal'.
      split; [exact Hcal' |]. rewrite length_app, Hlen1, Hlen. simpl.
      split; [done |]. split; [by apply Forall_app |].
      split; [congruence |]. split; [|congruence].
      by rewrite Htrace, Htrace1, <- app_assoc.
Qed.

(** X15. On a well-formed tessellation (with pairwise distinct
    identifiers under the singly constrained regime), the first part of
    [fit] hands to the solver, as responses, the flows of exactly those
    records of the table that pass the filters, in the order of the
    table, and a design matrix with one row per response, all rows of the
    same width: 4 cells under the globally constrained regime, the number
    of locations plus 3 under the singly constrained one.  A table without
    a usable record gives two empty arrays. *)
Theorem calibration_data_is_filtered flow_df relevance_column w v ids :
  frame_wf (tessellation flow_df) →
  num_columns (tessellation flow_df) !! relevance_column = Some v →
  id_columns (tessellation flow_df) !! TILE_ID = Some ids →
  (_gravity_type (self w) ≠ "globally constrained" → NoDup ids) →
  ∃ X_ w',
    calibration_data flow_df relevance_column w =
      (Ok (flow <$> filter (λ r, usable ids (fillna0 v) r = true) (flows flow_df),
           X_), w') ∧
    length X_ =
      length (filter (λ r, usable ids (fillna0 v) r = true) (flows flow_df)) ∧
    Forall (λ row, length row =
                   row_width (self w) (len (tessellation flow_df))) X_.
Proof.
  intros Hwf Hv Hids Hnd.
  rewrite (calibration_data_run _ _ _ _ _ (column_values_numbers _ _ _ Hv) Hids). simpl.
  set (w1 := {| self := _; trace := _; random := _ |}).
  destruct (training_loop (tessellation flow_df) relevance_column v ids
              (flows flow_df) [] [] w1 Hwf Hv Hids
              (fit_starts_calibrating flow_df w v ids))
    as (w2 & rows & Hrun & Hcal & Hlen & Hall & Hglob & _ & _).
  { intros Hg. apply Hnd. unfold globally in Hg.
    apply bool_decide_eq_false_1 in Hg. by destruct (self w). }
  destruct Hcal as (_ & _ & _ & HX & Hy). simpl in HX, Hy.
  exists rows. eexists.
  unfold bind at 1. rewrite Hrun.
  unfold bind at 1. simpl. unfold bind at 1, getattr at 1. simpl. rewrite Hy.
  unfold bind at 1, getattr at 1. simpl. rewrite HX.
  split; [reflexivity |]. split; [done |].
  replace (row_width (self w)) with (row_width (self w1)); [done |].
  unfold row_width, globally. by destruct (self w).
Qed.

(** X16. On such a tessellation [fit] prints, record by record in the
    order of the table, one message for every record that is not a
    self-loop and has an identifier outside the dictionary: the message
    names the origin when the origin is unknown (also when the destination
    is unknown too), and the destination otherwise.  It prints nothing
    else, and then enters the regression once, whether the solver and the
    reading of its coefficients succeed or not; it never uses the random
    source. *)
Theorem fit_prints_missing_locations flow_df relevance_column w v ids :
  frame_wf (tessellation flow_df) →
  num_columns (tessellation flow_df) !! relevance_column = Some v →
  id_columns (tessellation flow_df) !! TILE_ID = Some ids →
  (_gravity_type (self w) ≠ "globally constrained" → NoDup ids) →
  trace (fit flow_df relevance_column w).2 =
    trace w ++ (flows flow_df ≫= warnings_of ids) ++ [Entered Regression] ∧
  random (fit flow_df relevance_column w).2 = random w.
Proof.
  intros Hwf Hv Hids Hnd.
  rewrite (fit_run _ _ _ _ _ (column_values_numbers _ _ _ Hv) Hids). simpl.
  set (w1 := {| self := _; trace := _; random := _ |}).
  destruct (training_loop (tessellation flow_df) relevance_column v ids
              (flows flow_df) [] [] w1 Hwf Hv Hids
              (fit_starts_calibrating flow_df w v ids))
    as (w2 & rows & Hrun & Hcal & _ & _ & _ & Htrace & Hrand).
  { intros Hg. apply Hnd. unfold globally in Hg.
    apply bool_decide_eq_false_1 in Hg. by destruct (self w). }
  destruct Hcal as (_ & _ & _ & HX & Hy). simpl in HX, Hy.
  match goal with
  | |- trace (?m w1).2 = _ ∧ _ =>
      assert (∃ res g', m w1 =
                (res, {| self := g'; trace := trace w2 ++ [Entered Regression];
                         random := random w2 |})) as (res & g' & ->)
  end.
  { unfold bind at 1. rewrite Hrun.
    unfold bind at 1. simpl. unfold bind at 1, getattr at 1. simpl. rewrite Hy.
    unfold bind at 1, getattr at 1. simpl. rewrite HX.
    unfold bind at 1, lift at 1.
    destruct (GLM_fit _ _) as [params|e]; simpl; [|by eauto].
    unfold bind at 1. simpl. unfold bind at 1.
    destruct (globally (self w2)).
    - unfold bind, lift, getitem, modify_self. simpl.
      repeat case_match; simplify_eq; simpl; by eauto.
    - unfold bind, lift, getitem_back, getitem, modify_self. simpl.
      repeat case_match; simplify_eq; simpl; by eauto. }
  simpl. split; [|by rewrite Hrand].
  rewrite Htrace. simpl. by rewrite <- app_assoc.
Qed.
End TrainingLoop.

(** ** What a failing [fit] leaves behind *)

Section FitFailures.
Context `{Elementary} `{External}.

(** X17. When the tessellation of the flow table has no column of the
    name of the relevance column, or none of the name [constants.TILE_ID]
    (the only identifier column [fit] ever reads, whatever column
    [generate] was given), [fit] raises [KeyError] before it looks at any
    flow record and before the solver is called: nothing is printed, the
    parameters, the identifier dictionary and the training arrays are as
    they were, but the centroids of the tessellation have already been
    stored on the model; the relevances are as they were when it is the
    relevance column that is missing. *)
Theorem fit_missing_column flow_df relevance_column w :
  relevance_column ∉ columns (tessellation flow_df) ∨
  TILE_ID ∉ columns (tessellation flow_df) →
  ∃ w', fit flow_df relevance_column w = (Raise KeyError, w') ∧
    trace w' = trace w ∧ random w' = random w ∧
    lats_lngs (self w') = Some (geometry (tessellation flow_df)) ∧
    X (self w') = X (self w) ∧ y (self w') = y (self w) ∧
    tileid2index (self w') = tileid2index (self w) ∧
    _origin_exp (self w') = _origin_exp (self w) ∧
    _destination_exp (self w') = _destination_exp (self w) ∧
    _deterrence_func_args (self w') = _deterrence_func_args (self w) ∧
    (relevance_column ∉ columns (tessellation flow_df) →
     weights (self w') = weights (self w)).
Proof.
  intros Hmissing. unfold fit.
  unfold bind at 1. simpl. unfold bind at 1, lift at 1.
  destruct (decide (relevance_column ∈ columns (tessellation flow_df)))
    as [Hin|Hin].
  - destruct Hmissing as [?|Hids]; [done |].
    destruct (column_values_present _ _ Hin) as [values ->].
    unfold bind at 1. simpl. unfold bind at 1, lift at 1, id_values.
    assert (id_columns (tessellation flow_df) !! TILE_ID = None) as ->.
    { apply eq_None_not_Some. intros Hsome. apply Hids, elem_of_columns.
      by right. }
    eexists. split; [done |]. by repeat split.
  - rewrite (column_values_absent _ _ Hin).
    eexists. split; [done |]. by repeat split.
Qed.

Lemma fails_with_bind {A B} P (m : M A) (f : A → M B) :
  keeps P m → (∀ a, fails_with P (f a)) → fails_with P (bind m f).
Proof.
  intros Hm Hf w e w' HP. unfold bind. specialize (Hm w HP).
  destruct (m w) as [[a|e1] w1]; simpl in *.
  - by apply Hf.
  - by intros [= <- <-].
Qed.

Lemma keeps_training_arrays_update flow_example :
  keeps has_training_arrays (_update_training_set flow_example).
Proof.
  unfold _update_training_set.
  repeat first
    [ apply keeps_bind
    | apply keeps_modify_self; intros g [HX Hy]; split; simpl; by eauto
    | apply keeps_preserves; monad_frame; fail
    | progress intros
    | case_bool_decide
    | case_match ].
Qed.

(** X18. [fit] deletes the training arrays [X] and [y] only at its very
    end: whenever it raises after the two columns of the tessellation have
    been read (in the loop over the records, in the solver, or while the
    coefficients are read by position), both arrays are still attributes
    of the model, together with the three arrays set from the
    tessellation. *)
Theorem failed_fit_keeps_training_arrays flow_df relevance_column w e w' v ids :
  num_columns (tessellation flow_df) !! relevance_column = Some v →
  id_columns (tessellation flow_df) !! TILE_ID = Some ids →
  fit flow_df relevance_column w = (Raise e, w') →
  is_Some (X (self w')) ∧ is_Some (y (self w')) ∧
  lats_lngs (self w') = Some (geometry (tessellation flow_df)) ∧
  weights (self w') = Some (Numbers (fillna0 v)) ∧
  tileid2index (self w') = Some (tileid_index ids).
Proof.
  intros Hv Hids Hfit.
  rewrite (fit_run _ _ _ _ _ (column_values_numbers _ _ _ Hv) Hids) in Hfit. simpl in Hfit.
  set (w1 := {| self := _; trace := _; random := _ |}) in Hfit.
  set (P := λ g : Gravity,
         has_training_arrays g ∧
         lats_lngs g = Some (geometry (tessellation flow_df)) ∧
         weights g = Some (Numbers (fillna0 v)) ∧
         tileid2index g = Some (tileid_index ids)).
  assert (P (self w1)) as HP1.
  { unfold P, has_training_arrays. simpl. by eauto 10. }
  assert (∀ r, keeps P (_update_training_set r)) as Hupdate.
  { intros r w0 (Harr & Hframe).
    split; [by apply keeps_training_arrays_update |].
    assert (training_frame (self w0) (self w0)) as Hrefl
      by (unfold training_frame; by destruct (self w0)).
    pose proof (keeps_update_training_set (self w0) r w0 Hrefl) as Hf.
    unfold training_frame in Hf. rewrite Hf. by destruct (self w0). }
  assert (∀ f, (∀ g, X (f g) = X g ∧ y (f g) = y g ∧ lats_lngs (f g) = lats_lngs g ∧
                     weights (f g) = weights g ∧
                     tileid2index (f g) = tileid2index g) →
               keeps P (modify_self f)) as Hsetter.
  { intros f Hf. apply keeps_modify_self. intros g HP.
    unfold P, has_training_arrays in *.
    destruct (Hf g) as (HX & Hy & Hl & Hw & Ht).
    rewrite HX, Hy, Hl, Hw, Ht. exact HP. }
  assert (P (self w')) as ((HX & Hy) & ? & ? & ?); [|done].
  revert Hfit. generalize w1 e w' HP1. clear HP1.
  change (fails_with P
    (for_each (flows flow_df) _update_training_set ;;;
     emit (Entered Regression) ;;;
     y_ <- getattr y ;;
     X_ <- getattr X ;;
     params <- lift (GLM_fit y_ X_) ;;
     g <- get_self ;;
     (if globally g then
        p1 <- lift (getitem params 1) ;;
        modify_self (set_origin_exp p1) ;;;
        p2 <- lift (getitem params 2) ;;
        modify_self (set_destination_exp p2) ;;;
        p3 <- lift (getitem params 3) ;;
        modify_self (set_deterrence_func_args [p3])
      else
        modify_self (set_origin_exp Num.one) ;;;
        p2 <- lift (getitem_back params 2) ;;
        modify_self (set_destination_exp p2) ;;;
        p1 <- lift (getitem_back params 1) ;;
        modify_self (set_deterrence_func_args [p1])) ;;;
     modify_self (set_X None) ;;;
     modify_self (set_y None))).
  apply fails_with_bind; [by apply keeps_for_each | intros _].
  apply fails_with_bind; [apply keeps_preserves; monad_frame | intros _].
  apply fails_with_bind; [apply keeps_preserves; monad_frame | intros y_].
  apply fails_with_bind; [apply keeps_preserves; monad_frame | intros X_].
  apply fails_with_bind; [apply keeps_preserves; monad_frame | intros params].
  apply fails_with_bind; [apply keeps_preserves; monad_frame | intros g].
  apply fails_with_bind.
  - destruct (globally g);
      repeat first
        [ apply keeps_bind
        | apply Hsetter; intros g0; by destruct g0
        | apply keeps_preserves; monad_frame; fail
        | progress intros ].
  - intros _ w0 e0 w0' _. unfold bind, modify_self. simpl. done.
Qed.
End FitFailures.

(** ** Repeated identifiers under the singly constrained regime *)

Section RepeatedIdentifiers.
Context `{Elementary} `{External}.

Lemma tileid_index_of_last ids t :
  last ids = Some t → tileid_index ids !! t = Some (length ids - 1)%nat.
Proof.
  intros Hlast. destruct ids as [|t0 ids0] using rev_ind; [done |].
  rewrite last_snoc in Hlast. injection Hlast as ->.
  rewrite tileid_index_snoc, lookup_insert_eq, length_app. simpl.
  f_equal. lia.
Qed.

(** X19. Under the singly constrained regime, when two locations of
    the tessellation share an identifier the dictionary has fewer entries
    than there are locations, and the one-hot list is built with that
    smaller length: a record that passes the filters and whose origin is
    the last identifier of the column makes [_update_training_set] raise
    [IndexError] (from [ci]); the record is not appended. *)
Theorem repeated_identifier_raises tess relevance_column v ids X_ y_ w r i_d w_d :
  frame_wf tess →
  num_columns tess !! relevance_column = Some v →
  id_columns tess !! TILE_ID = Some ids →
  calibrating tess v ids X_ y_ w →
  _gravity_type (self w) ≠ "globally constrained" →
  ¬ NoDup ids →
  last ids = Some (origin r) →
  origin r ≠ destination r →
  tileid_index ids !! destination r = Some i_d →
  fillna0 v !! i_d = Some w_d →
  Num.gt w_d Num.zero = true →
  _update_training_set r w = (Raise IndexError, w).
Proof.
  intros Hwf Hv Hids Hcal Hsingly Hdup Hlast Hod Hid Hwd Hpos.
  rewrite (update_training_set_run _ _ _ _ _ _ _ Hcal).
  rewrite bool_decide_eq_false_2 by done.
  pose proof (tileid_index_of_last _ _ Hlast) as Hio. rewrite Hio, Hid.
  destruct (indexed_location _ _ _ _ _ _ Hwf Hv Hids Hio) as (c_o & w_o & -> & ->).
  destruct (indexed_location _ _ _ _ _ _ Hwf Hv Hids Hid) as (c_d & w_d' & -> & Hwd').
  rewrite Hwd in Hwd'. injection Hwd' as <-.
  rewrite Hwd, (gt_zero_not_le _ Hpos).
  unfold globally. rewrite bool_decide_eq_false_2 by done.
  destruct (tileid_index_size_le ids) as [Hle Hnd].
  assert (size (tileid_index ids) < length ids)%nat as Hlt.
  { destruct (decide (size (tileid_index ids) = length ids)) as [Heq|Hne]; [|lia].
    by destruct (Hdup (Hnd Heq)). }
  unfold ci. rewrite decide_False by lia. done.
Qed.
End RepeatedIdentifiers.

(** ** The identity of a model *)

Section Identity.
Context `{Elementary} `{External}.

Lemma keeps_identity_update c flow_example :
  keeps (λ g, identity g = c) (_update_training_set flow_example).
Proof.
  unfold _update_training_set.
  repeat first
    [ apply keeps_bind
    | apply keeps_modify_self; intros g Hg; exact Hg
    | apply keeps_preserves; monad_frame; fail
    | progress intros
    | case_bool_decide
    | case_match ].
Qed.

Lemma keeps_identity_fit c flow_df relevance_column :
  keeps (λ g, identity g = c) (fit flow_df relevance_column).
Proof.
  unfold fit.
  repeat first
    [ apply keeps_bind
    | apply keeps_for_each; intros; apply keeps_identity_update
    | apply keeps_modify_self; intros g Hg; exact Hg
    | apply keeps_preserves; monad_frame; fail
    | progress intros
    | case_bool_decide
    | case_match ].
Qed.

(** X20. The six read-only properties of a new model return the
    arguments of the constructor, an unknown deterrence kind included, and
    the stored deterrence function is the exponential one exactly when the
    kind is 'exponential', so that the distance term [fit] uses (the
    negated distance or its logarithm) always matches the function
    [generate] uses.  No call of [generate], [fit] or
    [_update_training_set], whether it returns or raises, changes the name,
    the deterrence kind, the gravity type or the deterrence function. *)
Theorem identity_is_kept :
  (∀ kind args oe de gt nm,
     let g := (__init__ kind args oe de gt nm).1 in
     name g = nm ∧ deterrence_func_type g = kind ∧
     deterrence_func_args g = args ∧ origin_exp g = oe ∧
     destination_exp g = de ∧ gravity_type g = gt ∧
     (_deterrence_func g = F_exponential ↔ kind = "exponential") ∧
     ∀ dist, deterrence_term g dist =
             match _deterrence_func g with
             | F_exponential => Num.neg dist
             | F_powerlaw => Num.log dist
             end) ∧
  (∀ tess tile_id_column tot_outflows_column relevance_column out_format w,
     identity (self (generate tess tile_id_column tot_outflows_column
                              relevance_column out_format w).2)
     = identity (self w)) ∧
  (∀ flow_df relevance_column w,
     identity (self (fit flow_df relevance_column w).2) = identity (self w)) ∧
  (∀ flow_example w,
     identity (self (_update_training_set flow_example w).2) = identity (self w)).
Proof.
  split; [|split; [|split]].
  - intros kind args oe de gt nm. unfold __init__, deterrence_term. simpl.
    destruct (decide (kind = "power_law")) as [->|Hp];
      [|destruct (decide (kind = "exponential")) as [->|He]]; simpl.
    + repeat split; try done.
    + repeat split; try done.
    + repeat split; try done. intros dist.
      by rewrite bool_decide_eq_false_2.
  - intros tess tile_id_column tot_outflows_column relevance_column out_format w.
    destruct (decide (relevance_column ∈ columns tess)) as [Hin|Hin].
    + destruct (column_values_present _ _ Hin) as [relevances Hrel].
      rewrite (generate_run _ _ _ _ _ _ _ Hrel). simpl.
      repeat case_match; try done; by rewrite preserves_generate_steps.
    + by rewrite generate_missing_relevance.
  - intros flow_df relevance_column w.
    by apply (keeps_identity_fit (identity (self w))).
  - intros flow_example w.
    by apply (keeps_identity_update (identity (self w))).
Qed.

End Identity.

(** * The statements on sample data *)

Module Examples.
Import Sample SampleData.
#[local] Existing Instance elementary.
#[local] Existing Instance external.

(** Closed decidable facts are settled by evaluation. *)
Ltac by_evaluation := refine (bool_decide_unpack _ _); vm_compute; exact I.

Lemma frame_wf_by_columns tess :
  map_Forall (λ _ v, length v = len tess) (id_columns tess) →
  map_Forall (λ _ v, length v = len tess) (num_columns tess) →
  frame_wf tess.
Proof. intros Hid Hnum. split; intros c v Hc; [exact (Hid c v Hc) | exact (Hnum c v Hc)]. Defined.

Lemma tess3_wf : frame_wf tess3.
Proof. apply frame_wf_by_columns; by_evaluation. Defined.

Lemma tess_zero_origin_wf : frame_wf tess_zero_origin.
Proof. apply frame_wf_by_columns; by_evaluation. Defined.

Lemma tess_all_zero_wf : frame_wf tess_all_zero.
Proof. apply frame_wf_by_columns; by_evaluation. Defined.

(** C1 on the code at two inputs.  With a destination exponent 2 and an
    origin exponent 1 the scores are not symmetric: the normalised entry
    from "a" to "b" is 16/17, which is the flow [generate] returns, while
    the score divided by the sum of its row is 64/65.  With the default
    model and a location of relevance 0, the row of that origin in the
    raw scores is entirely zero and its row in the normalised matrix is
    NaN, not zero. *)
Lemma singly_probabilities_not_row_normalized :
  (∃ P R,
     gravity_scores gravity12 tess3 relevances3 = Ok P ∧
     singly_normalize P = Ok R ∧
     (generate tess3 "tile_ID" "tot_outflow" "relevance" "probabilities"
               (world0 gravity12)).1 =
       new_FlowDataFrame (seq 0 3 ≫= positive_records ["a"; "b"; "c"] R)
                         "tile_ID" tess3 ∧
     Num.div (Np.entry P 0 1) (row_sum P 0) = Fin (64 # 65) ∧
     Np.entry R 0 1 = Fin (16 # 17) ∧
     (seq 0 3 ≫= positive_records ["a"; "b"; "c"] R) !! 0%nat =
       Some {| origin := "a"; destination := "b"; flow := Fin (16 # 17) |} ∧
     ¬ row_normalized 3 P R) ∧
  (∃ P R,
     gravity_scores gravity0 tess_zero_origin [Fin 0; Fin 20; Fin 5] = Ok P ∧
     singly_normalize P = Ok R ∧
     (∀ j, (j < 3)%nat → Np.entry P 0 j = Num.zero) ∧
     Np.entry R 0 1 = NaN ∧
     ¬ row_normalized 3 P R).
Proof.
  split.
  - do 2 eexists. split; [vm_compute; reflexivity |].
    split; [vm_compute; reflexivity |].
    split; [vm_compute; reflexivity |].
    split; [vm_compute; reflexivity |].
    split; [vm_compute; reflexivity |].
    split; [vm_compute; reflexivity |].
    intros Hrn. destruct (Hrn 0%nat) as [Hrow _]; [lia |].
    specialize (Hrow eq_refl 1%nat). vm_compute in Hrow.
    assert (Fin (16 # 17) = Fin (64 # 65)) as Hbad by (apply Hrow; lia).
    discriminate Hbad.
  - do 2 eexists. split; [vm_compute; reflexivity |].
    split; [vm_compute; reflexivity |].
    assert (∀ j, (j < 3)%nat →
              Np.entry [[Fin 0; Fin 0; Fin 0]; [Fin 0; Fin 0; Fin (100 # 9)];
                        [Fin 0; Fin (100 # 9); Fin 0]] 0 j = Num.zero) as Hzero.
    { by intros [|[|[|j]]] Hj. }
    split; [exact Hzero |]. split; [reflexivity |].
    intros Hrn. destruct (Hrn 0%nat) as [_ Hrow]; [lia |].
    specialize (Hrow Hzero 1%nat). vm_compute in Hrow.
    assert (NaN = Fin 0) as Hbad by (apply Hrow; lia). discriminate Hbad.
Qed.

(** C3 fails on the code when an identifier names two locations: the
    dictionary then has fewer entries than there are locations, and the
    one-hot block of a record that passes the filters has the width of
    the dictionary. *)
Lemma repeated_identifier_narrows_one_hot :
  len tess_repeated = 3%nat ∧
  _gravity_type gravity0 = "singly constrained" ∧
  ∃ row w',
    _update_training_set {| origin := "a"; destination := "b"; flow := Fin 3 |}
      (calibrating_world_on gravity0 tess_repeated relevances3 repeated_ids)
      = (Ok tt, w') ∧
    X (self w') = Some [row] ∧
    take 3 row = [Fin 1; Fin 0; Fin 1] ∧
    length row = (1 + 2 + 2)%nat ∧
    length row ≠ (1 + len tess_repeated + 2)%nat.
Proof.
  split; [reflexivity |]. split; [reflexivity |].
  do 2 eexists. split; [vm_compute; reflexivity |].
  split; [reflexivity |]. split; [reflexivity |]. split; [reflexivity |].
  vm_compute. discriminate.
Qed.

(** C10 fails on the code when an identifier names two locations: a
    record between two known, distinct locations whose destination has a
    positive relevance, and whose origin has relevance 0, is not included
    in the design matrix; under the singly constrained regime the call
    raises [IndexError] for the origin that holds the last index. *)
Lemma repeated_identifier_drops_valid_record :
  _gravity_type gravity0 = "singly constrained" ∧
  tileid_index repeated_ids !! "b" = Some 2%nat ∧
  tileid_index repeated_ids !! "a" = Some 1%nat ∧
  fillna0 [Fin 10; Fin 20; Fin 0] !! 2%nat = Some (Fin 0) ∧
  fillna0 [Fin 10; Fin 20; Fin 0] !! 1%nat = Some (Fin 20) ∧
  Num.gt (Fin 20) Num.zero = true ∧
  _update_training_set {| origin := "b"; destination := "a"; flow := Fin 3 |}
    (calibrating_world_on gravity0 tess_repeated [Fin 10; Fin 20; Fin 0]
       repeated_ids)
  = (Raise IndexError,
     calibrating_world_on gravity0 tess_repeated [Fin 10; Fin 20; Fin 0]
       repeated_ids) ∧
  X (self (calibrating_world_on gravity0 tess_repeated [Fin 10; Fin 20; Fin 0]
             repeated_ids)) = Some [].
Proof. repeat split; vm_compute; reflexivity. Qed.

(** C5 fails on the code: a call of [generate] on a fresh model leaves
    [_tile_id_column] set, so the model object after the call is not the
    object before it. *)
Lemma generate_changes_tile_id_column :
  _tile_id_column (self (world0 gravity0)) = None ∧
  _tile_id_column
    (self (generate tess3 "tile_ID" "tot_outflow" "relevance" "probabilities"
                    (world0 gravity0)).2) = Some "tile_ID" ∧
  self (generate tess3 "tile_ID" "tot_outflow" "relevance" "probabilities"
                 (world0 gravity0)).2 ≠ self (world0 gravity0).
Proof.
  split; [reflexivity |]. split; [vm_compute; reflexivity |].
  intros Heq. apply (f_equal _tile_id_column) in Heq.
  vm_compute in Heq. discriminate Heq.
Qed.

(** C7 fails on the code for a proper subset of the origins: with the
    single origin 1 among three locations the pair of the locations 0
    and 2 is never assigned, although the matrix is returned. *)
Lemma origins_subset_leaves_pairs_unwritten :
  (∃ D, compute_distance_matrix tess3 [1%nat] = Ok D) ∧
  distance_matrix_writes tess3 [1%nat] = [(1, 2); (2, 1)]%nat ∧
  ¬ (∀ i j, (i < j < 3)%nat →
       occurrences (i, j) (distance_matrix_writes tess3 [1%nat]) = 1%nat).
Proof.
  split; [eexists; vm_compute; reflexivity |].
  split; [vm_compute; reflexivity |].
  intros Hall. specialize (Hall 0%nat 2%nat). vm_compute in Hall.
  assert (0 = 1)%nat as Hbad by (apply Hall; lia). discriminate Hbad.
Qed.

(** C8 fails on the code: without a relevance column [generate] raises
    before any computing step although the output format is
    'probabilities' and the total-outflow column is there. *)
Lemma generate_raises_without_relevance_column :
  "tot_outflow" ∈ columns tess_no_relevance ∧
  ¬ (raises_before_computing
       (generate tess_no_relevance "tile_ID" "tot_outflow" "relevance"
                 "probabilities") (world0 gravity0)
     ↔ effective_format "probabilities" = "flows" ∧
       "tot_outflow" ∉ columns tess_no_relevance).
Proof.
  split; [by_evaluation |].
  intros [Hraises _].
  destruct Hraises as [Hflows _]; [|vm_compute in Hflows; discriminate Hflows].
  split.
  - eexists. vm_compute. reflexivity.
  - intros s Hin. vm_compute in Hin. by apply elem_of_nil in Hin.
Qed.

(** ** The theorems at sample inputs *)

(** C1 on the model with the exponents 1 and 2 and the three sample
    locations: the entry from "a" to "b" is the score from "b" to "a"
    divided by the sum of the first column of the scores. *)
Lemma singly_probabilities_use_column_sums_witness :
  frame_wf tess3 ∧
  _gravity_type (self (world0 gravity12)) = "singly constrained" ∧
  ∃ P R,
    gravity_scores (self (world0 gravity12)) tess3 (fillna0 relevances3) = Ok P ∧
    singly_normalize P = Ok R ∧
    (generate tess3 "tile_ID" "tot_outflow" "relevance" "probabilities"
              (world0 gravity12)).1 =
      new_FlowDataFrame (seq 0 (len tess3) ≫= positive_records ["a"; "b"; "c"] R)
                        "tile_ID" tess3 ∧
    Np.entry R 0 1 = Num.div (Np.entry P 1 0) (Num.sum (Np.column P 0)) ∧
    Np.entry R 0 1 = Fin (16 # 17) ∧
    Num.div (Np.entry P 0 1) (row_sum P 0) = Fin (64 # 65) ∧
    row_sum R 0 = Num.one.
Proof.
  split; [exact tess3_wf |]. split; [reflexivity |].
  destruct (singly_probabilities_use_column_sums tess3 "tile_ID" "tot_outflow"
              "relevance" (world0 gravity12) relevances3 ["a"; "b"; "c"]
              (Fin (-2)) tess3_wf)
    as (P & R & HP & HR & Hgen & Hrows);
    [vm_compute; reflexivity | vm_compute; reflexivity | reflexivity
    | reflexivity |].
  exists P, R.
  assert (P = [[Fin 0; Fin 1000; Fin (125 # 8)]; [Fin 500; Fin 0; Fin (500 # 9)];
               [Fin (125 # 4); Fin (2000 # 9); Fin 0]]) as HPval.
  { pose proof HP as HP'. vm_compute in HP'. injection HP' as <-. reflexivity. }
  destruct (Hrows 0%nat) as (Hentries & Hsum & _); [vm_compute; lia |].
  split; [exact HP |]. split; [exact HR |]. split; [exact Hgen |].
  split; [apply Hentries; vm_compute; lia |].
  split.
  { rewrite Hentries by (vm_compute; lia). rewrite HPval. vm_compute. reflexivity. }
  split; [rewrite HPval; vm_compute; reflexivity |].
  apply Hsum. rewrite HPval. vm_compute. reflexivity.
Defined.

(** C2 on the default model and the three sample locations. *)
Lemma compute_gravity_score_entries_witness :
  _deterrence_func_args gravity0 = [Fin (-2)] ∧
  Np.has_shape distances3 3 3 ∧
  ∃ P, compute_gravity_score gravity0 distances3 relevances3 relevances3 = Ok P ∧
       Np.entry P 0 1 = Fin 50 ∧ Np.entry P 0 0 = Num.zero.
Proof.
  assert (Np.has_shape distances3 3 3) as Hshape
    by (split; [reflexivity | repeat constructor]).
  split; [reflexivity |]. split; [exact Hshape |].
  destruct (compute_gravity_score_entries gravity0 distances3 relevances3
              relevances3 (Fin (-2)) eq_refl Hshape eq_refl)
    as (P & HP & _ & Hentries & _).
  exists P. split; [exact HP |]. split.
  - by rewrite (Hentries 0%nat 1%nat (Fin 10) (Fin 20) eq_refl eq_refl).
  - by rewrite (Hentries 0%nat 0%nat (Fin 10) (Fin 10) eq_refl eq_refl).
Defined.

(** C3 on the first record of the sample flow table, singly constrained. *)
Lemma valid_record_appends_row_witness :
  frame_wf tess3 ∧
  calibrating tess3 relevances3 ["a"; "b"; "c"] [] []
    (calibrating_world gravity0 tess3 relevances3) ∧
  NoDup ["a"; "b"; "c"] ∧
  ∃ row w',
    _update_training_set {| origin := "a"; destination := "b"; flow := Fin 3 |}
      (calibrating_world gravity0 tess3 relevances3) = (Ok tt, w') ∧
    X (self w') = Some [row] ∧
    y (self w') = Some [Fin 3] ∧
    length row = 6%nat.
Proof.
  assert (NoDup ["a"; "b"; "c"]) as Hnd by by_evaluation.
  assert (calibrating tess3 relevances3 ["a"; "b"; "c"] [] []
            (calibrating_world gravity0 tess3 relevances3)) as Hcal
    by (repeat split).
  split; [exact tess3_wf |]. split; [exact Hcal |]. split; [exact Hnd |].
  destruct (valid_record_appends_row tess3 "relevance" relevances3
              ["a"; "b"; "c"] [] []
              (calibrating_world gravity0 tess3 relevances3)
              {| origin := "a"; destination := "b"; flow := Fin 3 |}
              0%nat 1%nat (Fin 20) tess3_wf)
    as (c_o & c_d & w_o & row & term & w' & _ & _ & _ & _ & Hrun & HX & Hy &
        _ & _ & _ & Hsingly);
    [vm_compute; reflexivity | vm_compute; reflexivity | exact Hcal
    | intros _; exact Hnd | discriminate | vm_compute; reflexivity
    | vm_compute; reflexivity | reflexivity | reflexivity |].
  exists row, w'. do 3 (split; [done |]).
  destruct (Hsingly eq_refl) as (one_hot & -> & Hlen & _).
  rewrite !length_app, Hlen. reflexivity.
Defined.

(** C4 on the sample flow table, with the sample solver. *)
Lemma fit_sets_parameters_by_position_witness :
  fit flows3 "relevance" (world0 gravity0) =
    (Ok tt, (fit flows3 "relevance" (world0 gravity0)).2) ∧
  _origin_exp (self (fit flows3 "relevance" (world0 gravity0)).2) = Num.one ∧
  _destination_exp (self (fit flows3 "relevance" (world0 gravity0)).2) = Fin 5 ∧
  _deterrence_func_args (self (fit flows3 "relevance" (world0 gravity0)).2)
    = [Fin 6].
Proof.
  assert (fit flows3 "relevance" (world0 gravity0) =
            (Ok tt, (fit flows3 "relevance" (world0 gravity0)).2)) as Hfit
    by (vm_compute; reflexivity).
  split; [exact Hfit |].
  destruct (fit_sets_parameters_by_position flows3 "relevance" (world0 gravity0)
              _ Hfit) as (y_ & X_ & params & w1 & _ & _ & _ & Hsingly).
  destruct (Hsingly eq_refl) as (Horigin & _). split; [exact Horigin |].
  split; vm_compute; reflexivity.
Defined.

(** C5 as amended, on the sample flow table and on three tessellations:
    with a numeric relevance column, with a relevance column of labels
    (the call raises after the column name has been stored) and without
    a relevance column. *)
Lemma generate_and_fit_frame_witness :
  fit flows3 "relevance" (world0 gravity0) =
    (Ok tt, (fit flows3 "relevance" (world0 gravity0)).2) ∧
  X (self (fit flows3 "relevance" (world0 gravity0)).2) = None ∧
  _name (self (fit flows3 "relevance" (world0 gravity0)).2) = "Gravity model" ∧
  self (generate tess3 "tile_ID" "tot_outflow" "relevance" "flows"
                 (world0 gravity0)).2
    = set_tile_id_column (Some "tile_ID") gravity0 ∧
  (generate tess_labelled "tile_ID" "tot_outflow" "relevance" "flows"
            (world0 gravity0)).1 = Raise TypeError ∧
  self (generate tess_labelled "tile_ID" "tot_outflow" "relevance" "flows"
                 (world0 gravity0)).2
    = set_tile_id_column (Some "tile_ID") gravity0 ∧
  self (generate tess_no_relevance "tile_ID" "tot_outflow" "relevance" "flows"
                 (world0 gravity0)).2
    = gravity0.
Proof.
  assert (fit flows3 "relevance" (world0 gravity0) =
            (Ok tt, (fit flows3 "relevance" (world0 gravity0)).2)) as Hfit
    by (vm_compute; reflexivity).
  split; [exact Hfit |].
  destruct generate_and_fit_frame as [Hgenerate Hfitted].
  destruct (Hfitted flows3 "relevance" (world0 gravity0) _ Hfit)
    as (v & ids & oe & de & a & _ & _ & Hself).
  split; [rewrite Hself; reflexivity |]. split; [rewrite Hself; reflexivity |].
  rewrite !Hgenerate.
  split; [vm_compute; reflexivity |]. split; [vm_compute; reflexivity |].
  split; vm_compute; reflexivity.
Defined.

(** C6 on a record with an unknown destination and on a valid record. *)
Lemma record_skipped_iff_witness :
  frame_wf tess3 ∧
  calibrating tess3 relevances3 ["a"; "b"; "c"] [] []
    (calibrating_world gravity0 tess3 relevances3) ∧
  skipped
    (_update_training_set {| origin := "c"; destination := "z"; flow := Fin 5 |})
    (calibrating_world gravity0 tess3 relevances3) ∧
  ¬ skipped
    (_update_training_set {| origin := "a"; destination := "b"; flow := Fin 3 |})
    (calibrating_world gravity0 tess3 relevances3).
Proof.
  assert (calibrating tess3 relevances3 ["a"; "b"; "c"] [] []
            (calibrating_world gravity0 tess3 relevances3)) as Hcal
    by (repeat split).
  assert (num_columns tess3 !! "relevance" = Some relevances3) as Hv
    by (vm_compute; reflexivity).
  assert (id_columns tess3 !! TILE_ID = Some ["a"; "b"; "c"]) as Hids
    by (vm_compute; reflexivity).
  split; [exact tess3_wf |]. split; [exact Hcal |]. split.
  - apply (record_skipped_iff tess3 "relevance" relevances3 ["a"; "b"; "c"]
             [] [] _ _ tess3_wf Hv Hids Hcal).
    right. right. left. vm_compute. reflexivity.
  - intros Hskipped.
    apply (record_skipped_iff tess3 "relevance" relevances3 ["a"; "b"; "c"]
             [] [] _ _ tess3_wf Hv Hids Hcal) in Hskipped.
    destruct Hskipped as [Heq|[Hnone|[Hnone|(i & w_d & Hi & Hw & Hle)]]].
    + discriminate Heq.
    + vm_compute in Hnone. discriminate Hnone.
    + vm_compute in Hnone. discriminate Hnone.
    + vm_compute in Hi. injection Hi as <-.
      vm_compute in Hw. injection Hw as <-. discriminate Hle.
Defined.

(** C7 as amended, with all three locations as origins. *)
Lemma compute_distance_matrix_symmetric_witness :
  Forall (λ i, i < len tess3)%nat [0; 1; 2]%nat ∧
  ∃ D, compute_distance_matrix tess3 [0; 1; 2]%nat = Ok D ∧
       Np.entry D 0 2 = Np.entry D 2 0 ∧
       occurrences (0, 2)%nat (distance_matrix_writes tess3 [0; 1; 2]%nat) = 1%nat.
Proof.
  assert (Forall (λ i, i < len tess3)%nat [0; 1; 2]%nat) as Horigins
    by by_evaluation.
  split; [exact Horigins |].
  destruct (compute_distance_matrix_symmetric tess3 [0; 1; 2]%nat Horigins)
    as (D & HD & _ & Hsym & _ & _ & _ & Honce).
  exists D. split; [exact HD |]. split; [apply Hsym |].
  destruct (Honce ltac:(by_evaluation) 0%nat 2%nat) as [Hin _];
    [vm_compute; lia |].
  apply Hin. by_evaluation.
Defined.

(** C8 as amended, for a missing total-outflow column with both
    formats, and for a relevance column of labels, with which the call
    raises only in the gravity score. *)
Lemma generate_raises_early_iff_witness :
  raises_before_computing
    (generate tess3 "tile_ID" "no_such_column" "relevance" "flows")
    (world0 gravity0) ∧
  ¬ raises_before_computing
      (generate tess3 "tile_ID" "no_such_column" "relevance" "probabilities")
      (world0 gravity0) ∧
  ¬ raises_before_computing
      (generate tess_labelled "tile_ID" "tot_outflow" "relevance" "flows")
      (world0 gravity0).
Proof.
  split; [|split].
  - apply (generate_raises_early_iff tess3 "tile_ID" "no_such_column"
             "relevance" "flows" (world0 gravity0)).
    right. split; [vm_compute; reflexivity | by_evaluation].
  - intros Hraises.
    apply (generate_raises_early_iff tess3 "tile_ID" "no_such_column"
             "relevance" "probabilities" (world0 gravity0)) in Hraises.
    destruct Hraises as [Hnone|[Hflows _]].
    + apply Hnone. by_evaluation.
    + vm_compute in Hflows. discriminate Hflows.
  - intros Hraises.
    apply (generate_raises_early_iff tess_labelled "tile_ID" "tot_outflow"
             "relevance" "flows" (world0 gravity0)) in Hraises.
    destruct Hraises as [Hnone|[_ Hnone]]; apply Hnone; by_evaluation.
Defined.


(** C10 on an origin of relevance 0, globally constrained. *)
Lemma origin_relevance_is_not_checked_witness :
  frame_wf tess_zero_origin ∧
  calibrating tess_zero_origin [Fin 0; Fin 20; Fin 5] ["a"; "b"; "c"] [] []
    (calibrating_world gravity_global tess_zero_origin [Fin 0; Fin 20; Fin 5]) ∧
  ∃ w_o row w',
    fillna0 [Fin 0; Fin 20; Fin 5] !! 0%nat = Some w_o ∧
    Num.le w_o Num.zero = true ∧
    _update_training_set {| origin := "a"; destination := "b"; flow := Fin 3 |}
      (calibrating_world gravity_global tess_zero_origin [Fin 0; Fin 20; Fin 5])
      = (Ok tt, w') ∧
    X (self w') = Some [row] ∧
    row !! 1%nat = Some (Num.log w_o) ∧
    Num.isfinite (Num.log w_o) = false.
Proof.
  assert (calibrating tess_zero_origin [Fin 0; Fin 20; Fin 5] ["a"; "b"; "c"] [] []
            (calibrating_world gravity_global tess_zero_origin
               [Fin 0; Fin 20; Fin 5])) as Hcal
    by (repeat split).
  split; [exact tess_zero_origin_wf |]. split; [exact Hcal |].
  destruct (origin_relevance_is_not_checked tess_zero_origin "relevance"
              [Fin 0; Fin 20; Fin 5] ["a"; "b"; "c"] [] []
              (calibrating_world gravity_global tess_zero_origin
                 [Fin 0; Fin 20; Fin 5])
              {| origin := "a"; destination := "b"; flow := Fin 3 |}
              0%nat 1%nat (Fin 20) tess_zero_origin_wf)
    as (w_o & row & w' & Hwo & Hrun & HX & _ & Hglobal);
    [vm_compute; reflexivity | vm_compute; reflexivity | exact Hcal
    | intros Hne; by destruct Hne | discriminate | vm_compute; reflexivity
    | vm_compute; reflexivity | reflexivity | reflexivity |].
  destruct (Hglobal eq_refl) as [Hrow Hlog].
  assert (w_o = Fin 0) as -> by (vm_compute in Hwo; by injection Hwo as <-).
  exists (Fin 0), row, w'. split; [reflexivity |]. split; [reflexivity |].
  do 3 (split; [done |]). by apply Hlog.
Defined.

(** ** The further properties at sample inputs *)

Lemma tess_repeated_wf : frame_wf tess_repeated.
Proof. apply frame_wf_by_columns; by_evaluation. Defined.

(** X1 for the index 1 among three locations and for the index 3. *)
Lemma ci_one_hot_witness :
  ci 3 3 = Raise IndexError ∧
  ∃ c, ci 1 3 = Ok c ∧ c = [Fin 0; Fin 1; Fin 0] ∧ Num.sum c = Num.one.
Proof.
  destruct (ci_one_hot 3 3) as [Hraise _].
  destruct (ci_one_hot 1 3) as [_ Hok].
  split; [apply Hraise; lia |].
  destruct Hok as (c & Hc & _ & _ & Hsum); [lia |].
  exists c. split; [exact Hc |]. split; [|exact Hsum].
  vm_compute in Hc. by injection Hc as <-.
Defined.

(** X2 on the three sample locations with all of them as origins. *)
Lemma compute_distance_matrix_entries_witness :
  Forall (λ i, i < len tess3)%nat [0; 1; 2]%nat ∧
  ∃ D, compute_distance_matrix tess3 [0; 1; 2]%nat = Ok D ∧
       Np.entry D 0 2 = Fin 4 ∧ Np.entry D 2 0 = Np.entry D 0 2.
Proof.
  assert (Forall (λ i, i < len tess3)%nat [0; 1; 2]%nat) as Horigins
    by by_evaluation.
  split; [exact Horigins |].
  destruct (compute_distance_matrix_entries tess3 [0; 1; 2]%nat Horigins)
    as (D & HD & Hent).
  exists D. split; [exact HD |].
  destruct (Hent 0%nat 2%nat (Fin 0, Fin 0) (Fin (3 # 2), Fin (5 # 2)))
    as [H02 H20]; [lia | reflexivity | reflexivity |].
  split; [|exact H20]. rewrite H02. vm_compute. reflexivity.
Defined.

(** X4 for the origins 0 and 1, given in two ways. *)
Lemma compute_distance_matrix_origin_set_witness :
  (∀ i : nat, i ∈ [0; 1]%nat ↔ i ∈ [1; 0; 1]%nat) ∧
  compute_distance_matrix tess3 [0; 1]%nat =
  compute_distance_matrix tess3 [1; 0; 1]%nat.
Proof.
  assert (∀ i : nat, i ∈ [0; 1]%nat ↔ i ∈ [1; 0; 1]%nat) as Hsame.
  { intros i. rewrite !elem_of_cons, elem_of_nil. tauto. }
  split; [exact Hsame |].
  exact (compute_distance_matrix_origin_set tess3 _ _ Hsame).
Defined.

(** X6 on a model built with two deterrence arguments. *)
Lemma generate_bad_deterrence_args_witness :
  length (_deterrence_func_args (self (world0 gravity_two_args))) = 2%nat ∧
  (generate tess3 "tile_ID" "tot_outflow" "relevance" "flows"
            (world0 gravity_two_args)).1 = Raise TypeError ∧
  trace (generate tess3 "tile_ID" "tot_outflow" "relevance" "flows"
                  (world0 gravity_two_args)).2
    = [Entered DistanceMatrix; Entered GravityScore].
Proof.
  split; [reflexivity |].
  rewrite (generate_bad_deterrence_args tess3 "tile_ID" "tot_outflow" "relevance"
             "flows" (world0 gravity_two_args) relevances3).
  - split; reflexivity.
  - vm_compute. reflexivity.
  - intros _. eexists. vm_compute. reflexivity.
  - vm_compute. lia.
Defined.



(** X10 on the globally constrained sample model, with the sample
    relevances and with a relevance 0 everywhere: the constructor of the
    sample is then given no record, and raises. *)
Lemma globally_probabilities_witness :
  frame_wf tess3 ∧ frame_wf tess_all_zero ∧
  _gravity_type (self (world0 gravity_global)) = "globally constrained" ∧
  (∃ P records,
     gravity_scores (self (world0 gravity_global)) tess3 (fillna0 relevances3)
       = Ok P ∧
     (generate tess3 "tile_ID" "tot_outflow" "relevance" "probabilities"
               (world0 gravity_global)).1 =
       new_FlowDataFrame records "tile_ID" tess3 ∧
     Np.sum_all (globally_normalize P) = Num.one) ∧
  (generate tess_all_zero "tile_ID" "tot_outflow" "relevance" "probabilities"
            (world0 gravity_global)).1 = Raise IndexError.
Proof.
  split; [exact tess3_wf |]. split; [exact tess_all_zero_wf |].
  split; [reflexivity |]. split.
  - destruct (globally_probabilities tess3 "tile_ID" "tot_outflow" "relevance"
                (world0 gravity_global) relevances3 ["a"; "b"; "c"] (Fin 1)
                tess3_wf)
      as (P & records & HP & _ & Hgen & _ & Hsum & _);
      [vm_compute; reflexivity | vm_compute; reflexivity | reflexivity
      | reflexivity |].
    exists P, records. split; [exact HP |]. split; [rewrite Hgen; reflexivity |].
    apply Hsum. pose proof HP as HP'. vm_compute in HP'.
    injection HP' as <-. vm_compute. reflexivity.
  - destruct (globally_probabilities tess_all_zero "tile_ID" "tot_outflow"
                "relevance" (world0 gravity_global) [Fin 0; Fin 0; Fin 0]
                ["a"; "b"; "c"] (Fin 1) tess_all_zero_wf)
      as (P & records & HP & _ & Hgen & _ & _ & Hempty);
      [vm_compute; reflexivity | vm_compute; reflexivity | reflexivity
      | reflexivity |].
    rewrite Hgen, Hempty; [reflexivity |].
    pose proof HP as HP'. vm_compute in HP'. injection HP' as <-.
    intros [|[|[|i]]] [|[|[|j]]] Hi Hj; try reflexivity; vm_compute in Hi, Hj; lia.
Defined.

(** X11 on the default model: no record handed to the constructor is a
    self-loop. *)
Lemma power_law_gives_no_self_flows_witness :
  frame_wf tess3 ∧ NoDup ["a"; "b"; "c"] ∧
  _deterrence_func (self (world0 gravity0)) = F_powerlaw ∧
  ∃ records,
    (generate tess3 "tile_ID" "tot_outflow" "relevance" "probabilities"
              (world0 gravity0)).1 = new_FlowDataFrame records "tile_ID" tess3 ∧
    ∀ r, r ∈ records → origin r ≠ destination r.
Proof.
  assert (NoDup ["a"; "b"; "c"]) as Hnd by by_evaluation.
  split; [exact tess3_wf |]. split; [exact Hnd |]. split; [reflexivity |].
  destruct (power_law_gives_no_self_flows tess3 "tile_ID" "tot_outflow"
              "relevance" (world0 gravity0) relevances3 ["a"; "b"; "c"] (-2)
              tess3_wf)
    as (D & P & records & _ & _ & _ & _ & Hgen & Hflows);
    [vm_compute; reflexivity | vm_compute; reflexivity | exact Hnd
    | reflexivity | reflexivity | reflexivity |].
  exists records. split; [rewrite Hgen; reflexivity | exact Hflows].
Defined.

(** X12 on the sample tessellation whose first location has relevance
    0. *)
Lemma location_without_relevance_witness :
  frame_wf tess_zero_origin ∧ NoDup ["a"; "b"; "c"] ∧
  ∃ records,
    (generate tess_zero_origin "tile_ID" "tot_outflow" "relevance"
              "probabilities" (world0 gravity0)).1 =
      new_FlowDataFrame records "tile_ID" tess_zero_origin ∧
    ∀ r, r ∈ records → origin r ≠ "a" ∧ destination r ≠ "a".
Proof.
  assert (NoDup ["a"; "b"; "c"]) as Hnd by by_evaluation.
  split; [exact tess_zero_origin_wf |]. split; [exact Hnd |].
  destruct (location_without_relevance tess_zero_origin "tile_ID" "tot_outflow"
              "relevance" (world0 gravity0) [Fin 0; Fin 20; Fin 5]
              ["a"; "b"; "c"] (Fin (-2)) 1 1 0%nat (Fin 0) "a"
              tess_zero_origin_wf)
    as (P & records & _ & _ & Hgen & Hflows);
    [vm_compute; reflexivity | vm_compute; reflexivity | exact Hnd
    | reflexivity | reflexivity | reflexivity | reflexivity | reflexivity
    | reflexivity | by right | reflexivity |].
  exists records. split; [rewrite Hgen; reflexivity | exact Hflows].
Defined.

(** X13 on the default, singly constrained model and three locations. *)
Lemma generate_flows_sampling_witness :
  effective_format "flows" = "flows" ∧
  (∃ fdf, (generate tess3 "tile_ID" "tot_outflow" "relevance" "flows"
                    (world0 gravity0)).1 = Ok fdf) ∧
  trace (generate tess3 "tile_ID" "tot_outflow" "relevance" "flows"
                  (world0 gravity0)).2 =
    [Entered DistanceMatrix; Entered GravityScore;
     Entered Sampling; Entered Sampling; Entered Sampling].
Proof.
  assert (effective_format "flows" = "flows") as Hfmt by (vm_compute; reflexivity).
  assert (∃ fdf, generate tess3 "tile_ID" "tot_outflow" "relevance" "flows"
                          (world0 gravity0) =
                 (Ok fdf, (generate tess3 "tile_ID" "tot_outflow" "relevance"
                                    "flows" (world0 gravity0)).2))
    as (fdf & Hgen) by (eexists; vm_compute; reflexivity).
  split; [exact Hfmt |]. split; [exists fdf; by rewrite Hgen |].
  by rewrite (generate_flows_sampling tess3 "tile_ID" "tot_outflow" "relevance"
                "flows" (world0 gravity0) fdf _ Hfmt Hgen).
Defined.

(** X14 on identifiers with a repetition. *)
Lemma tileid_index_last_occurrence_witness :
  tileid_index repeated_ids !! "a" = Some 1%nat ∧
  size (tileid_index repeated_ids) = 2%nat ∧
  (size (tileid_index ["a"; "b"; "c"]) ≤ 3)%nat.
Proof.
  destruct (tileid_index_last_occurrence repeated_ids) as (Hlast & _ & _).
  destruct (tileid_index_last_occurrence ["a"; "b"; "c"]) as (_ & Hle & _).
  split; [|split; [vm_compute; reflexivity | exact Hle]].
  apply Hlast. split; [reflexivity |].
  intros [|[|[|j]]] Hj; try lia; discriminate.
Defined.

(** X15 on the sample flow table: the first and the last record pass
    the filters. *)
Lemma calibration_data_is_filtered_witness :
  frame_wf (tessellation flows3) ∧ NoDup ["a"; "b"; "c"] ∧
  ∃ X_ w',
    calibration_data flows3 "relevance" (world0 gravity0) =
      (Ok ([Fin 3; Fin 7], X_), w') ∧
    length X_ = 2%nat ∧
    Forall (λ row, length row = 6%nat) X_.
Proof.
  assert (NoDup ["a"; "b"; "c"]) as Hnd by by_evaluation.
  split; [exact tess3_wf |]. split; [exact Hnd |].
  destruct (calibration_data_is_filtered flows3 "relevance" (world0 gravity0)
              relevances3 ["a"; "b"; "c"] tess3_wf)
    as (X_ & w' & Hrun & Hlen & Hall);
    [vm_compute; reflexivity | vm_compute; reflexivity | intros _; exact Hnd |].
  exists X_, w'. split; [exact Hrun |]. split; [exact Hlen | exact Hall].
Defined.

(** X16 on the sample flow table: one record has an unknown
    destination. *)
Lemma fit_prints_missing_locations_witness :
  frame_wf (tessellation flows3) ∧ NoDup ["a"; "b"; "c"] ∧
  trace (fit flows3 "relevance" (world0 gravity0)).2 =
    [Printed (missing_warning "z"); Entered Regression].
Proof.
  assert (NoDup ["a"; "b"; "c"]) as Hnd by by_evaluation.
  split; [exact tess3_wf |]. split; [exact Hnd |].
  destruct (fit_prints_missing_locations flows3 "relevance" (world0 gravity0)
              relevances3 ["a"; "b"; "c"] tess3_wf)
    as [Htrace _];
    [vm_compute; reflexivity | vm_compute; reflexivity | intros _; exact Hnd |].
  rewrite Htrace. reflexivity.
Defined.

(** X17 on the tessellation without a relevance column. *)
Lemma fit_missing_column_witness :
  ("relevance" ∉ columns (tessellation flows_no_relevance)) ∧
  ∃ w', fit flows_no_relevance "relevance" (world0 gravity0)
          = (Raise KeyError, w') ∧
        lats_lngs (self w') = Some (geometry tess3) ∧
        X (self w') = None ∧ weights (self w') = None.
Proof.
  assert ("relevance" ∉ columns (tessellation flows_no_relevance))
    as Hnone by by_evaluation.
  split; [exact Hnone |].
  destruct (fit_missing_column flows_no_relevance "relevance" (world0 gravity0)
              (or_introl Hnone))
    as (w' & Hfit & _ & _ & Hll & HX & _ & _ & _ & _ & _ & Hw).
  exists w'. split; [exact Hfit |]. split; [exact Hll |].
  split; [exact HX | exact (Hw Hnone)].
Defined.

(** X18 on a table without a usable record, for which the sample
    solver raises. *)
Lemma failed_fit_keeps_training_arrays_witness :
  (fit flows_unusable "relevance" (world0 gravity0)).1 = Raise ValueError ∧
  is_Some (X (self (fit flows_unusable "relevance" (world0 gravity0)).2)) ∧
  is_Some (y (self (fit flows_unusable "relevance" (world0 gravity0)).2)).
Proof.
  assert (fit flows_unusable "relevance" (world0 gravity0) =
            (Raise ValueError,
             (fit flows_unusable "relevance" (world0 gravity0)).2)) as Hfit
    by (vm_compute; reflexivity).
  split; [by rewrite Hfit |].
  destruct (failed_fit_keeps_training_arrays flows_unusable "relevance"
              (world0 gravity0) ValueError
              (fit flows_unusable "relevance" (world0 gravity0)).2
              relevances3 ["a"; "b"; "c"])
    as (HX & Hy & _); [vm_compute; reflexivity | vm_compute; reflexivity
                      | exact Hfit |].
  split; [exact HX | exact Hy].
Defined.

(** X19 on the identifiers "a", "a", "b": the record from "b" to "a"
    raises. *)
Lemma repeated_identifier_raises_witness :
  frame_wf tess_repeated ∧
  calibrating tess_repeated relevances3 repeated_ids [] []
    (calibrating_world_on gravity0 tess_repeated relevances3 repeated_ids) ∧
  last repeated_ids = Some "b" ∧
  _update_training_set {| origin := "b"; destination := "a"; flow := Fin 3 |}
    (calibrating_world_on gravity0 tess_repeated relevances3 repeated_ids)
  = (Raise IndexError,
     calibrating_world_on gravity0 tess_repeated relevances3 repeated_ids).
Proof.
  assert (calibrating tess_repeated relevances3 repeated_ids [] []
            (calibrating_world_on gravity0 tess_repeated relevances3 repeated_ids))
    as Hcal by (repeat split).
  split; [exact tess_repeated_wf |]. split; [exact Hcal |].
  split; [reflexivity |].
  apply (repeated_identifier_raises tess_repeated "relevance" relevances3
           repeated_ids [] [] _ _ 1%nat (Fin 20) tess_repeated_wf);
    [vm_compute; reflexivity | vm_compute; reflexivity | exact Hcal
    | discriminate | by_evaluation | reflexivity | discriminate
    | vm_compute; reflexivity | reflexivity | reflexivity].
Defined.

End Examples.
